(** * DRBG benchmark: a shallow embedding of drbg.hpp / drbg.cpp

    The three generators of the repository (CTR-DRBG, Hash-DRBG and
    HMAC-DRBG), the SHA-256 and HMAC engines and the simplified block
    cipher are transcribed from the C++ sources as executable functions
    over byte vectors.

    Conventions:
    - a [uint8_t], [uint16_t], [uint32_t], [uint64_t] or [size_t] value is
      a [Z]; every place where the C++ arithmetic truncates is written out
      with [u8], [u16], [u32], [u64] or [size_t] ([size_t] is taken to be
      64 bits wide, as on the usual 64-bit targets of g++);
    - a [std::vector<uint8_t>] or [std::array<uint8_t, N>] is a [list Z];
      [v[i]] is [vget], [v[i] = x] is [vset] (stdpp's list insert),
      [insert(end, ...)] is [++], [resize] is stdpp's [resize];
    - an object is a record of its data members and a member function
      takes the object and returns the updated object next to its result. *)

From stdpp Require Import list.
From Stdlib Require Import ZArith Lia Bool ZifyBool.

Local Open Scope Z_scope.

(** ** Fixed-width integers *)

Definition u8 (x : Z) : Z := x mod 2 ^ 8.
Definition u16 (x : Z) : Z := x mod 2 ^ 16.
Definition u32 (x : Z) : Z := x mod 2 ^ 32.
Definition u64 (x : Z) : Z := x mod 2 ^ 64.
Definition size_t (x : Z) : Z := x mod 2 ^ 64.

Definition is_byte (b : Z) : bool := (0 <=? b) && (b <? 256).
Definition bytes (l : list Z) : bool := forallb is_byte l.

(** ** Vectors and arrays *)

Definition len (v : list Z) : Z := Z.of_nat (length v).
Definition vget (v : list Z) (i : Z) : Z := nth (Z.to_nat i) v 0.
Definition vset (v : list Z) (i : Z) (x : Z) : list Z := <[Z.to_nat i := x]> v.
Definition vresize (n : Z) (v : list Z) : list Z := resize (Z.to_nat n) 0 v.

(** ** Loops *)

(** [for (i = lo; i < hi; i += step) s = body i s], [n] iterations left. *)
Fixpoint for_loop {St : Type} (n : nat) (i step : Z) (body : Z -> St -> St) (s : St) : St :=
  match n with
  | O => s
  | S n' => for_loop n' (i + step) step body (body i s)
  end.

Definition for_range {St : Type} (lo hi : Z) (body : Z -> St -> St) (s : St) : St :=
  for_loop (Z.to_nat (hi - lo)) lo 1 body s.

(** [for (i = lo; i < hi; i += step)] with [step > 0]: ceil((hi-lo)/step) iterations. *)
Definition for_step {St : Type} (lo hi step : Z) (body : Z -> St -> St) (s : St) : St :=
  for_loop (Z.to_nat ((hi - lo + step - 1) / step)) lo step body s.

(** [for (int i = hi; i >= lo; --i)]. *)
Definition for_down {St : Type} (hi lo : Z) (body : Z -> St -> St) (s : St) : St :=
  for_loop (Z.to_nat (hi - lo + 1)) hi (-1) body s.

(** [while (cond s) s = body s], cut after [bound] iterations; every use
    comes with a lemma showing that the loop leaves through its condition
    before the bound is reached. *)
Fixpoint while {St : Type} (bound : nat) (cond : St -> bool) (body : St -> St) (s : St) : St :=
  match bound with
  | O => s
  | S bound' => if cond s then while bound' cond body (body s) else s
  end.

(** [std::copy(src.begin() + lo, src.begin() + hi, dst.begin())]. *)
Definition copy_range (src : list Z) (lo hi : Z) (dst : list Z) : list Z :=
  for_range lo hi (fun i dst => vset dst (i - lo) (vget src i)) dst.

(** [for (int j = n - 1; j >= 0; --j) { if (++v[j] != 0) break; }]:
    the big-endian increment used by [increment_counter] and [hashgen];
    [j1] is [j + 1]. *)
Fixpoint incr_from (j1 : nat) (v : list Z) : list Z :=
  match j1 with
  | O => v
  | S j =>
      let x := u8 (vget v (Z.of_nat j) + 1) in
      let v := vset v (Z.of_nat j) x in
      if negb (x =? 0) then v else incr_from j v
  end.

(** ** SHA-256 (drbg.cpp, anonymous namespace and Hash_DRBG::sha256) *)

Definition SHA256_K : list Z :=
  [0x428a2f98; 0x71374491; 0xb5c0fbcf; 0xe9b5dba5] ++
  [0x3956c25b; 0x59f111f1; 0x923f82a4; 0xab1c5ed5] ++
  [0xd807aa98; 0x12835b01; 0x243185be; 0x550c7dc3] ++
  [0x72be5d74; 0x80deb1fe; 0x9bdc06a7; 0xc19bf174] ++
  [0xe49b69c1; 0xefbe4786; 0x0fc19dc6; 0x240ca1cc] ++
  [0x2de92c6f; 0x4a7484aa; 0x5cb0a9dc; 0x76f988da] ++
  [0x983e5152; 0xa831c66d; 0xb00327c8; 0xbf597fc7] ++
  [0xc6e00bf3; 0xd5a79147; 0x06ca6351; 0x14292967] ++
  [0x27b70a85; 0x2e1b2138; 0x4d2c6dfc; 0x53380d13] ++
  [0x650a7354; 0x766a0abb; 0x81c2c92e; 0x92722c85] ++
  [0xa2bfe8a1; 0xa81a664b; 0xc24b8b70; 0xc76c51a3] ++
  [0xd192e819; 0xd6990624; 0xf40e3585; 0x106aa070] ++
  [0x19a4c116; 0x1e376c08; 0x2748774c; 0x34b0bcb5] ++
  [0x391c0cb3; 0x4ed8aa4a; 0x5b9cca4f; 0x682e6ff3] ++
  [0x748f82ee; 0x78a5636f; 0x84c87814; 0x8cc70208] ++
  [0x90befffa; 0xa4506ceb; 0xbef9a3f7; 0xc67178f2].

Definition rotr (x n : Z) : Z :=
  Z.lor (Z.shiftr x n) (u32 (Z.shiftl x (32 - n))).

Definition ch (x y z : Z) : Z :=
  Z.lxor (Z.land x y) (Z.land (u32 (Z.lnot x)) z).

Definition maj (x y z : Z) : Z :=
  Z.lxor (Z.lxor (Z.land x y) (Z.land x z)) (Z.land y z).

Definition sigma0 (x : Z) : Z :=
  Z.lxor (Z.lxor (rotr x 2) (rotr x 13)) (rotr x 22).

Definition sigma1 (x : Z) : Z :=
  Z.lxor (Z.lxor (rotr x 6) (rotr x 11)) (rotr x 25).

Definition gamma0 (x : Z) : Z :=
  Z.lxor (Z.lxor (rotr x 7) (rotr x 18)) (Z.shiftr x 3).

Definition gamma1 (x : Z) : Z :=
  Z.lxor (Z.lxor (rotr x 17) (rotr x 19)) (Z.shiftr x 10).

(** The eight working variables a..h (h is [hh] in the source). *)
Record sha_vars : Type := ShaVars {
  va : Z; vb : Z; vc : Z; vd : Z; ve : Z; vf : Z; vg : Z; vhh : Z }.

(** One iteration of the compression loop. *)
Definition sha256_round (w : list Z) (i : Z) (s : sha_vars) : sha_vars :=
  let t1 := u32 (vhh s + sigma1 (ve s) + ch (ve s) (vf s) (vg s)
                 + vget SHA256_K i + vget w i) in
  let t2 := u32 (sigma0 (va s) + maj (va s) (vb s) (vc s)) in
  {| vhh := vg s; vg := vf s; vf := ve s; ve := u32 (vd s + t1);
     vd := vc s; vc := vb s; vb := va s; va := u32 (t1 + t2) |}.

(** The body of the loop over 512-bit blocks. *)
Definition sha256_chunk (padded : list Z) (chunk : Z) (h : list Z) : list Z :=
  let w := replicate 64 0 in
  let w := for_range 0 16 (fun i w =>
             vset w i
               (Z.lor (Z.lor (Z.lor
                  (u32 (Z.shiftl (vget padded (chunk + i * 4)) 24))
                  (u32 (Z.shiftl (vget padded (chunk + i * 4 + 1)) 16)))
                  (u32 (Z.shiftl (vget padded (chunk + i * 4 + 2)) 8)))
                  (vget padded (chunk + i * 4 + 3)))) w in
  let w := for_range 16 64 (fun i w =>
             vset w i
               (u32 (gamma1 (vget w (i - 2)) + vget w (i - 7)
                     + gamma0 (vget w (i - 15)) + vget w (i - 16)))) w in
  let s := {| va := vget h 0; vb := vget h 1; vc := vget h 2; vd := vget h 3;
              ve := vget h 4; vf := vget h 5; vg := vget h 6; vhh := vget h 7 |} in
  let s := for_range 0 64 (sha256_round w) s in
  [ u32 (vget h 0 + va s); u32 (vget h 1 + vb s);
    u32 (vget h 2 + vc s); u32 (vget h 3 + vd s);
    u32 (vget h 4 + ve s); u32 (vget h 5 + vf s);
    u32 (vget h 6 + vg s); u32 (vget h 7 + vhh s) ].

(** The padding loop [while ((padded.size() % 64) != 56) padded.push_back(0)]. *)
Definition sha256_pad_zeros (padded : list Z) : list Z :=
  while 64 (fun p => negb (len p mod 64 =? 56)) (fun p => p ++ [0x00]) padded.

Definition sha256_padding (data : list Z) : list Z :=
  let padded := data in
  let original_len := len data in
  let original_bit_len := size_t (original_len * 8) in
  let padded := padded ++ [0x80] in
  let padded := sha256_pad_zeros padded in
  for_down 7 0 (fun i p =>
    p ++ [u8 (Z.land (Z.shiftr original_bit_len (i * 8)) 0xFF)]) padded.

Definition sha256 (data : list Z) : list Z :=
  let h := [0x6a09e667; 0xbb67ae85; 0x3c6ef372; 0xa54ff53a] ++
           [0x510e527f; 0x9b05688c; 0x1f83d9ab; 0x5be0cd19] in
  let padded := sha256_padding data in
  let h := for_step 0 (len padded) 64 (sha256_chunk padded) h in
  for_range 0 8 (fun i result =>
    let result := vset result (i * 4) (u8 (Z.land (Z.shiftr (vget h i) 24) 0xFF)) in
    let result := vset result (i * 4 + 1) (u8 (Z.land (Z.shiftr (vget h i) 16) 0xFF)) in
    let result := vset result (i * 4 + 2) (u8 (Z.land (Z.shiftr (vget h i) 8) 0xFF)) in
    vset result (i * 4 + 3) (u8 (Z.land (vget h i) 0xFF))) (replicate 32 0).


(** ** CTR-DRBG (class CTR_DRBG) *)

Module CTR_DRBG.

Definition BLOCK_SIZE : Z := 16.
Definition KEY_SIZE : Z := 32.

Definition SBOX : list Z := [
  0x63; 0x7c; 0x77; 0x7b; 0xf2; 0x6b; 0x6f; 0xc5; 0x30; 0x01; 0x67; 0x2b; 0xfe; 0xd7; 0xab; 0x76;
  0xca; 0x82; 0xc9; 0x7d; 0xfa; 0x59; 0x47; 0xf0; 0xad; 0xd4; 0xa2; 0xaf; 0x9c; 0xa4; 0x72; 0xc0;
  0xb7; 0xfd; 0x93; 0x26; 0x36; 0x3f; 0xf7; 0xcc; 0x34; 0xa5; 0xe5; 0xf1; 0x71; 0xd8; 0x31; 0x15;
  0x04; 0xc7; 0x23; 0xc3; 0x18; 0x96; 0x05; 0x9a; 0x07; 0x12; 0x80; 0xe2; 0xeb; 0x27; 0xb2; 0x75;
  0x09; 0x83; 0x2c; 0x1a; 0x1b; 0x6e; 0x5a; 0xa0; 0x52; 0x3b; 0xd6; 0xb3; 0x29; 0xe3; 0x2f; 0x84;
  0x53; 0xd1; 0x00; 0xed; 0x20; 0xfc; 0xb1; 0x5b; 0x6a; 0xcb; 0xbe; 0x39; 0x4a; 0x4c; 0x58; 0xcf;
  0xd0; 0xef; 0xaa; 0xfb; 0x43; 0x4d; 0x33; 0x85; 0x45; 0xf9; 0x02; 0x7f; 0x50; 0x3c; 0x9f; 0xa8;
  0x51; 0xa3; 0x40; 0x8f; 0x92; 0x9d; 0x38; 0xf5; 0xbc; 0xb6; 0xda; 0x21; 0x10; 0xff; 0xf3; 0xd2;
  0xcd; 0x0c; 0x13; 0xec; 0x5f; 0x97; 0x44; 0x17; 0xc4; 0xa7; 0x7e; 0x3d; 0x64; 0x5d; 0x19; 0x73;
  0x60; 0x81; 0x4f; 0xdc; 0x22; 0x2a; 0x90; 0x88; 0x46; 0xee; 0xb8; 0x14; 0xde; 0x5e; 0x0b; 0xdb;
  0xe0; 0x32; 0x3a; 0x0a; 0x49; 0x06; 0x24; 0x5c; 0xc2; 0xd3; 0xac; 0x62; 0x91; 0x95; 0xe4; 0x79;
  0xe7; 0xc8; 0x37; 0x6d; 0x8d; 0xd5; 0x4e; 0xa9; 0x6c; 0x56; 0xf4; 0xea; 0x65; 0x7a; 0xae; 0x08;
  0xba; 0x78; 0x25; 0x2e; 0x1c; 0xa6; 0xb4; 0xc6; 0xe8; 0xdd; 0x74; 0x1f; 0x4b; 0xbd; 0x8b; 0x8a;
  0x70; 0x3e; 0xb5; 0x66; 0x48; 0x03; 0xf6; 0x0e; 0x61; 0x35; 0x57; 0xb9; 0x86; 0xc1; 0x1d; 0x9e;
  0xe1; 0xf8; 0x98; 0x11; 0x69; 0xd9; 0x8e; 0x94; 0x9b; 0x1e; 0x87; 0xe9; 0xce; 0x55; 0x28; 0xdf;
  0x8c; 0xa1; 0x89; 0x0d; 0xbf; 0xe6; 0x42; 0x68; 0x41; 0x99; 0x2d; 0x0f; 0xb0; 0x54; 0xbb; 0x16 ].

Record t : Type := Make {
  key : list Z;             (* std::array<uint8_t, KEY_SIZE> *)
  counter : list Z;         (* std::array<uint8_t, BLOCK_SIZE> *)
  reseed_counter : Z }.     (* uint64_t *)

(** The MixColumns step on the column that starts at index [i]. *)
Definition mix_column (i : Z) (state : list Z) : list Z :=
  let t := u8 (Z.lxor (Z.lxor (Z.lxor (vget state i) (vget state (i + 1)))
                        (vget state (i + 2))) (vget state (i + 3))) in
  let u := vget state i in
  let state := vset state i
    (u8 (Z.lxor (vget state i)
           (Z.lxor t (Z.shiftl (Z.lxor (vget state i) (vget state (i + 1))) 1)))) in
  let state := vset state (i + 1)
    (u8 (Z.lxor (vget state (i + 1))
           (Z.lxor t (Z.shiftl (Z.lxor (vget state (i + 1)) (vget state (i + 2))) 1)))) in
  let state := vset state (i + 2)
    (u8 (Z.lxor (vget state (i + 2))
           (Z.lxor t (Z.shiftl (Z.lxor (vget state (i + 2)) (vget state (i + 3))) 1)))) in
  vset state (i + 3)
    (u8 (Z.lxor (vget state (i + 3))
           (Z.lxor t (Z.shiftl (Z.lxor (vget state (i + 3)) u) 1)))).

(** The body of the round loop of [encrypt_block]. *)
Definition encrypt_round (key : list Z) (round : Z) (state : list Z) : list Z :=
  (* Add round key *)
  let state := for_range 0 BLOCK_SIZE (fun i state =>
    vset state i
      (u8 (Z.lxor (vget state i) (vget key ((round * BLOCK_SIZE + i) mod KEY_SIZE))))) state in
  (* SubBytes *)
  let state := for_range 0 BLOCK_SIZE (fun i state =>
    vset state i (vget SBOX (vget state i))) state in
  (* ShiftRows *)
  let temp := state in
  let state := for_range 0 BLOCK_SIZE (fun i state =>
    vset state i (vget temp ((i + i / 4) mod BLOCK_SIZE))) state in
  (* MixColumns *)
  if round <? 9 then for_step 0 BLOCK_SIZE 4 mix_column state else state.

Definition encrypt_block (self : t) (block : list Z) : list Z :=
  let state := block in
  for_range 0 10 (encrypt_round (key self)) state.

(** Assignments to the data members. *)
Definition set_key (self : t) (k : list Z) : t :=
  {| key := k; counter := counter self; reseed_counter := reseed_counter self |}.
Definition set_counter (self : t) (c : list Z) : t :=
  {| key := key self; counter := c; reseed_counter := reseed_counter self |}.
Definition set_reseed_counter (self : t) (r : Z) : t :=
  {| key := key self; counter := counter self; reseed_counter := r |}.

Definition increment_counter (self : t) : t :=
  set_counter self (incr_from (Z.to_nat BLOCK_SIZE) (counter self)).

(** [increment_counter(); auto block = encrypt_block(counter);
    out.insert(out.end(), block.begin(), block.end());] *)
Definition next_block (st : t * list Z) : t * list Z :=
  let self := increment_counter (fst st) in
  let block := encrypt_block self (counter self) in
  (self, snd st ++ block).

(** The loop [for (i = 0; i < min(temp.size(), provided_data.size()); ++i)
    temp[i] ^= provided_data[i]] of [update]. *)
Definition xor_data (temp provided_data : list Z) : list Z :=
  for_range 0 (Z.min (len temp) (len provided_data)) (fun i temp =>
    vset temp i (u8 (Z.lxor (vget temp i) (vget provided_data i)))) temp.

Definition update (self : t) (provided_data : list Z) : t :=
  let temp := [] in
  let st :=
    while (Z.to_nat (KEY_SIZE + BLOCK_SIZE))
      (fun st => len (snd st) <? KEY_SIZE + BLOCK_SIZE) next_block (self, temp) in
  let self := fst st in
  let temp := snd st in
  let temp := xor_data temp provided_data in
  let self := set_key self (copy_range temp 0 KEY_SIZE (key self)) in
  set_counter self (copy_range temp KEY_SIZE (KEY_SIZE + BLOCK_SIZE) (counter self)).

(** The constructor [CTR_DRBG(seed)]. *)
Definition new (seed : list Z) : t :=
  let self := {| key := replicate (Z.to_nat KEY_SIZE) 0;
                 counter := replicate (Z.to_nat BLOCK_SIZE) 0;
                 reseed_counter := 1 |} in
  update self seed.

Definition generate (self : t) (num_bits : Z) : t * list Z :=
  let num_bytes := size_t (num_bits + 7) / 8 in
  let result := [] in
  let st :=
    while (Z.to_nat num_bytes)
      (fun st => len (snd st) <? num_bytes) next_block (self, result) in
  let self := fst st in
  let result := snd st in
  let result := vresize num_bytes result in
  let self := update self [] in
  let self := set_reseed_counter self (u64 (reseed_counter self + 1)) in
  (self, result).

Definition reseed (self : t) (seed : list Z) : t :=
  let self := update self seed in
  set_reseed_counter self 1.

(** [KEY_SIZE + BLOCK_SIZE + sizeof(reseed_counter)]. *)
Definition getStateSize (self : t) : Z := size_t (KEY_SIZE + BLOCK_SIZE + 8).

End CTR_DRBG.

(** ** Hash-DRBG (class Hash_DRBG; [sha256] above is its static member) *)

Module Hash_DRBG.

Definition SEED_LENGTH : Z := 55.
Definition HASH_OUTPUT : Z := 32.

Record t : Type := Make {
  V : list Z;               (* std::vector<uint8_t> *)
  C : list Z;               (* std::vector<uint8_t> *)
  reseed_counter : Z }.     (* uint64_t *)

(** Assignments to the data members. *)
Definition set_V (self : t) (v : list Z) : t :=
  {| V := v; C := C self; reseed_counter := reseed_counter self |}.
Definition set_C (self : t) (c : list Z) : t :=
  {| V := V self; C := c; reseed_counter := reseed_counter self |}.
Definition set_reseed_counter (self : t) (r : Z) : t :=
  {| V := V self; C := C self; reseed_counter := r |}.

(** The body of the block loop of [hash_df]; the state is [(temp, counter)]. *)
Definition hash_df_block (input : list Z) (no_of_bits : Z) (st : list Z * Z) : list Z * Z :=
  let '(temp, counter) := st in
  let hash_input := [] in
  let hash_input := hash_input ++ [counter] in
  let counter := u8 (counter + 1) in
  let hash_input := hash_input ++ [u8 (Z.land (Z.shiftr no_of_bits 24) 0xFF)] in
  let hash_input := hash_input ++ [u8 (Z.land (Z.shiftr no_of_bits 16) 0xFF)] in
  let hash_input := hash_input ++ [u8 (Z.land (Z.shiftr no_of_bits 8) 0xFF)] in
  let hash_input := hash_input ++ [u8 (Z.land no_of_bits 0xFF)] in
  let hash_input := hash_input ++ input in
  let hash := sha256 hash_input in
  (temp ++ hash, counter).

Definition hash_df (input : list Z) (no_of_bits : Z) : list Z :=
  let no_of_bytes := size_t (no_of_bits + 7) / 8 in
  let len_ := size_t (no_of_bytes + HASH_OUTPUT - 1) / HASH_OUTPUT in
  let temp := [] in
  let counter := 1 in
  let temp :=
    fst (for_range 0 len_ (fun _ => hash_df_block input no_of_bits) (temp, counter)) in
  vresize no_of_bytes temp.

(** The body of the loop of [add_to_V]; the state is [(V, carry)]. *)
Definition add_to_V_step (value : list Z) (min_len : Z) (i : Z) (st : list Z * Z) : list Z * Z :=
  let '(V, carry) := st in
  let idx := size_t (len V - 1 - i) in
  let val_idx := size_t (len value - 1 - i) in
  let sum := u16 (vget V idx + carry) in
  let sum := if i <? min_len then u16 (sum + vget value val_idx) else sum in
  (vset V idx (u8 (Z.land sum 0xFF)), Z.shiftr sum 8).

Definition add_to_V (self : t) (value : list Z) : t :=
  let carry := 0 in
  let min_len := Z.min (len (V self)) (len value) in
  set_V self
    (fst (for_range 0 (len (V self)) (add_to_V_step value min_len) (V self, carry))).

(** The body of the loop of [hashgen]; the state is [(data, W)]. *)
Definition hashgen_step (st : list Z * list Z) : list Z * list Z :=
  let '(data, W) := st in
  let w := sha256 data in
  let W := W ++ w in
  (incr_from (length data) data, W).

Definition hashgen (self : t) (requested_bits : Z) : list Z :=
  let m := size_t (requested_bits + HASH_OUTPUT * 8 - 1) / (HASH_OUTPUT * 8) in
  let data := V self in
  let W := [] in
  let W := snd (for_range 0 m (fun _ => hashgen_step) (data, W)) in
  vresize (size_t (requested_bits + 7) / 8) W.

(** The constructor [Hash_DRBG(seed)]. *)
Definition new (seed : list Z) : t :=
  let self := {| V := []; C := []; reseed_counter := 0 |} in
  let self := set_V self (hash_df seed (SEED_LENGTH * 8)) in
  let c_input := [0x00] in
  let c_input := c_input ++ V self in
  let self := set_C self (hash_df c_input (SEED_LENGTH * 8)) in
  set_reseed_counter self 1.

(** The big-endian bytes of [reseed_counter] built in [generate]. *)
Definition rc_bytes (reseed_counter : Z) : list Z :=
  for_down 7 0 (fun i rc =>
    vset rc (7 - i) (u8 (Z.land (Z.shiftr reseed_counter (i * 8)) 0xFF)))
    (replicate 8 0).

Definition generate (self : t) (num_bits : Z) : t * list Z :=
  let returned_bits := hashgen self num_bits in
  let H_input := [0x03] in
  let H_input := H_input ++ V self in
  let H := sha256 H_input in
  let self := add_to_V self H in
  let self := add_to_V self (C self) in
  let self := add_to_V self (rc_bytes (reseed_counter self)) in
  let self := set_reseed_counter self (u64 (reseed_counter self + 1)) in
  (self, returned_bits).

Definition reseed (self : t) (seed : list Z) : t :=
  let seed_material := [0x01] in
  let seed_material := seed_material ++ V self in
  let seed_material := seed_material ++ seed in
  let self := set_V self (hash_df seed_material (SEED_LENGTH * 8)) in
  let c_input := [0x00] in
  let c_input := c_input ++ V self in
  let self := set_C self (hash_df c_input (SEED_LENGTH * 8)) in
  set_reseed_counter self 1.

(** [V.size() + C.size() + sizeof(reseed_counter)]. *)
Definition getStateSize (self : t) : Z := size_t (len (V self) + len (C self) + 8).

End Hash_DRBG.

(** ** HMAC-DRBG (class HMAC_DRBG; its [sha256] forwards to the one above) *)

Module HMAC_DRBG.

Definition HASH_OUTPUT : Z := 32.

Record t : Type := Make {
  K : list Z;               (* std::array<uint8_t, HASH_OUTPUT> *)
  V : list Z;               (* std::array<uint8_t, HASH_OUTPUT> *)
  reseed_counter : Z }.     (* uint64_t *)

(** Assignments to the data members. *)
Definition set_K (self : t) (k : list Z) : t :=
  {| K := k; V := V self; reseed_counter := reseed_counter self |}.
Definition set_V (self : t) (v : list Z) : t :=
  {| K := K self; V := v; reseed_counter := reseed_counter self |}.
Definition set_reseed_counter (self : t) (r : Z) : t :=
  {| K := K self; V := V self; reseed_counter := r |}.

Definition hmac_sha256 (key : list Z) (data : list Z) : list Z :=
  let BLOCK_SIZE := 64 in
  let k_pad := replicate (Z.to_nat BLOCK_SIZE) 0 in
  let k_pad := copy_range key 0 (len key) k_pad in
  let i_key_pad := replicate (Z.to_nat BLOCK_SIZE) 0 in
  let i_key_pad := for_range 0 BLOCK_SIZE (fun i p =>
    vset p i (u8 (Z.lxor (vget k_pad i) 0x36))) i_key_pad in
  let o_key_pad := replicate (Z.to_nat BLOCK_SIZE) 0 in
  let o_key_pad := for_range 0 BLOCK_SIZE (fun i p =>
    vset p i (u8 (Z.lxor (vget k_pad i) 0x5c))) o_key_pad in
  let inner_data := i_key_pad in
  let inner_data := inner_data ++ data in
  let inner_hash := sha256 inner_data in
  let outer_data := o_key_pad in
  let outer_data := outer_data ++ inner_hash in
  sha256 outer_data.

Definition update (self : t) (provided_data : list Z) : t :=
  let temp := V self in
  let temp := temp ++ [0x00] in
  let temp := temp ++ provided_data in
  let self := set_K self (hmac_sha256 (K self) temp) in
  let self := set_V self (hmac_sha256 (K self) (V self)) in
  if negb (len provided_data =? 0) then
    let temp := V self in
    let temp := temp ++ [0x01] in
    let temp := temp ++ provided_data in
    let self := set_K self (hmac_sha256 (K self) temp) in
    set_V self (hmac_sha256 (K self) (V self))
  else
    self.

(** The constructor [HMAC_DRBG(seed)]. *)
Definition new (seed : list Z) : t :=
  let self := {| K := replicate (Z.to_nat HASH_OUTPUT) 0x00;
                 V := replicate (Z.to_nat HASH_OUTPUT) 0x01;
                 reseed_counter := 1 |} in
  update self seed.

(** The body of the loop of [generate]; the state is [(self, result)]. *)
Definition next_block (st : t * list Z) : t * list Z :=
  let self := fst st in
  let self := set_V self (hmac_sha256 (K self) (V self)) in
  (self, snd st ++ V self).

Definition generate (self : t) (num_bits : Z) : t * list Z :=
  let num_bytes := size_t (num_bits + 7) / 8 in
  let result := [] in
  let st :=
    while (Z.to_nat num_bytes)
      (fun st => len (snd st) <? num_bytes) next_block (self, result) in
  let self := fst st in
  let result := snd st in
  let result := vresize num_bytes result in
  let self := update self [] in
  let self := set_reseed_counter self (u64 (reseed_counter self + 1)) in
  (self, result).

Definition reseed (self : t) (seed : list Z) : t :=
  let self := update self seed in
  set_reseed_counter self 1.

(** [sizeof(K) + sizeof(V) + sizeof(reseed_counter)]. *)
Definition getStateSize (self : t) : Z := size_t (32 + 32 + 8).

End HMAC_DRBG.

(** ** The abstract class DRBG and its three implementations *)

Inductive variant : Type := CTR | HASH | HMAC.

Inductive DRBG : Type :=
| Ctr (g : CTR_DRBG.t)
| Hash (g : Hash_DRBG.t)
| Hmac (g : HMAC_DRBG.t).

Definition construct (v : variant) (seed : list Z) : DRBG :=
  match v with
  | CTR => Ctr (CTR_DRBG.new seed)
  | HASH => Hash (Hash_DRBG.new seed)
  | HMAC => Hmac (HMAC_DRBG.new seed)
  end.

Definition generate (d : DRBG) (num_bits : Z) : DRBG * list Z :=
  match d with
  | Ctr g => let r := CTR_DRBG.generate g num_bits in (Ctr (fst r), snd r)
  | Hash g => let r := Hash_DRBG.generate g num_bits in (Hash (fst r), snd r)
  | Hmac g => let r := HMAC_DRBG.generate g num_bits in (Hmac (fst r), snd r)
  end.

Definition reseed (d : DRBG) (seed : list Z) : DRBG :=
  match d with
  | Ctr g => Ctr (CTR_DRBG.reseed g seed)
  | Hash g => Hash (Hash_DRBG.reseed g seed)
  | Hmac g => Hmac (HMAC_DRBG.reseed g seed)
  end.

Definition getStateSize (d : DRBG) : Z :=
  match d with
  | Ctr g => CTR_DRBG.getStateSize g
  | Hash g => Hash_DRBG.getStateSize g
  | Hmac g => HMAC_DRBG.getStateSize g
  end.

Definition reseed_counter (d : DRBG) : Z :=
  match d with
  | Ctr g => CTR_DRBG.reseed_counter g
  | Hash g => Hash_DRBG.reseed_counter g
  | Hmac g => HMAC_DRBG.reseed_counter g
  end.

Definition variant_of (d : DRBG) : variant :=
  match d with Ctr _ => CTR | Hash _ => HASH | Hmac _ => HMAC end.

(** ** Call sequences *)

Inductive call : Type :=
| Generate (num_bits : Z)
| Reseed (seed : list Z).

(** One call on a generator: the new state and the byte vectors returned
    (one for [generate], none for [reseed]). *)
Definition step (d : DRBG) (c : call) : DRBG * list (list Z) :=
  match c with
  | Generate num_bits => let r := generate d num_bits in (fst r, [snd r])
  | Reseed seed => (reseed d seed, [])
  end.

Fixpoint run (d : DRBG) (calls : list call) : DRBG * list (list Z) :=
  match calls with
  | [] => (d, [])
  | c :: calls =>
      let r := step d c in
      let rs := run (fst r) calls in
      (fst rs, snd r ++ snd rs)
  end.

(** ** States the constructors and member functions maintain *)

Definition u64_ok (x : Z) : bool := (0 <=? x) && (x <? 2 ^ 64).

Definition wf (d : DRBG) : bool :=
  match d with
  | Ctr g =>
      (len (CTR_DRBG.key g) =? CTR_DRBG.KEY_SIZE)
      && (len (CTR_DRBG.counter g) =? CTR_DRBG.BLOCK_SIZE)
      && bytes (CTR_DRBG.key g) && bytes (CTR_DRBG.counter g)
      && u64_ok (CTR_DRBG.reseed_counter g)
  | Hash g =>
      (len (Hash_DRBG.V g) =? Hash_DRBG.SEED_LENGTH)
      && (len (Hash_DRBG.C g) =? Hash_DRBG.SEED_LENGTH)
      && bytes (Hash_DRBG.V g) && bytes (Hash_DRBG.C g)
      && u64_ok (Hash_DRBG.reseed_counter g)
  | Hmac g =>
      (len (HMAC_DRBG.K g) =? HMAC_DRBG.HASH_OUTPUT)
      && (len (HMAC_DRBG.V g) =? HMAC_DRBG.HASH_OUTPUT)
      && bytes (HMAC_DRBG.K g) && bytes (HMAC_DRBG.V g)
      && u64_ok (HMAC_DRBG.reseed_counter g)
  end.

(** ** Reference definitions, written from the specification *)

(** ceil(a / b) for b > 0, by the floor of the negation. *)
Definition ceil_div (a b : Z) : Z := - ((- a) / b).

Definition state_size (v : variant) : Z :=
  match v with CTR => 56 | HASH => 118 | HMAC => 72 end.

(** The unsigned integer a byte string denotes, most significant byte first. *)
Definition be_value (v : list Z) : Z := fold_left (fun acc b => acc * 256 + b) v 0.

(** The [n]-byte big-endian encoding of [x mod 2^(8n)]. *)
Fixpoint be_encode (n : nat) (x : Z) : list Z :=
  match n with
  | O => []
  | S n' => be_encode n' (x / 256) ++ [x mod 256]
  end.

Module Spec.

(** *** The block cipher of section 4.2 *)

Definition add_round_key (key : list Z) (r : Z) (state : list Z) : list Z :=
  imap (fun i b => Z.lxor b (vget key ((r * 16 + Z.of_nat i) mod 32))) state.

(** The AES S-box (FIPS 197, 5.1.1): the inverse in GF(2^8) modulo
    x^8 + x^4 + x^3 + x + 1 (0 for 0), then the affine transformation. *)
Definition xtime (a : Z) : Z :=
  if Z.testbit a 7 then Z.lxor (Z.shiftl a 1 mod 256) 0x1b else Z.shiftl a 1.

Fixpoint gf_mul_bits (n : nat) (a b : Z) : Z :=
  match n with
  | O => 0
  | S n' =>
      Z.lxor (if Z.odd b then a else 0) (gf_mul_bits n' (xtime a) (Z.shiftr b 1))
  end.

Definition gf_mul (a b : Z) : Z := gf_mul_bits 8 a b.

(** a^254, the inverse of a non-zero a. *)
Definition gf_inv (a : Z) : Z := Nat.iter 254 (gf_mul a) 1.

Definition rotl8 (b k : Z) : Z :=
  Z.lor (Z.shiftl b k) (Z.shiftr b (8 - k)) mod 256.

Definition aes_sbox_entry (a : Z) : Z :=
  let b := gf_inv a in
  Z.lxor (Z.lxor (Z.lxor (Z.lxor (Z.lxor b (rotl8 b 1)) (rotl8 b 2)) (rotl8 b 3))
            (rotl8 b 4)) 0x63.

Definition aes_sbox : list Z := map (fun i => aes_sbox_entry (Z.of_nat i)) (seq 0 256).

Definition sub_bytes (state : list Z) : list Z :=
  map (fun b => vget aes_sbox b) state.

Definition permute (oldState : list Z) : list Z :=
  map (fun i => vget oldState ((Z.of_nat i + Z.of_nat i / 4) mod 16)) (seq 0 16).

(** A byte [b] of a column, its cyclic successor [n], and the column's [t]. *)
Definition mix_byte (t b n : Z) : Z :=
  Z.lxor (Z.lxor b t) (Z.shiftl (Z.lxor b n) 1 mod 256).

Definition mix_column (s0 s1 s2 s3 : Z) : list Z :=
  let t := Z.lxor (Z.lxor (Z.lxor s0 s1) s2) s3 in
  [mix_byte t s0 s1; mix_byte t s1 s2; mix_byte t s2 s3; mix_byte t s3 s0].

Fixpoint mix_columns (state : list Z) : list Z :=
  match state with
  | s0 :: s1 :: s2 :: s3 :: rest => mix_column s0 s1 s2 s3 ++ mix_columns rest
  | _ => state
  end.

Definition round (key : list Z) (r : nat) (state : list Z) : list Z :=
  let state := add_round_key key (Z.of_nat r) state in
  let state := sub_bytes state in
  let state := permute state in
  if (r <=? 8)%nat then mix_columns state else state.

Definition encrypt_block (key block : list Z) : list Z :=
  fold_left (fun state r => round key r state) (seq 0 10) block.

(** *** HMAC of section 4.3 and the HMAC-DRBG update of section 4.6 *)

Definition zero_pad (key : list Z) : list Z := key ++ replicate (64 - length key) 0.

Definition hmac (key data : list Z) : list Z :=
  let innerPad := map (fun b => Z.lxor b 0x36) (zero_pad key) in
  let outerPad := map (fun b => Z.lxor b 0x5c) (zero_pad key) in
  sha256 (outerPad ++ sha256 (innerPad ++ data)).

Definition update (K V providedData : list Z) : list Z * list Z :=
  let K := hmac K (V ++ [0x00] ++ providedData) in
  let V := hmac K V in
  match providedData with
  | [] => (K, V)
  | _ :: _ =>
      let K := hmac K (V ++ [0x01] ++ providedData) in
      let V := hmac K V in
      (K, V)
  end.

(** *** The state transition that ends every generate call (sections 4.4-4.6) *)

Definition hash_next_V (V C : list Z) (reseedCount : Z) : list Z :=
  be_encode 55
    ((be_value V + be_value (sha256 ([0x03] ++ V)) + be_value C + reseedCount)
     mod 2 ^ 440).

Definition end_of_generate (d : DRBG) : DRBG :=
  match d with
  | Ctr g =>
      Ctr (CTR_DRBG.set_reseed_counter (CTR_DRBG.update g [])
             (u64 (CTR_DRBG.reseed_counter g + 1)))
  | Hash g =>
      Hash (Hash_DRBG.set_reseed_counter
              (Hash_DRBG.set_V g
                 (hash_next_V (Hash_DRBG.V g) (Hash_DRBG.C g) (Hash_DRBG.reseed_counter g)))
              (u64 (Hash_DRBG.reseed_counter g + 1)))
  | Hmac g =>
      Hmac (HMAC_DRBG.set_reseed_counter (HMAC_DRBG.update g [])
              (u64 (HMAC_DRBG.reseed_counter g + 1)))
  end.

End Spec.

(** The state of a generator when the output loop of [generate] is over,
    before the closing state update. *)
Definition after_output (d : DRBG) (num_bits : Z) : DRBG :=
  let num_bytes := size_t (num_bits + 7) / 8 in
  match d with
  | Ctr g =>
      Ctr (fst (while (Z.to_nat num_bytes)
                  (fun st => len (snd st) <? num_bytes) CTR_DRBG.next_block (g, [])))
  | Hash g => Hash g
  | Hmac g =>
      Hmac (fst (while (Z.to_nat num_bytes)
                   (fun st => len (snd st) <? num_bytes) HMAC_DRBG.next_block (g, [])))
  end.


(** A generator that has just been constructed or reseeded. *)
Inductive fresh : DRBG -> Prop :=
| fresh_construct (v : variant) (seed : list Z) : fresh (construct v seed)
| fresh_reseed (d : DRBG) (seed : list Z) : fresh (reseed d seed).

(** The fixed widths of the state members. *)
Definition sizes_ok (d : DRBG) : Prop :=
  match d with
  | Ctr g => len (CTR_DRBG.key g) = 32 /\ len (CTR_DRBG.counter g) = 16
  | Hash g => len (Hash_DRBG.V g) = 55 /\ len (Hash_DRBG.C g) = 55
  | Hmac g => len (HMAC_DRBG.K g) = 32 /\ len (HMAC_DRBG.V g) = 32
  end.

(** ** Benchmark::countBits (benchmark.cpp) *)

Module Benchmark.

(** The local variables [zeros], [ones] and [bits_counted] of [countBits]. *)
Record counters : Type := Counters {
  zeros : Z;            (* size_t *)
  ones : Z;             (* size_t *)
  bits_counted : Z }.   (* size_t *)

(** The body of the loop over the bits of one byte; the state is
    [(bit, counters)]. *)
Definition count_bit (byte : Z) (st : Z * counters) : Z * counters :=
  let bit := fst st in
  let c := snd st in
  let c :=
    if negb (Z.land (Z.shiftr byte bit) 1 =? 0)
    then {| zeros := zeros c; ones := size_t (ones c + 1);
            bits_counted := bits_counted c |}
    else {| zeros := size_t (zeros c + 1); ones := ones c;
            bits_counted := bits_counted c |} in
  let c := {| zeros := zeros c; ones := ones c;
              bits_counted := size_t (bits_counted c + 1) |} in
  (bit - 1, c).

(** The body of the loop over the bytes; the state is [(byte_idx, counters)]. *)
Definition count_byte (data : list Z) (num_bits : Z) (st : Z * counters) : Z * counters :=
  let byte_idx := fst st in
  let byte := vget data byte_idx in
  let inner :=
    while 8 (fun s => (0 <=? fst s) && (bits_counted (snd s) <? num_bits))
      (count_bit byte) (7, snd st) in
  (size_t (byte_idx + 1), snd inner).

Definition countBits (data : list Z) (num_bits : Z) : Z * Z :=
  let c := {| zeros := 0; ones := 0; bits_counted := 0 |} in
  let st :=
    while (length data)
      (fun s => (fst s <? len data) && (bits_counted (snd s) <? num_bits))
      (count_byte data num_bits) (0, c) in
  (zeros (snd st), ones (snd st)).

End Benchmark.

(** ** generateSeed (main.cpp) *)

(** [std::random_device]: the 32-bit values its successive calls return;
    the state of the device is the number of calls made so far. *)
Definition random_device : Type := nat -> Z.

(** The body of the loop over the four bytes of one value; the state is
    [(j, seed)]. *)
Definition seed_byte (val i : Z) (st : Z * list Z) : Z * list Z :=
  let j := fst st in
  let seed := snd st in
  (size_t (j + 1),
   vset seed (size_t (i + j)) (u8 (Z.land (Z.shiftr val (j * 8)) 0xFF))).

(** The body of the loop [for (i = 0; i < size; i += 4)]; the state is
    [(calls made to rd, seed)]. *)
Definition seed_word (rd : random_device) (size : Z) (i : Z) (st : nat * list Z) : nat * list Z :=
  let val := u32 (rd (fst st)) in
  let inner :=
    while 4 (fun s => (fst s <? 4) && (size_t (i + fst s) <? size))
      (seed_byte val i) (0, snd st) in
  (S (fst st), snd inner).

(** [generateSeed(size)]: the number of values drawn and the seed. The
    vector of [size] bytes exists, so [size] is far below 2^64 and
    [i += 4] does not wrap. *)
Definition generateSeed (rd : random_device) (size : Z) : nat * list Z :=
  let seed := replicate (Z.to_nat size) 0 in
  for_step 0 size 4 (seed_word rd size) (O, seed).

(** ** Reference definitions for the properties of the output streams *)

(** Bit [i] of a byte string, the most significant bit of byte 0 first. *)
Definition stream_bit (data : list Z) (i : Z) : bool :=
  Z.testbit (vget data (i / 8)) (7 - i mod 8).

(** The number of bits set among the first [k] bits. *)
Fixpoint ones_in (data : list Z) (k : nat) : Z :=
  match k with
  | O => 0
  | S k' => ones_in data k' + Z.b2z (stream_bit data (Z.of_nat k'))
  end.

(** The counters of [countBits] after [c] bits of [data] have been looked at. *)
Definition counted_bits (data : list Z) (c : Z) (s : Benchmark.counters) : Prop :=
  Benchmark.bits_counted s = c
  /\ Benchmark.ones s = ones_in data (Z.to_nat c)
  /\ Benchmark.zeros s = c - ones_in data (Z.to_nat c).

(** A seed vector of [size] bytes whose first [m] bytes are written:
    byte [p] is byte [p mod 4], least significant first, of the value of
    call number [p / 4]. *)
Definition seed_filled (rd : random_device) (size m : Z) (seed : list Z) : Prop :=
  len seed = size
  /\ forall p, 0 <= p < Z.min m size ->
       vget seed p = (u32 (rd (Z.to_nat (p / 4))) / 2 ^ (8 * (p mod 4))) mod 256.

Module Stream.

(** Counter mode: block i (i = 0, 1, ...) is the encryption of the
    16-byte big-endian encoding of counter + i + 1 (modulo 2^128). *)
Definition ctr_blocks (g : CTR_DRBG.t) (k : nat) : list Z :=
  flat_map (fun i =>
    CTR_DRBG.encrypt_block g
      (be_encode 16 (be_value (CTR_DRBG.counter g) + Z.of_nat i + 1))) (seq 0 k).

(** Hashgen: block i is the hash of V + i (modulo 2^(8 |V|)). *)
Definition hash_blocks (V : list Z) (k : nat) : list Z :=
  flat_map (fun i => sha256 (be_encode (length V) (be_value V + Z.of_nat i))) (seq 0 k).

(** HMAC-DRBG: block i is V_(i+1), with V_0 = V and V_(j+1) = HMAC(K, V_j). *)
Definition hmac_blocks (K V : list Z) (k : nat) : list Z :=
  flat_map (fun i => Nat.iter (S i) (HMAC_DRBG.hmac_sha256 K) V) (seq 0 k).

End Stream.

(** The first [k] blocks that a loop with body
    [s = nxt s; result.insert(result.end(), out s)] appends. *)
Definition blocks_of {St : Type} (nxt : St -> St) (out : St -> list Z) (s : St) (k : nat) : list Z :=
  flat_map (fun i => out (Nat.iter (S i) nxt s)) (seq 0 k).

(** Hash_df (SP 800-90A, 10.3.1): block i is the hash of the one-byte
    counter i + 1, the number of bits as four big-endian bytes, and the
    input. *)
Definition hash_df_blocks (input : list Z) (no_of_bits : Z) (k : nat) : list Z :=
  flat_map (fun i =>
    sha256 ([(Z.of_nat i + 1) mod 256] ++ be_encode 4 no_of_bits ++ input)) (seq 0 k).

(** Two generators of the same variant that differ at most in their
    reseed counters (CTR-DRBG and HMAC-DRBG). *)
Definition same_but_counter (d d' : DRBG) : Prop :=
  match d, d' with
  | Ctr g, Ctr g' =>
      CTR_DRBG.key g = CTR_DRBG.key g' /\ CTR_DRBG.counter g = CTR_DRBG.counter g'
  | Hmac g, Hmac g' =>
      HMAC_DRBG.K g = HMAC_DRBG.K g' /\ HMAC_DRBG.V g = HMAC_DRBG.V g'
  | _, _ => False
  end.

(** [a] XOR [b], with [b] cut or padded with zeros to the length of [a]. *)
Definition xor_pad (a b : list Z) : list Z :=
  imap (fun i x => Z.lxor x (vget b (Z.of_nat i))) a.

(** * Properties *)

(** ** Vectors and loops *)

Lemma len_nonneg (v : list Z) : 0 <= len v.
Proof. unfold len. lia. Qed.

Lemma len_app (v w : list Z) : len (v ++ w) = len v + len w.
Proof. unfold len. rewrite length_app. lia. Qed.

Lemma length_vset (v : list Z) (i x : Z) : length (vset v i x) = length v.
Proof. unfold vset. apply length_insert. Qed.

Lemma len_vset (v : list Z) (i x : Z) : len (vset v i x) = len v.
Proof. unfold len. now rewrite length_vset. Qed.

Lemma len_vresize (n : Z) (v : list Z) : 0 <= n -> len (vresize n v) = n.
Proof. intros Hn. unfold len, vresize. rewrite length_resize. lia. Qed.

Lemma vget_vset_eq (v : list Z) (i x : Z) :
  0 <= i < len v -> vget (vset v i x) i = x.
Proof.
  unfold vget, vset, len. intros Hi.
  rewrite nth_lookup, list_lookup_insert_eq by lia. reflexivity.
Qed.

Lemma vget_vset_ne (v : list Z) (i j x : Z) :
  0 <= i -> 0 <= j -> i <> j -> vget (vset v i x) j = vget v j.
Proof.
  unfold vget, vset. intros Hi Hj Hne.
  rewrite !nth_lookup, list_lookup_insert_ne by lia. reflexivity.
Qed.

Lemma for_loop_inv {St : Type} (P : St -> Prop) (body : Z -> St -> St) (step : Z) :
  (forall i s, P s -> P (body i s)) ->
  forall n i s, P s -> P (for_loop n i step body s).
Proof.
  intros Hbody n. induction n as [|n IH]; intros i s Hs; simpl; auto.
Qed.

Lemma while_inv {St : Type} (P : St -> Prop) (cond : St -> bool) (body : St -> St) :
  (forall s, P s -> P (body s)) ->
  forall bound s, P s -> P (while bound cond body s).
Proof.
  intros Hbody bound. induction bound as [|b IH]; intros s Hs; simpl; auto.
  destruct (cond s); auto.
Qed.

Lemma length_incr_from (j1 : nat) (v : list Z) : length (incr_from j1 v) = length v.
Proof.
  revert v. induction j1 as [|j IH]; intros v; simpl; auto.
  destruct (negb _); [|rewrite IH]; apply length_vset.
Qed.

(** ** SHA-256 *)

Lemma length_sha256 (data : list Z) : length (sha256 data) = 32%nat.
Proof.
  unfold sha256, for_range.
  apply (for_loop_inv (fun r => length r = 32%nat)); [|reflexivity].
  intros i s Hs. now rewrite !length_vset.
Qed.

(** ** Reading a data member after an assignment *)

Lemma ctr_key_set_key (self : CTR_DRBG.t) x :
  CTR_DRBG.key (CTR_DRBG.set_key self x) = x.
Proof. reflexivity. Qed.

Lemma ctr_key_set_counter (self : CTR_DRBG.t) x :
  CTR_DRBG.key (CTR_DRBG.set_counter self x) = CTR_DRBG.key self.
Proof. reflexivity. Qed.

Lemma ctr_key_set_reseed_counter (self : CTR_DRBG.t) x :
  CTR_DRBG.key (CTR_DRBG.set_reseed_counter self x) = CTR_DRBG.key self.
Proof. reflexivity. Qed.

Lemma ctr_counter_set_key (self : CTR_DRBG.t) x :
  CTR_DRBG.counter (CTR_DRBG.set_key self x) = CTR_DRBG.counter self.
Proof. reflexivity. Qed.

Lemma ctr_counter_set_counter (self : CTR_DRBG.t) x :
  CTR_DRBG.counter (CTR_DRBG.set_counter self x) = x.
Proof. reflexivity. Qed.

Lemma ctr_counter_set_reseed_counter (self : CTR_DRBG.t) x :
  CTR_DRBG.counter (CTR_DRBG.set_reseed_counter self x) = CTR_DRBG.counter self.
Proof. reflexivity. Qed.

Lemma ctr_reseed_counter_set_key (self : CTR_DRBG.t) x :
  CTR_DRBG.reseed_counter (CTR_DRBG.set_key self x) = CTR_DRBG.reseed_counter self.
Proof. reflexivity. Qed.

Lemma ctr_reseed_counter_set_counter (self : CTR_DRBG.t) x :
  CTR_DRBG.reseed_counter (CTR_DRBG.set_counter self x) = CTR_DRBG.reseed_counter self.
Proof. reflexivity. Qed.

Lemma ctr_reseed_counter_set_reseed_counter (self : CTR_DRBG.t) x :
  CTR_DRBG.reseed_counter (CTR_DRBG.set_reseed_counter self x) = x.
Proof. reflexivity. Qed.

Lemma hash_V_set_V (self : Hash_DRBG.t) x :
  Hash_DRBG.V (Hash_DRBG.set_V self x) = x.
Proof. reflexivity. Qed.

Lemma hash_V_set_C (self : Hash_DRBG.t) x :
  Hash_DRBG.V (Hash_DRBG.set_C self x) = Hash_DRBG.V self.
Proof. reflexivity. Qed.

Lemma hash_V_set_reseed_counter (self : Hash_DRBG.t) x :
  Hash_DRBG.V (Hash_DRBG.set_reseed_counter self x) = Hash_DRBG.V self.
Proof. reflexivity. Qed.

Lemma hash_C_set_V (self : Hash_DRBG.t) x :
  Hash_DRBG.C (Hash_DRBG.set_V self x) = Hash_DRBG.C self.
Proof. reflexivity. Qed.

Lemma hash_C_set_C (self : Hash_DRBG.t) x :
  Hash_DRBG.C (Hash_DRBG.set_C self x) = x.
Proof. reflexivity. Qed.

Lemma hash_C_set_reseed_counter (self : Hash_DRBG.t) x :
  Hash_DRBG.C (Hash_DRBG.set_reseed_counter self x) = Hash_DRBG.C self.
Proof. reflexivity. Qed.

Lemma hash_reseed_counter_set_V (self : Hash_DRBG.t) x :
  Hash_DRBG.reseed_counter (Hash_DRBG.set_V self x) = Hash_DRBG.reseed_counter self.
Proof. reflexivity. Qed.

Lemma hash_reseed_counter_set_C (self : Hash_DRBG.t) x :
  Hash_DRBG.reseed_counter (Hash_DRBG.set_C self x) = Hash_DRBG.reseed_counter self.
Proof. reflexivity. Qed.

Lemma hash_reseed_counter_set_reseed_counter (self : Hash_DRBG.t) x :
  Hash_DRBG.reseed_counter (Hash_DRBG.set_reseed_counter self x) = x.
Proof. reflexivity. Qed.

Lemma hmac_K_set_K (self : HMAC_DRBG.t) x :
  HMAC_DRBG.K (HMAC_DRBG.set_K self x) = x.
Proof. reflexivity. Qed.

Lemma hmac_K_set_V (self : HMAC_DRBG.t) x :
  HMAC_DRBG.K (HMAC_DRBG.set_V self x) = HMAC_DRBG.K self.
Proof. reflexivity. Qed.

Lemma hmac_K_set_reseed_counter (self : HMAC_DRBG.t) x :
  HMAC_DRBG.K (HMAC_DRBG.set_reseed_counter self x) = HMAC_DRBG.K self.
Proof. reflexivity. Qed.

Lemma hmac_V_set_K (self : HMAC_DRBG.t) x :
  HMAC_DRBG.V (HMAC_DRBG.set_K self x) = HMAC_DRBG.V self.
Proof. reflexivity. Qed.

Lemma hmac_V_set_V (self : HMAC_DRBG.t) x :
  HMAC_DRBG.V (HMAC_DRBG.set_V self x) = x.
Proof. reflexivity. Qed.

Lemma hmac_V_set_reseed_counter (self : HMAC_DRBG.t) x :
  HMAC_DRBG.V (HMAC_DRBG.set_reseed_counter self x) = HMAC_DRBG.V self.
Proof. reflexivity. Qed.

Lemma hmac_reseed_counter_set_K (self : HMAC_DRBG.t) x :
  HMAC_DRBG.reseed_counter (HMAC_DRBG.set_K self x) = HMAC_DRBG.reseed_counter self.
Proof. reflexivity. Qed.

Lemma hmac_reseed_counter_set_V (self : HMAC_DRBG.t) x :
  HMAC_DRBG.reseed_counter (HMAC_DRBG.set_V self x) = HMAC_DRBG.reseed_counter self.
Proof. reflexivity. Qed.

Lemma hmac_reseed_counter_set_reseed_counter (self : HMAC_DRBG.t) x :
  HMAC_DRBG.reseed_counter (HMAC_DRBG.set_reseed_counter self x) = x.
Proof. reflexivity. Qed.

Create Rewrite HintDb drbg.

#[local] Hint Rewrite
  ctr_key_set_key ctr_key_set_counter ctr_key_set_reseed_counter
  ctr_counter_set_key ctr_counter_set_counter ctr_counter_set_reseed_counter
  ctr_reseed_counter_set_key ctr_reseed_counter_set_counter ctr_reseed_counter_set_reseed_counter
  hash_V_set_V hash_V_set_C hash_V_set_reseed_counter
  hash_C_set_V hash_C_set_C hash_C_set_reseed_counter
  hash_reseed_counter_set_V hash_reseed_counter_set_C hash_reseed_counter_set_reseed_counter
  hmac_K_set_K hmac_K_set_V hmac_K_set_reseed_counter
  hmac_V_set_K hmac_V_set_V hmac_V_set_reseed_counter
  hmac_reseed_counter_set_K hmac_reseed_counter_set_V hmac_reseed_counter_set_reseed_counter : drbg.

(** ** The reseed counter *)

Lemma ctr_while_reseed_counter (g : CTR_DRBG.t) (bound : nat)
    (cond : CTR_DRBG.t * list Z -> bool) (acc : list Z) :
  CTR_DRBG.reseed_counter (fst (while bound cond CTR_DRBG.next_block (g, acc)))
  = CTR_DRBG.reseed_counter g.
Proof.
  apply (while_inv (fun st => CTR_DRBG.reseed_counter (fst st) = CTR_DRBG.reseed_counter g));
    [|reflexivity].
  intros [g' t] H. unfold CTR_DRBG.next_block, CTR_DRBG.increment_counter.
  cbn [fst] in *. now autorewrite with drbg.
Qed.

Lemma ctr_update_reseed_counter (g : CTR_DRBG.t) (data : list Z) :
  CTR_DRBG.reseed_counter (CTR_DRBG.update g data) = CTR_DRBG.reseed_counter g.
Proof.
  unfold CTR_DRBG.update. cbv zeta. autorewrite with drbg.
  apply ctr_while_reseed_counter.
Qed.

Lemma ctr_generate_reseed_counter (g : CTR_DRBG.t) (n : Z) :
  CTR_DRBG.reseed_counter (fst (CTR_DRBG.generate g n))
  = u64 (CTR_DRBG.reseed_counter g + 1).
Proof.
  unfold CTR_DRBG.generate. cbv zeta. cbn [fst]. autorewrite with drbg.
  now rewrite ctr_update_reseed_counter, ctr_while_reseed_counter.
Qed.

Lemma hash_add_to_V_frame (g : Hash_DRBG.t) (value : list Z) :
  Hash_DRBG.C (Hash_DRBG.add_to_V g value) = Hash_DRBG.C g
  /\ Hash_DRBG.reseed_counter (Hash_DRBG.add_to_V g value) = Hash_DRBG.reseed_counter g
  /\ length (Hash_DRBG.V (Hash_DRBG.add_to_V g value)) = length (Hash_DRBG.V g).
Proof.
  unfold Hash_DRBG.add_to_V. cbv zeta. autorewrite with drbg.
  split; [reflexivity|split; [reflexivity|]].
  unfold for_range.
  apply (for_loop_inv (fun st : list Z * Z => length (fst st) = length (Hash_DRBG.V g)));
    [|reflexivity].
  intros i [v c] H. unfold Hash_DRBG.add_to_V_step. cbn [fst] in *.
  now rewrite length_vset.
Qed.

Lemma hash_generate_reseed_counter (g : Hash_DRBG.t) (n : Z) :
  Hash_DRBG.reseed_counter (fst (Hash_DRBG.generate g n))
  = u64 (Hash_DRBG.reseed_counter g + 1).
Proof.
  unfold Hash_DRBG.generate. cbv zeta. cbn [fst]. autorewrite with drbg.
  now rewrite !(proj1 (proj2 (hash_add_to_V_frame _ _))).
Qed.

Lemma hmac_update_reseed_counter (g : HMAC_DRBG.t) (data : list Z) :
  HMAC_DRBG.reseed_counter (HMAC_DRBG.update g data) = HMAC_DRBG.reseed_counter g.
Proof.
  unfold HMAC_DRBG.update. cbv zeta.
  destruct (negb _); now autorewrite with drbg.
Qed.

Lemma hmac_while_reseed_counter (g : HMAC_DRBG.t) (bound : nat)
    (cond : HMAC_DRBG.t * list Z -> bool) (acc : list Z) :
  HMAC_DRBG.reseed_counter (fst (while bound cond HMAC_DRBG.next_block (g, acc)))
  = HMAC_DRBG.reseed_counter g.
Proof.
  apply (while_inv (fun st => HMAC_DRBG.reseed_counter (fst st) = HMAC_DRBG.reseed_counter g));
    [|reflexivity].
  intros [g' t] H. unfold HMAC_DRBG.next_block. cbv zeta.
  cbn [fst] in *. now autorewrite with drbg.
Qed.

Lemma hmac_generate_reseed_counter (g : HMAC_DRBG.t) (n : Z) :
  HMAC_DRBG.reseed_counter (fst (HMAC_DRBG.generate g n))
  = u64 (HMAC_DRBG.reseed_counter g + 1).
Proof.
  unfold HMAC_DRBG.generate. cbv zeta. cbn [fst]. autorewrite with drbg.
  now rewrite hmac_update_reseed_counter, hmac_while_reseed_counter.
Qed.

Lemma reseed_counter_construct (v : variant) (seed : list Z) :
  reseed_counter (construct v seed) = 1.
Proof.
  destruct v; cbn [construct reseed_counter].
  - unfold CTR_DRBG.new. cbv zeta. now rewrite ctr_update_reseed_counter.
  - unfold Hash_DRBG.new. cbv zeta. now autorewrite with drbg.
  - unfold HMAC_DRBG.new. cbv zeta. now rewrite hmac_update_reseed_counter.
Qed.

Lemma reseed_counter_reseed (d : DRBG) (seed : list Z) :
  reseed_counter (reseed d seed) = 1.
Proof.
  destruct d; cbn [reseed reseed_counter];
    [unfold CTR_DRBG.reseed|unfold Hash_DRBG.reseed|unfold HMAC_DRBG.reseed];
    cbv zeta; now autorewrite with drbg.
Qed.

Lemma reseed_counter_generate (d : DRBG) (n : Z) :
  reseed_counter (fst (generate d n)) = u64 (reseed_counter d + 1).
Proof.
  destruct d as [g|g|g]; cbn [generate]; cbv zeta; cbn [fst reseed_counter].
  - apply ctr_generate_reseed_counter.
  - apply hash_generate_reseed_counter.
  - apply hmac_generate_reseed_counter.
Qed.

(** ** State sizes *)

Lemma length_copy_range (src : list Z) (lo hi : Z) (dst : list Z) :
  length (copy_range src lo hi dst) = length dst.
Proof.
  unfold copy_range, for_range.
  apply (for_loop_inv (fun d => length d = length dst)); [|reflexivity].
  intros i s Hs. now rewrite length_vset.
Qed.

Lemma len_copy_range (src : list Z) (lo hi : Z) (dst : list Z) :
  len (copy_range src lo hi dst) = len dst.
Proof. unfold len. now rewrite length_copy_range. Qed.

Lemma len_incr_from (j1 : nat) (v : list Z) : len (incr_from j1 v) = len v.
Proof. unfold len. now rewrite length_incr_from. Qed.

Lemma len_sha256 (data : list Z) : len (sha256 data) = 32.
Proof. unfold len. now rewrite length_sha256. Qed.

Lemma len_hmac_sha256 (key data : list Z) : len (HMAC_DRBG.hmac_sha256 key data) = 32.
Proof. unfold HMAC_DRBG.hmac_sha256. apply len_sha256. Qed.

(** The output loop of CTR-DRBG never touches the key and keeps the
    counter's width. *)
Lemma ctr_while_frame (g : CTR_DRBG.t) (bound : nat) (cond : CTR_DRBG.t * list Z -> bool)
    (acc : list Z) :
  CTR_DRBG.key (fst (while bound cond CTR_DRBG.next_block (g, acc))) = CTR_DRBG.key g
  /\ len (CTR_DRBG.counter (fst (while bound cond CTR_DRBG.next_block (g, acc))))
     = len (CTR_DRBG.counter g).
Proof.
  apply (while_inv (fun st => CTR_DRBG.key (fst st) = CTR_DRBG.key g
    /\ len (CTR_DRBG.counter (fst st)) = len (CTR_DRBG.counter g))); [|now split].
  intros [g' t] [Hk Hc]. unfold CTR_DRBG.next_block, CTR_DRBG.increment_counter.
  cbv zeta. cbn [fst snd] in *. autorewrite with drbg.
  now rewrite len_incr_from.
Qed.

Lemma ctr_update_sizes (g : CTR_DRBG.t) (data : list Z) :
  len (CTR_DRBG.key (CTR_DRBG.update g data)) = len (CTR_DRBG.key g)
  /\ len (CTR_DRBG.counter (CTR_DRBG.update g data)) = len (CTR_DRBG.counter g).
Proof.
  unfold CTR_DRBG.update. cbv zeta. autorewrite with drbg.
  rewrite !len_copy_range.
  destruct (ctr_while_frame g (Z.to_nat (CTR_DRBG.KEY_SIZE + CTR_DRBG.BLOCK_SIZE))
    (fun st => len (snd st) <? CTR_DRBG.KEY_SIZE + CTR_DRBG.BLOCK_SIZE) []) as [-> ->].
  now split.
Qed.

Lemma ctr_generate_sizes (g : CTR_DRBG.t) (n : Z) :
  len (CTR_DRBG.key (fst (CTR_DRBG.generate g n))) = len (CTR_DRBG.key g)
  /\ len (CTR_DRBG.counter (fst (CTR_DRBG.generate g n))) = len (CTR_DRBG.counter g).
Proof.
  unfold CTR_DRBG.generate. cbv zeta. cbn [fst]. autorewrite with drbg.
  rewrite (proj1 (ctr_update_sizes _ _)), (proj2 (ctr_update_sizes _ _)).
  destruct (ctr_while_frame g (Z.to_nat (size_t (n + 7) / 8))
    (fun st => len (snd st) <? size_t (n + 7) / 8) []) as [-> ->].
  now split.
Qed.

Lemma len_hash_df (input : list Z) :
  len (Hash_DRBG.hash_df input (Hash_DRBG.SEED_LENGTH * 8)) = 55.
Proof. unfold Hash_DRBG.hash_df. cbv zeta. now rewrite len_vresize. Qed.

Lemma len_hash_add_to_V (g : Hash_DRBG.t) (value : list Z) :
  len (Hash_DRBG.V (Hash_DRBG.add_to_V g value)) = len (Hash_DRBG.V g).
Proof.
  unfold len. now rewrite (proj2 (proj2 (hash_add_to_V_frame g value))).
Qed.

Lemma hmac_update_sizes (g : HMAC_DRBG.t) (data : list Z) :
  len (HMAC_DRBG.K (HMAC_DRBG.update g data)) = 32
  /\ len (HMAC_DRBG.V (HMAC_DRBG.update g data)) = 32.
Proof.
  unfold HMAC_DRBG.update. cbv zeta.
  destruct (negb _); autorewrite with drbg; now rewrite !len_hmac_sha256.
Qed.

Lemma sizes_ok_construct (v : variant) (seed : list Z) : sizes_ok (construct v seed).
Proof.
  destruct v; cbn [construct sizes_ok].
  - unfold CTR_DRBG.new. cbv zeta.
    now rewrite (proj1 (ctr_update_sizes _ _)), (proj2 (ctr_update_sizes _ _)).
  - unfold Hash_DRBG.new. cbv zeta. autorewrite with drbg. now rewrite !len_hash_df.
  - unfold HMAC_DRBG.new. cbv zeta. apply hmac_update_sizes.
Qed.

Lemma sizes_ok_reseed (d : DRBG) (seed : list Z) : sizes_ok d -> sizes_ok (reseed d seed).
Proof.
  destruct d as [g|g|g]; cbn [reseed sizes_ok]; intros [H1 H2].
  - unfold CTR_DRBG.reseed. cbv zeta. autorewrite with drbg.
    now rewrite (proj1 (ctr_update_sizes _ _)), (proj2 (ctr_update_sizes _ _)).
  - unfold Hash_DRBG.reseed. cbv zeta. autorewrite with drbg. now rewrite !len_hash_df.
  - unfold HMAC_DRBG.reseed. cbv zeta. autorewrite with drbg. apply hmac_update_sizes.
Qed.

Lemma sizes_ok_generate (d : DRBG) (n : Z) : sizes_ok d -> sizes_ok (fst (generate d n)).
Proof.
  destruct d as [g|g|g]; cbn [generate]; cbv zeta; cbn [fst sizes_ok]; intros [H1 H2].
  - destruct (ctr_generate_sizes g n) as [-> ->]. now split.
  - unfold Hash_DRBG.generate. cbv zeta. cbn [fst]. autorewrite with drbg.
    rewrite !len_hash_add_to_V.
    rewrite !(proj1 (hash_add_to_V_frame _ _)). now split.
  - unfold HMAC_DRBG.generate. cbv zeta. cbn [fst]. autorewrite with drbg.
    apply hmac_update_sizes.
Qed.

Lemma variant_of_step (d : DRBG) (c : call) : variant_of (fst (step d c)) = variant_of d.
Proof.
  destruct c as [n|seed]; cbn [step]; cbv zeta; cbn [fst]; now destruct d.
Qed.

Lemma sizes_ok_step (d : DRBG) (c : call) : sizes_ok d -> sizes_ok (fst (step d c)).
Proof.
  intros H. destruct c as [n|seed]; cbn [step]; cbv zeta; cbn [fst].
  - now apply sizes_ok_generate.
  - now apply sizes_ok_reseed.
Qed.

Lemma run_cons (d : DRBG) (c : call) (calls : list call) :
  run d (c :: calls)
  = (fst (run (fst (step d c)) calls), snd (step d c) ++ snd (run (fst (step d c)) calls)).
Proof. reflexivity. Qed.

Lemma run_invariant (P : DRBG -> Prop) :
  (forall d c, P d -> P (fst (step d c))) ->
  forall calls d, P d -> P (fst (run d calls)).
Proof.
  intros Hstep calls. induction calls as [|c calls IH]; intros d Hd; [exact Hd|].
  rewrite run_cons. cbn [fst]. auto.
Qed.

Lemma getStateSize_sizes_ok (d : DRBG) :
  sizes_ok d -> getStateSize d = state_size (variant_of d).
Proof.
  destruct d as [g|g|g]; cbn [sizes_ok getStateSize variant_of state_size];
    intros [H1 H2]; [reflexivity| |reflexivity].
  unfold Hash_DRBG.getStateSize. now rewrite H1, H2.
Qed.

(** C8. [getStateSize()] is 56 for CTR-DRBG, 118 for Hash-DRBG and 72 for
    HMAC-DRBG whatever the seed and after every sequence of generate and
    reseed calls; the vectors V and C of Hash-DRBG always hold 55 bytes
    (and the arrays of the other two variants keep their declared widths). *)
Theorem getStateSize_invariant (v : variant) (seed : list Z) (calls : list call) :
  getStateSize (fst (run (construct v seed) calls)) = state_size v
  /\ sizes_ok (fst (run (construct v seed) calls))
  /\ variant_of (fst (run (construct v seed) calls)) = v.
Proof.
  assert (Hs : sizes_ok (fst (run (construct v seed) calls))).
  { apply (run_invariant sizes_ok sizes_ok_step), sizes_ok_construct. }
  assert (Hv : variant_of (fst (run (construct v seed) calls)) = v).
  { apply (run_invariant (fun d => variant_of d = v)).
    - intros d c <-. apply variant_of_step.
    - now destruct v. }
  split; [|now split].
  now rewrite getStateSize_sizes_ok, Hv.
Qed.

(** ** The reseed counter over call sequences *)

Lemma reseed_counter_fresh (d : DRBG) : fresh d -> reseed_counter d = 1.
Proof.
  intros [v seed|d' seed];
    [apply reseed_counter_construct|apply reseed_counter_reseed].
Qed.

Lemma reseed_counter_generates (ns : list Z) (d : DRBG) :
  0 <= reseed_counter d < 2 ^ 64 ->
  reseed_counter (fst (run d (map Generate ns))) = u64 (reseed_counter d + len ns).
Proof.
  revert d. induction ns as [|n ns IH]; intros d Hd.
  - cbn [map run fst]. unfold len. cbn [length Z.of_nat].
    rewrite Z.add_0_r. unfold u64. now rewrite Z.mod_small.
  - cbn [map]. rewrite run_cons. cbn [fst step]. cbv zeta. cbn [fst].
    rewrite IH; rewrite reseed_counter_generate.
    + unfold len. cbn [length]. rewrite Nat2Z.inj_succ.
      unfold u64. rewrite Zplus_mod_idemp_l. f_equal. lia.
    + unfold u64. apply Z.mod_pos_bound. lia.
Qed.

(** C7. The reseed counter is 1 right after construction and right after
    every reseed; every generate call increments it by exactly one (the
    field is a [uint64_t], so the increment is the 64-bit one); hence
    after k generate calls since the last construction or reseed it
    holds k+1, for every k whose successor the field can hold. *)
Theorem reseed_counter_lifecycle (d0 : DRBG) (ns : list Z) (Hfresh : fresh d0) :
  reseed_counter d0 = 1
  /\ (forall d n, reseed_counter (fst (generate d n)) = u64 (reseed_counter d + 1))
  /\ reseed_counter (fst (run d0 (map Generate ns))) = (len ns + 1) mod 2 ^ 64
  /\ (len ns + 1 < 2 ^ 64 ->
      reseed_counter (fst (run d0 (map Generate ns))) = len ns + 1).
Proof.
  pose proof (reseed_counter_fresh d0 Hfresh) as H1.
  assert (H3 : reseed_counter (fst (run d0 (map Generate ns))) = u64 (len ns + 1)).
  { rewrite reseed_counter_generates; rewrite H1; [f_equal; lia|lia]. }
  repeat split; auto using reseed_counter_generate.
  intros Hk. rewrite H3. unfold u64. apply Z.mod_small.
  pose proof (len_nonneg ns). lia.
Qed.

Lemma reseed_counter_lifecycle_witness :
  fresh (reseed (construct CTR []) [1; 2; 3])
  /\ reseed_counter (fst (run (reseed (construct CTR []) [1; 2; 3]) (map Generate [0; 8]))) = 3.
Proof.
  split; [constructor|].
  apply (proj2 (proj2 (proj2
    (reseed_counter_lifecycle (reseed (construct CTR []) [1; 2; 3]) [0; 8]
       (fresh_reseed (construct CTR []) [1; 2; 3]))))).
  reflexivity.
Defined.

(** ** The SHA-256 test vector *)

(** C2. [sha256] of the empty byte sequence is the 32-byte digest
    e3b0c442 98fc1c14 9afbf4c8 996fb924 27ae41e4 649b934c a495991b 7852b855. *)
Theorem sha256_empty :
  sha256 [] =
  [ 0xe3; 0xb0; 0xc4; 0x42; 0x98; 0xfc; 0x1c; 0x14;
    0x9a; 0xfb; 0xf4; 0xc8; 0x99; 0x6f; 0xb9; 0x24;
    0x27; 0xae; 0x41; 0xe4; 0x64; 0x9b; 0x93; 0x4c;
    0xa4; 0x95; 0x99; 0x1b; 0x78; 0x52; 0xb8; 0x55 ].
Proof. vm_compute. reflexivity. Qed.

(** The digest of "abc" (FIPS 180-4, appendix B.1) as a second check of the
    transcription. *)
Example sha256_abc :
  sha256 [0x61; 0x62; 0x63] =
  [ 0xba; 0x78; 0x16; 0xbf; 0x8f; 0x01; 0xcf; 0xea;
    0x41; 0x41; 0x40; 0xde; 0x5d; 0xae; 0x22; 0x23;
    0xb0; 0x03; 0x61; 0xa3; 0x96; 0x17; 0x7a; 0x9c;
    0xb4; 0x10; 0xff; 0x61; 0xf2; 0x00; 0x15; 0xad ].
Proof. vm_compute. reflexivity. Qed.

(** ** The length of the vector [generate] returns *)

Lemma ceil_div_8 (n : Z) : ceil_div n 8 = (n + 7) / 8.
Proof. unfold ceil_div. Z.div_mod_to_equations. lia. Qed.

Lemma size_t_small (x : Z) : 0 <= x < 2 ^ 64 -> size_t x = x.
Proof. intros H. unfold size_t. now apply Z.mod_small. Qed.

(** Every [generate] ends with [result.resize(num_bytes)]: the vector
    returned has [num_bytes] bytes, [num_bytes] being computed in [size_t]. *)
Lemma generate_num_bytes (d : DRBG) (n : Z) :
  len (snd (generate d n)) = size_t (n + 7) / 8.
Proof.
  assert (H0 : 0 <= size_t (n + 7) / 8).
  { apply Z.div_pos; [|reflexivity]. unfold size_t.
    apply Z.mod_pos_bound. reflexivity. }
  destruct d as [g|g|g]; cbn [generate]; cbv zeta; cbn [snd].
  - unfold CTR_DRBG.generate. cbv zeta. cbn [snd]. now apply len_vresize.
  - unfold Hash_DRBG.generate, Hash_DRBG.hashgen. cbv zeta. cbn [snd].
    now apply len_vresize.
  - unfold HMAC_DRBG.generate. cbv zeta. cbn [snd]. now apply len_vresize.
Qed.

(** [num_bytes = (num_bits + 7) / 8] is the code's ceil(num_bits / 8): for
    every variant, every state and every bit count [num_bits] for which
    [num_bits + 7] does not wrap around in [size_t] (that is,
    [num_bits <= 2^64 - 8]), the vector [generate(num_bits)] returns has
    exactly ceil(num_bits / 8) bytes.  (Vectors are lists here; the limits
    of the allocator are not part of the model.) *)
Lemma generate_length (d : DRBG) (n : Z) (Hn : 0 <= n <= 2 ^ 64 - 8) :
  len (snd (generate d n)) = ceil_div n 8.
Proof.
  rewrite generate_num_bytes, ceil_div_8.
  rewrite size_t_small; [reflexivity|].
  change (2 ^ 64) with 18446744073709551616 in *. lia.
Qed.

(** The bit counts of the specification's test list. *)
Corollary generate_length_listed (d : DRBG) (n : Z) :
  In n [0; 1; 7; 8; 9; 1000; 1000000] -> len (snd (generate d n)) = ceil_div n 8.
Proof.
  intros H. cbn [In] in H. rewrite generate_num_bytes, ceil_div_8.
  rewrite size_t_small; [reflexivity|].
  change (2 ^ 64) with 18446744073709551616. lia.
Qed.

(** At the top of the range of [size_t], [num_bits + 7] wraps around: for
    [num_bits = 2^64 - 1] every variant, in every state, computes
    [num_bytes = 0] and returns the empty vector, while
    ceil(num_bits / 8) is 2^61. *)
Lemma generate_length_wraps (d : DRBG) :
  snd (generate d (2 ^ 64 - 1)) = []
  /\ ceil_div (2 ^ 64 - 1) 8 = 2 ^ 61
  /\ len (snd (generate d (2 ^ 64 - 1))) <> ceil_div (2 ^ 64 - 1) 8.
Proof.
  pose proof (generate_num_bytes d (2 ^ 64 - 1)) as H.
  change (size_t (2 ^ 64 - 1 + 7) / 8) with 0 in H.
  split; [|split; [reflexivity|rewrite H; discriminate]].
  unfold len in H. destruct (snd (generate d (2 ^ 64 - 1))); [reflexivity|].
  cbn [length] in H. lia.
Qed.

(** C3. The code at the bit count [num_bits = 2^64 - 1] (SIZE_MAX), for
    each of the three variants built from the empty seed: the sum
    [num_bits + 7] wraps around to 6 in [size_t], [num_bytes] is 0 and the
    vector returned is empty, whereas ceil(num_bits / 8), the value of
    [(num_bits + 7) / 8] without the wrap, is 2^61. *)
Theorem generate_length_overflow :
  ceil_div (2 ^ 64 - 1) 8 = 2 ^ 61
  /\ (snd (generate (construct CTR []) (2 ^ 64 - 1)) = []
      /\ len (snd (generate (construct CTR []) (2 ^ 64 - 1))) <> ceil_div (2 ^ 64 - 1) 8)
  /\ (snd (generate (construct HASH []) (2 ^ 64 - 1)) = []
      /\ len (snd (generate (construct HASH []) (2 ^ 64 - 1))) <> ceil_div (2 ^ 64 - 1) 8)
  /\ (snd (generate (construct HMAC []) (2 ^ 64 - 1)) = []
      /\ len (snd (generate (construct HMAC []) (2 ^ 64 - 1))) <> ceil_div (2 ^ 64 - 1) 8).
Proof.
  split; [reflexivity|].
  pose proof (generate_length_wraps (construct CTR [])) as [E1 [_ N1]].
  pose proof (generate_length_wraps (construct HASH [])) as [E2 [_ N2]].
  pose proof (generate_length_wraps (construct HMAC [])) as [E3 [_ N3]].
  split; [split; [exact E1|exact N1]|].
  split; [split; [exact E2|exact N2]|split; [exact E3|exact N3]].
Qed.

(** ** Loops that rewrite a vector slot by slot *)

Lemma for_loop_ext {St : Type} (b1 b2 : Z -> St -> St) (step : Z) :
  forall n i s,
    (forall k s', (k < n)%nat ->
       b1 (i + Z.of_nat k * step) s' = b2 (i + Z.of_nat k * step) s') ->
    for_loop n i step b1 s = for_loop n i step b2 s.
Proof.
  induction n as [|n IH]; intros i s H; [reflexivity|].
  cbn [for_loop]. rewrite <- (IH (i + step)).
  - f_equal. specialize (H 0%nat s). rewrite Z.mul_0_l, Z.add_0_r in H.
    apply H. lia.
  - intros k s' Hk. specialize (H (S k) s').
    replace (i + Z.of_nat (S k) * step) with (i + step + Z.of_nat k * step) in H by lia.
    apply H. lia.
Qed.

Lemma vget_ext (a b : list Z) :
  length a = length b ->
  (forall i, 0 <= i < len a -> vget a i = vget b i) ->
  a = b.
Proof.
  intros Hl H. apply (nth_ext a b 0 0 Hl).
  intros n Hn. specialize (H (Z.of_nat n)). unfold vget, len in H.
  rewrite Nat2Z.id in H. apply H. lia.
Qed.

Section Pointwise.

Variable f : Z -> Z -> Z.
Variable lo : Z.
Variable body : Z -> list Z -> list Z.
Hypothesis body_eq : forall i s, body i s = vset s (i - lo) (f i (vget s (i - lo))).

(** A loop whose iteration [i] rewrites slot [i - lo] from its old content
    rewrites each of the slots it visits exactly once. *)
Lemma vget_for_loop_pointwise :
  forall n k s j,
    0 <= k -> 0 <= j -> k + Z.of_nat n <= len s ->
    vget (for_loop n (lo + k) 1 body s) j
    = if (k <=? j) && (j <? k + Z.of_nat n) then f (lo + j) (vget s j) else vget s j.
Proof.
  induction n as [|n IH]; intros k s j Hk Hj Hn.
  - cbn [for_loop]. replace (j <? k + Z.of_nat 0) with (negb (k <=? j)) by lia.
    now destruct (k <=? j).
  - cbn [for_loop]. replace (lo + k + 1) with (lo + (k + 1)) by lia.
    rewrite IH by (rewrite ?body_eq, ?len_vset; lia).
    rewrite body_eq. replace (lo + k - lo) with k by lia.
    destruct (Z.eq_dec j k) as [->|Hne].
    + rewrite vget_vset_eq by lia.
      replace (k + 1 <=? k) with false by lia.
      replace (k <=? k) with true by lia.
      replace (k <? k + Z.of_nat (S n)) with true by lia. reflexivity.
    + rewrite vget_vset_ne by lia.
      replace (k + 1 <=? j) with ((k <=? j)) by lia.
      replace (j <? k + 1 + Z.of_nat n) with (j <? k + Z.of_nat (S n)) by lia.
      reflexivity.
Qed.

Lemma length_for_loop_pointwise (n : nat) (i : Z) (s : list Z) :
  length (for_loop n i 1 body s) = length s.
Proof.
  apply (for_loop_inv (fun r => length r = length s)); [|reflexivity].
  intros j r Hr. now rewrite body_eq, length_vset.
Qed.

Lemma vget_for_range_pointwise (hi : Z) (s : list Z) (j : Z) :
  lo <= hi -> hi - lo <= len s -> 0 <= j ->
  vget (for_range lo hi body s) j
  = if j <? hi - lo then f (lo + j) (vget s j) else vget s j.
Proof.
  intros H1 H2 Hj. unfold for_range.
  replace lo with (lo + 0) at 2 by lia.
  rewrite vget_for_loop_pointwise by lia.
  replace (0 <=? j) with true by lia.
  now rewrite Z2Nat.id by lia.
Qed.

End Pointwise.

(** ** CTR-DRBG reads 48 bytes of seed *)

Lemma vget_xor_data (temp data : list Z) (j : Z) :
  0 <= j ->
  vget (CTR_DRBG.xor_data temp data) j
  = if (j <? len temp) && (j <? len data)
    then u8 (Z.lxor (vget temp j) (vget data j)) else vget temp j.
Proof.
  intros Hj. unfold CTR_DRBG.xor_data.
  pose proof (len_nonneg temp). pose proof (len_nonneg data).
  rewrite (vget_for_range_pointwise (fun i x => u8 (Z.lxor x (vget data i))) 0) by
    (try (intros; rewrite Z.sub_0_r; reflexivity); lia).
  rewrite Z.sub_0_r, Z.add_0_l.
  replace (j <? Z.min (len temp) (len data)) with ((j <? len temp) && (j <? len data)) by lia.
  reflexivity.
Qed.

Lemma copy_range_ext (s1 s2 : list Z) (lo hi : Z) (dst : list Z) :
  (forall i, lo <= i < hi -> vget s1 i = vget s2 i) ->
  copy_range s1 lo hi dst = copy_range s2 lo hi dst.
Proof.
  intros H. unfold copy_range, for_range. apply for_loop_ext.
  intros k s' Hk. rewrite H; [reflexivity|lia].
Qed.

Lemma take_eq_vget (n : nat) (s1 s2 : list Z) (i : Z) :
  take n s1 = take n s2 -> 0 <= i < Z.of_nat n ->
  vget s1 i = vget s2 i /\ (i <? len s1) = (i <? len s2).
Proof.
  intros H Hi. split.
  - unfold vget. rewrite !nth_lookup.
    rewrite <- (lookup_take_lt s1 n), <- (lookup_take_lt s2 n) by lia.
    now rewrite H.
  - pose proof (f_equal length H) as Hl. rewrite !length_take in Hl.
    unfold len. lia.
Qed.

Lemma xor_data_prefix (temp s1 s2 : list Z) (i : Z) :
  take 48 s1 = take 48 s2 -> 0 <= i < 48 ->
  vget (CTR_DRBG.xor_data temp s1) i = vget (CTR_DRBG.xor_data temp s2) i.
Proof.
  intros H Hi. rewrite !vget_xor_data by lia.
  destruct (take_eq_vget 48 s1 s2 i H) as [-> ->]; [lia|reflexivity].
Qed.

Lemma ctr_update_prefix (g : CTR_DRBG.t) (s1 s2 : list Z) :
  take 48 s1 = take 48 s2 -> CTR_DRBG.update g s1 = CTR_DRBG.update g s2.
Proof.
  intros H. unfold CTR_DRBG.update. cbv zeta.
  generalize (while (Z.to_nat (CTR_DRBG.KEY_SIZE + CTR_DRBG.BLOCK_SIZE))
    (fun st => len (snd st) <? CTR_DRBG.KEY_SIZE + CTR_DRBG.BLOCK_SIZE)
    CTR_DRBG.next_block (g, [])).
  intros st.
  rewrite (copy_range_ext (CTR_DRBG.xor_data (snd st) s1) (CTR_DRBG.xor_data (snd st) s2)
             0 CTR_DRBG.KEY_SIZE).
  - rewrite (copy_range_ext (CTR_DRBG.xor_data (snd st) s1) (CTR_DRBG.xor_data (snd st) s2)
               CTR_DRBG.KEY_SIZE (CTR_DRBG.KEY_SIZE + CTR_DRBG.BLOCK_SIZE)); [reflexivity|].
    intros i Hi. apply xor_data_prefix; [exact H|].
    unfold CTR_DRBG.KEY_SIZE, CTR_DRBG.BLOCK_SIZE in Hi. lia.
  - intros i Hi. apply xor_data_prefix; [exact H|].
    unfold CTR_DRBG.KEY_SIZE in Hi. lia.
Qed.

Lemma ctr_seed_prefix_states (s1 s2 : list Z) :
  take 48 s1 = take 48 s2 ->
  CTR_DRBG.new s1 = CTR_DRBG.new s2
  /\ forall g, CTR_DRBG.reseed g s1 = CTR_DRBG.reseed g s2.
Proof.
  intros H. split.
  - unfold CTR_DRBG.new. cbv zeta. apply ctr_update_prefix. exact H.
  - intros g. unfold CTR_DRBG.reseed. cbv zeta.
    rewrite (ctr_update_prefix g s1 s2 H). reflexivity.
Qed.

(** C10. Construction and reseed of CTR-DRBG read the first 48 bytes of
    the seed only: two seeds with the same first 48 bytes (one may extend
    the other beyond them) give the same key, counter and reseed counter,
    from the constructor as well as from a reseed of one and the same
    state, and hence the same outputs and states along every later
    sequence of calls. *)
Theorem ctr_seed_prefix (s1 s2 : list Z) (H : take 48 s1 = take 48 s2) :
  CTR_DRBG.new s1 = CTR_DRBG.new s2
  /\ (forall g, CTR_DRBG.reseed g s1 = CTR_DRBG.reseed g s2)
  /\ (forall calls, run (construct CTR s1) calls = run (construct CTR s2) calls)
  /\ (forall g calls, run (reseed (Ctr g) s1) calls = run (reseed (Ctr g) s2) calls).
Proof.
  destruct (ctr_seed_prefix_states s1 s2 H) as [Hn Hr].
  split; [exact Hn|]. split; [exact Hr|]. split.
  - intros calls. cbn [construct]. rewrite Hn. reflexivity.
  - intros g calls. cbn [reseed]. rewrite Hr. reflexivity.
Qed.

(** A seed of at least 48 bytes and any extension of it. *)
Corollary ctr_seed_extension (s ext : list Z) :
  (48 <= length s)%nat ->
  CTR_DRBG.new (s ++ ext) = CTR_DRBG.new s
  /\ forall g, CTR_DRBG.reseed g (s ++ ext) = CTR_DRBG.reseed g s.
Proof.
  intros Hs. apply ctr_seed_prefix_states. now rewrite take_app_le.
Qed.

Lemma ctr_seed_prefix_witness :
  CTR_DRBG.new (replicate 48 7 ++ [1; 2; 3]) = CTR_DRBG.new (replicate 48 7 ++ [9])
  /\ run (construct CTR (replicate 48 7 ++ [1; 2; 3])) [Generate 100; Reseed []; Generate 8]
     = run (construct CTR (replicate 48 7 ++ [9])) [Generate 100; Reseed []; Generate 8].
Proof.
  pose proof (ctr_seed_prefix (replicate 48 7 ++ [1; 2; 3]) (replicate 48 7 ++ [9]) eq_refl)
    as (H1 & _ & H3 & _).
  split; [exact H1|apply H3].
Defined.

(** ** Bytes *)

Lemma is_byte_iff (b : Z) : is_byte b = true <-> 0 <= b < 256.
Proof. unfold is_byte. lia. Qed.

Lemma u8_range (x : Z) : 0 <= u8 x < 256.
Proof. unfold u8. apply Z.mod_pos_bound. reflexivity. Qed.

Lemma u8_small (x : Z) : 0 <= x < 256 -> u8 x = x.
Proof. intros H. unfold u8. now apply Z.mod_small. Qed.

Lemma is_byte_u8 (x : Z) : is_byte (u8 x) = true.
Proof. apply is_byte_iff, u8_range. Qed.

Lemma vget_byte (v : list Z) (i : Z) : bytes v = true -> 0 <= vget v i < 256.
Proof.
  intros H. unfold vget.
  destruct (nth_in_or_default (Z.to_nat i) v 0) as [Hin| ->]; [|lia].
  apply is_byte_iff. unfold bytes in H. rewrite forallb_forall in H. now apply H.
Qed.

Lemma bytes_iff (v : list Z) : bytes v = true <-> forall x, In x v -> 0 <= x < 256.
Proof.
  unfold bytes. rewrite forallb_forall.
  split; intros H x Hx; apply is_byte_iff || apply <- is_byte_iff; auto.
Qed.

Lemma bytes_vset (v : list Z) (i x : Z) :
  bytes v = true -> 0 <= x < 256 -> bytes (vset v i x) = true.
Proof.
  intros Hv Hx. apply bytes_iff. intros y Hy.
  rewrite bytes_iff in Hv. unfold vset in Hy.
  apply list_elem_of_In in Hy.
  apply list_elem_of_lookup in Hy as [j Hj].
  destruct (decide (Z.to_nat i = j)) as [<-|Hne].
  - destruct (decide (Z.to_nat i < length v)%nat) as [Hlt|Hge].
    + rewrite list_lookup_insert_eq in Hj by lia. injection Hj as <-. exact Hx.
    + rewrite list_insert_ge in Hj by lia.
      apply Hv, list_elem_of_In, list_elem_of_lookup. eauto.
  - rewrite list_lookup_insert_ne in Hj by lia.
    apply Hv, list_elem_of_In, list_elem_of_lookup. eauto.
Qed.

Lemma bytes_app (v w : list Z) : bytes (v ++ w) = bytes v && bytes w.
Proof. apply forallb_app. Qed.

Lemma bytes_replicate (n : nat) (x : Z) : 0 <= x < 256 -> bytes (replicate n x) = true.
Proof.
  intros Hx. apply bytes_iff. intros y Hy.
  apply list_elem_of_In, elem_of_replicate in Hy as [-> _]. exact Hx.
Qed.

Lemma lxor_byte (a b : Z) : 0 <= a < 256 -> 0 <= b < 256 -> 0 <= Z.lxor a b < 256.
Proof.
  intros Ha Hb.
  assert (H0 : 0 <= Z.lxor a b) by (apply Z.lxor_nonneg; lia).
  split; [exact H0|].
  destruct (Z.eq_dec (Z.lxor a b) 0) as [->|Hne]; [lia|].
  change 256 with (2 ^ 8). apply Z.log2_lt_pow2; [lia|].
  pose proof (Z.log2_lxor a b ltac:(lia) ltac:(lia)) as Hl.
  assert (Hla : Z.log2 a < 8).
  { destruct (Z.eq_dec a 0) as [->|]; [reflexivity|].
    apply Z.log2_lt_pow2; [lia|]. change (2 ^ 8) with 256. lia. }
  assert (Hlb : Z.log2 b < 8).
  { destruct (Z.eq_dec b 0) as [->|]; [reflexivity|].
    apply Z.log2_lt_pow2; [lia|]. change (2 ^ 8) with 256. lia. }
  lia.
Qed.

Lemma bytes_sha256 (data : list Z) : bytes (sha256 data) = true.
Proof.
  unfold sha256, for_range. cbv zeta.
  apply (for_loop_inv (fun r => bytes r = true)); [|reflexivity].
  intros i s Hs. repeat apply bytes_vset; auto using u8_range.
Qed.

(** ** HMAC-SHA256 and the HMAC-DRBG update *)

Lemma vget_zero_pad (key : list Z) (i : Z) :
  0 <= i -> vget (Spec.zero_pad key) i = if i <? len key then vget key i else 0.
Proof.
  intros Hi. unfold Spec.zero_pad, vget, len.
  destruct (i <? Z.of_nat (length key)) eqn:E.
  - apply app_nth1. lia.
  - rewrite app_nth2 by lia. rewrite nth_lookup.
    destruct (replicate _ _ !! _) eqn:L; [|reflexivity].
    now apply lookup_replicate in L as [-> _].
Qed.

Lemma length_zero_pad (key : list Z) :
  (length key <= 64)%nat -> length (Spec.zero_pad key) = 64%nat.
Proof. intros H. unfold Spec.zero_pad. rewrite length_app, length_replicate. lia. Qed.

Lemma vget_map_in_range (g : Z -> Z) (v : list Z) (i : Z) :
  0 <= i < len v -> vget (map g v) i = g (vget v i).
Proof.
  unfold vget, len. intros Hi.
  rewrite (nth_indep (map g v) 0 (g 0)) by (rewrite length_map; lia).
  apply map_nth.
Qed.

(** The padded key block of [hmac_sha256]. *)
Lemma vget_k_pad (key : list Z) (i : Z) :
  (length key <= 64)%nat -> 0 <= i ->
  vget (copy_range key 0 (len key) (replicate 64 0)) i
  = if i <? len key then vget key i else 0.
Proof.
  intros Hk Hi. unfold copy_range.
  rewrite (vget_for_range_pointwise (fun j _ => vget key j) 0) by
    (try reflexivity; unfold len; rewrite ?length_replicate; lia).
  rewrite Z.sub_0_r, Z.add_0_l.
  destruct (i <? len key); [reflexivity|].
  unfold vget. rewrite nth_lookup.
  destruct (replicate _ _ !! _) eqn:L; [|reflexivity].
  now apply lookup_replicate in L as [-> _].
Qed.

Lemma key_pad_eq (key : list Z) (c : Z) :
  (length key <= 64)%nat -> bytes key = true -> 0 <= c < 256 ->
  for_range 0 64 (fun i p =>
    vset p i (u8 (Z.lxor (vget (copy_range key 0 (len key) (replicate 64 0)) i) c)))
    (replicate 64 0)
  = map (fun b => Z.lxor b c) (Spec.zero_pad key).
Proof.
  intros Hk Hb Hc.
  set (k_pad := copy_range key 0 (len key) (replicate 64 0)).
  set (body := fun (i : Z) (p : list Z) => vset p i (u8 (Z.lxor (vget k_pad i) c))).
  assert (Hbody : forall i s, body i s
            = vset s (i - 0) ((fun j _ => u8 (Z.lxor (vget k_pad j) c)) i (vget s (i - 0)))).
  { intros i s. unfold body. now rewrite Z.sub_0_r. }
  apply vget_ext.
  - unfold for_range.
    rewrite (length_for_loop_pointwise _ 0 body Hbody), length_map, length_zero_pad by lia.
    apply length_replicate.
  - intros i Hi. unfold len, for_range in Hi.
    rewrite (length_for_loop_pointwise _ 0 body Hbody), length_replicate in Hi.
    rewrite (vget_for_range_pointwise _ 0 body Hbody) by
      (unfold len; rewrite ?length_replicate; lia).
    replace (i <? 64 - 0) with true by lia. rewrite Z.add_0_l.
    rewrite vget_map_in_range by (unfold len; rewrite length_zero_pad; lia).
    unfold k_pad. rewrite vget_k_pad, vget_zero_pad by lia.
    apply u8_small, lxor_byte; [|exact Hc].
    destruct (i <? len key); [now apply vget_byte|lia].
Qed.

Lemma hmac_sha256_refines (key data : list Z) :
  length key = 32%nat -> bytes key = true ->
  HMAC_DRBG.hmac_sha256 key data = Spec.hmac key data.
Proof.
  intros Hl Hb. unfold HMAC_DRBG.hmac_sha256, Spec.hmac. cbv zeta.
  change (Z.to_nat 64) with 64%nat.
  rewrite !key_pad_eq by (try exact Hb; lia). reflexivity.
Qed.

Lemma length_hmac_sha256 (key data : list Z) :
  length (HMAC_DRBG.hmac_sha256 key data) = 32%nat.
Proof. unfold HMAC_DRBG.hmac_sha256. apply length_sha256. Qed.

Lemma bytes_hmac_sha256 (key data : list Z) :
  bytes (HMAC_DRBG.hmac_sha256 key data) = true.
Proof. unfold HMAC_DRBG.hmac_sha256. apply bytes_sha256. Qed.

(** C6. [HMAC_DRBG::update] sets K = HMAC(K, V || 0x00 || data) and
    V = HMAC(K, V) and, exactly when the data is not empty, goes on with
    K = HMAC(K, V || 0x01 || data) and V = HMAC(K, V); HMAC(key, data) is
    sha256(outerPad || sha256(innerPad || data)), the pads being the
    32-byte key padded with zeros to 64 bytes and XORed bytewise with
    0x5c and 0x36. *)
Theorem hmac_update_refines (g : HMAC_DRBG.t) (providedData : list Z)
    (HK : length (HMAC_DRBG.K g) = 32%nat) (HKb : bytes (HMAC_DRBG.K g) = true) :
  (forall key data, length key = 32%nat -> bytes key = true ->
     HMAC_DRBG.hmac_sha256 key data = Spec.hmac key data)
  /\ (HMAC_DRBG.K (HMAC_DRBG.update g providedData),
      HMAC_DRBG.V (HMAC_DRBG.update g providedData))
     = Spec.update (HMAC_DRBG.K g) (HMAC_DRBG.V g) providedData
  /\ HMAC_DRBG.reseed_counter (HMAC_DRBG.update g providedData)
     = HMAC_DRBG.reseed_counter g.
Proof.
  split; [exact hmac_sha256_refines|]. split; [|apply hmac_update_reseed_counter].
  unfold HMAC_DRBG.update, Spec.update. cbv zeta.
  assert (Hh : forall key data, length key = 32%nat -> bytes key = true ->
            Spec.hmac key data = HMAC_DRBG.hmac_sha256 key data).
  { intros key data H1 H2. symmetry. now apply hmac_sha256_refines. }
  generalize Spec.hmac Hh. clear Hh. intros hmac Hh.
  rewrite (Hh (HMAC_DRBG.K g)) by assumption.
  rewrite <- !app_assoc.
  generalize (HMAC_DRBG.hmac_sha256 (HMAC_DRBG.K g) (HMAC_DRBG.V g ++ [0] ++ providedData))
    (length_hmac_sha256 (HMAC_DRBG.K g) (HMAC_DRBG.V g ++ [0] ++ providedData))
    (bytes_hmac_sha256 (HMAC_DRBG.K g) (HMAC_DRBG.V g ++ [0] ++ providedData)).
  intros K1 HK1 HK1b. autorewrite with drbg.
  rewrite (Hh K1) by assumption.
  generalize (HMAC_DRBG.hmac_sha256 K1 (HMAC_DRBG.V g)). intros V1.
  destruct providedData as [|b rest].
  - reflexivity.
  - replace (negb (len (b :: rest) =? 0)) with true
      by (unfold len; cbn [length]; lia).
    autorewrite with drbg. rewrite (Hh K1) by assumption.
    rewrite (Hh _ _ (length_hmac_sha256 K1 _) (bytes_hmac_sha256 K1 _)).
    reflexivity.
Qed.

Lemma hmac_update_refines_witness :
  (HMAC_DRBG.K (HMAC_DRBG.update (HMAC_DRBG.new []) [1; 2; 3]),
   HMAC_DRBG.V (HMAC_DRBG.update (HMAC_DRBG.new []) [1; 2; 3]))
  = Spec.update (HMAC_DRBG.K (HMAC_DRBG.new [])) (HMAC_DRBG.V (HMAC_DRBG.new [])) [1; 2; 3].
Proof.
  apply (hmac_update_refines (HMAC_DRBG.new []) [1; 2; 3]); vm_compute; reflexivity.
Defined.

(** ** The block cipher *)

Lemma u8_lxor (a b : Z) : u8 (Z.lxor a b) = Z.lxor (u8 a) (u8 b).
Proof.
  unfold u8. rewrite <- !Z.land_ones by lia.
  apply Z.bits_inj'. intros n Hn.
  rewrite Z.land_spec, !Z.lxor_spec, !Z.land_spec.
  now destruct (Z.testbit a n), (Z.testbit b n), (Z.testbit (Z.ones 8) n).
Qed.

(** One byte of the column mixing, as the source computes it and as the
    specification words it. *)
Lemma mix_byte_refines (s0 s1 s2 s3 b n : Z) :
  0 <= s0 < 256 -> 0 <= s1 < 256 -> 0 <= s2 < 256 -> 0 <= s3 < 256 ->
  0 <= b < 256 ->
  u8 (Z.lxor b (Z.lxor (u8 (Z.lxor (Z.lxor (Z.lxor s0 s1) s2) s3))
                       (Z.shiftl (Z.lxor b n) 1)))
  = Spec.mix_byte (Z.lxor (Z.lxor (Z.lxor s0 s1) s2) s3) b n.
Proof.
  intros H0 H1 H2 H3 Hb. unfold Spec.mix_byte.
  assert (Ht : 0 <= Z.lxor (Z.lxor (Z.lxor s0 s1) s2) s3 < 256)
    by auto using lxor_byte.
  rewrite (u8_small _ Ht).
  set (t := Z.lxor (Z.lxor (Z.lxor s0 s1) s2) s3) in *.
  rewrite (u8_lxor b), (u8_lxor t), (u8_small _ Ht), (u8_small _ Hb).
  unfold u8. now rewrite Z.lxor_assoc.
Qed.

Lemma bytes_cons (x : Z) (v : list Z) :
  bytes (x :: v) = true <-> 0 <= x < 256 /\ bytes v = true.
Proof.
  unfold bytes. cbn [forallb]. rewrite andb_true_iff, is_byte_iff. reflexivity.
Qed.

Lemma mix_columns_refines (state : list Z) :
  length state = 16%nat -> bytes state = true ->
  for_step 0 CTR_DRBG.BLOCK_SIZE 4 CTR_DRBG.mix_column state = Spec.mix_columns state.
Proof.
  intros Hl Hb.
  do 17 (destruct state as [|? state]; try discriminate Hl).
  repeat (apply bytes_cons in Hb; destruct Hb as [? Hb]).
  cbv -[Z.lxor Z.shiftl u8 Z.modulo Spec.mix_byte].
  repeat (apply (f_equal2 cons); [apply mix_byte_refines; assumption|]).
  reflexivity.
Qed.

Lemma vget_imap (f : nat -> Z -> Z) (v : list Z) (j : Z) :
  0 <= j < len v -> vget (imap f v) j = f (Z.to_nat j) (vget v j).
Proof.
  unfold vget, len. intros Hj. rewrite !nth_lookup, list_lookup_imap.
  destruct (v !! Z.to_nat j) eqn:E; [reflexivity|].
  apply lookup_ge_None in E. lia.
Qed.

(** [for (i = 0; i < n; ++i) s[i] = g(i, s[i])] over a vector of [n]
    entries maps [g] over the vector. *)
Lemma for_range_stores (g : Z -> Z -> Z) (n : Z) (s : list Z) :
  len s = n ->
  for_range 0 n (fun i s => vset s i (g i (vget s i))) s
  = imap (fun k x => g (Z.of_nat k) x) s.
Proof.
  intros Hn.
  assert (Hbody : forall i (t : list Z),
            vset t i (g i (vget t i)) = vset t (i - 0) (g i (vget t (i - 0))))
    by (intros i t; now rewrite Z.sub_0_r).
  pose proof (len_nonneg s) as H0.
  apply vget_ext.
  - unfold for_range. now rewrite (length_for_loop_pointwise g 0 _ Hbody), length_imap.
  - intros j Hj. unfold for_range, len in Hj.
    rewrite (length_for_loop_pointwise g 0 _ Hbody) in Hj. fold (len s) in Hj.
    rewrite (vget_for_range_pointwise g 0 _ Hbody) by lia.
    replace (j <? n - 0) with true by lia.
    rewrite vget_imap, Z2Nat.id by lia. reflexivity.
Qed.

Lemma len_16 (state : list Z) : length state = 16%nat -> len state = CTR_DRBG.BLOCK_SIZE.
Proof. intros H. unfold len. now rewrite H. Qed.

Lemma add_round_key_refines (key : list Z) (r : Z) (state : list Z) :
  length state = 16%nat -> bytes state = true -> bytes key = true ->
  for_range 0 CTR_DRBG.BLOCK_SIZE (fun i state =>
    vset state i
      (u8 (Z.lxor (vget state i)
             (vget key ((r * CTR_DRBG.BLOCK_SIZE + i) mod CTR_DRBG.KEY_SIZE))))) state
  = Spec.add_round_key key r state.
Proof.
  intros Hl Hb Hk. etransitivity.
  - apply (for_range_stores (fun i x => u8 (Z.lxor x
        (vget key ((r * CTR_DRBG.BLOCK_SIZE + i) mod CTR_DRBG.KEY_SIZE))))).
    now apply len_16.
  - apply imap_ext. intros k x Hx. cbv beta.
    apply u8_small, lxor_byte; [|now apply vget_byte].
    rewrite bytes_iff in Hb. apply Hb, list_elem_of_In, list_elem_of_lookup. eauto.
Qed.

(** The table of the source is the AES S-box. *)
Lemma SBOX_aes_sbox : CTR_DRBG.SBOX = Spec.aes_sbox.
Proof. vm_compute. reflexivity. Qed.

Lemma sub_bytes_refines (state : list Z) :
  length state = 16%nat ->
  for_range 0 CTR_DRBG.BLOCK_SIZE (fun i state =>
    vset state i (vget CTR_DRBG.SBOX (vget state i))) state
  = Spec.sub_bytes state.
Proof.
  intros Hl. etransitivity.
  - apply (for_range_stores (fun _ x => vget CTR_DRBG.SBOX x)). now apply len_16.
  - unfold Spec.sub_bytes. rewrite <- SBOX_aes_sbox.
    apply (imap_const (fun x => vget CTR_DRBG.SBOX x)).
Qed.

Lemma permute_refines (temp : list Z) :
  length temp = 16%nat ->
  for_range 0 CTR_DRBG.BLOCK_SIZE (fun i state =>
    vset state i (vget temp ((i + i / 4) mod CTR_DRBG.BLOCK_SIZE))) temp
  = Spec.permute temp.
Proof.
  intros Hl. etransitivity.
  - apply (for_range_stores
             (fun i _ => vget temp ((i + i / 4) mod CTR_DRBG.BLOCK_SIZE))).
    now apply len_16.
  - unfold Spec.permute. rewrite <- Hl.
    apply (imap_seq_0 temp
             (fun k => vget temp ((Z.of_nat k + Z.of_nat k / 4) mod 16))).
Qed.

Lemma bytes_map {A : Type} (g : A -> Z) (v : list A) :
  (forall x, 0 <= g x < 256) -> bytes (map g v) = true.
Proof.
  intros H. apply bytes_iff. intros y Hy.
  apply in_map_iff in Hy as (x & <- & _). apply H.
Qed.

Lemma bytes_SBOX : bytes CTR_DRBG.SBOX = true.
Proof. reflexivity. Qed.

Lemma bytes_add_round_key (key : list Z) (r : Z) (state : list Z) :
  bytes state = true -> bytes key = true -> bytes (Spec.add_round_key key r state) = true.
Proof.
  intros Hs Hk. apply bytes_iff. intros y Hy.
  apply list_elem_of_In, elem_of_lookup_imap in Hy as (i & x & -> & Hx).
  apply lxor_byte; [|now apply vget_byte].
  rewrite bytes_iff in Hs. apply Hs, list_elem_of_In, list_elem_of_lookup. eauto.
Qed.

(** One round of the source is one round of the specification. *)
Lemma encrypt_round_refines (key : list Z) (r : nat) (state : list Z) :
  length state = 16%nat -> bytes state = true -> bytes key = true ->
  CTR_DRBG.encrypt_round key (Z.of_nat r) state = Spec.round key r state.
Proof.
  intros Hl Hb Hk. unfold CTR_DRBG.encrypt_round, Spec.round. cbv zeta.
  rewrite add_round_key_refines by assumption.
  assert (H1 : length (Spec.add_round_key key (Z.of_nat r) state) = 16%nat)
    by (unfold Spec.add_round_key; now rewrite length_imap).
  rewrite sub_bytes_refines by assumption.
  assert (H2 : length (Spec.sub_bytes (Spec.add_round_key key (Z.of_nat r) state)) = 16%nat)
    by (unfold Spec.sub_bytes; now rewrite length_map).
  rewrite permute_refines by assumption.
  replace (Z.of_nat r <? 9) with (r <=? 8)%nat by lia.
  destruct (r <=? 8)%nat; [|reflexivity].
  apply mix_columns_refines.
  - unfold Spec.permute. now rewrite length_map, length_seq.
  - unfold Spec.permute. apply bytes_map. intros i. apply vget_byte.
    unfold Spec.sub_bytes. rewrite <- SBOX_aes_sbox.
    apply bytes_map. intros x. apply vget_byte, bytes_SBOX.
Qed.

(** A round keeps the block 16 bytes wide, each in 0..255. *)
Lemma encrypt_round_block (key : list Z) (r : Z) (state : list Z) :
  bytes state = true ->
  length (CTR_DRBG.encrypt_round key r state) = length state
  /\ bytes (CTR_DRBG.encrypt_round key r state) = true.
Proof.
  intros Hb. unfold CTR_DRBG.encrypt_round. cbv zeta.
  set (P := fun s : list Z => length s = length state /\ bytes s = true).
  assert (H1 : P (for_range 0 CTR_DRBG.BLOCK_SIZE (fun i s =>
    vset s i (u8 (Z.lxor (vget s i)
      (vget key ((r * CTR_DRBG.BLOCK_SIZE + i) mod CTR_DRBG.KEY_SIZE))))) state)).
  { unfold for_range. apply (for_loop_inv P); [|now split]. intros i s [Hs1 Hs2]. split.
    - now rewrite length_vset.
    - apply bytes_vset; [assumption|apply u8_range]. }
  revert H1. generalize (for_range 0 CTR_DRBG.BLOCK_SIZE (fun i s =>
    vset s i (u8 (Z.lxor (vget s i)
      (vget key ((r * CTR_DRBG.BLOCK_SIZE + i) mod CTR_DRBG.KEY_SIZE))))) state).
  intros s1 H1.
  assert (H2 : P (for_range 0 CTR_DRBG.BLOCK_SIZE (fun i s =>
    vset s i (vget CTR_DRBG.SBOX (vget s i))) s1)).
  { unfold for_range. apply (for_loop_inv P); [|exact H1]. intros i s [Hs1 Hs2]. split.
    - now rewrite length_vset.
    - apply bytes_vset; [assumption|apply vget_byte, bytes_SBOX]. }
  revert H2. generalize (for_range 0 CTR_DRBG.BLOCK_SIZE (fun i s =>
    vset s i (vget CTR_DRBG.SBOX (vget s i))) s1).
  intros s2 H2.
  assert (H3 : P (for_range 0 CTR_DRBG.BLOCK_SIZE (fun i s =>
    vset s i (vget s2 ((i + i / 4) mod CTR_DRBG.BLOCK_SIZE))) s2)).
  { unfold for_range. apply (for_loop_inv P); [|exact H2]. intros i s [Hs1 Hs2]. split.
    - now rewrite length_vset.
    - apply bytes_vset; [assumption|apply vget_byte, H2]. }
  destruct (r <? 9); [|exact H3].
  unfold for_step. apply (for_loop_inv P); [|exact H3]. intros i s [Hs1 Hs2].
  unfold CTR_DRBG.mix_column. cbv zeta. split.
  - now rewrite !length_vset.
  - repeat apply bytes_vset; auto using u8_range.
Qed.

Lemma encrypt_rounds_refine (key : list Z) :
  bytes key = true ->
  forall (n k : nat) (state : list Z),
    length state = 16%nat -> bytes state = true ->
    for_loop n (Z.of_nat k) 1 (CTR_DRBG.encrypt_round key) state
    = fold_left (fun s r => Spec.round key r s) (seq k n) state.
Proof.
  intros Hk n. induction n as [|n IH]; intros k state Hl Hb; [reflexivity|].
  cbn [for_loop seq fold_left].
  destruct (encrypt_round_block key (Z.of_nat k) state Hb) as [Hl' Hb'].
  rewrite <- (encrypt_round_refines key k state Hl Hb Hk).
  replace (Z.of_nat k + 1) with (Z.of_nat (S k)) by lia.
  apply IH; [now rewrite Hl'|exact Hb'].
Qed.

Lemma length_encrypt_round (key : list Z) (r : Z) (state : list Z) :
  length (CTR_DRBG.encrypt_round key r state) = length state.
Proof.
  unfold CTR_DRBG.encrypt_round. cbv zeta.
  assert (H : forall (body : Z -> list Z -> list Z) n i step s,
            (forall j t, length (body j t) = length t) ->
            length (for_loop n i step body s) = length s).
  { intros body n i step s Hb.
    apply (for_loop_inv (fun t => length t = length s)); [|reflexivity].
    intros j t Ht. now rewrite Hb. }
  destruct (r <? 9); unfold for_step, for_range;
    rewrite ?H; try reflexivity; intros j t;
    unfold CTR_DRBG.mix_column; cbv zeta; now rewrite ?length_vset.
Qed.

Lemma length_encrypt_block (g : CTR_DRBG.t) (block : list Z) :
  length (CTR_DRBG.encrypt_block g block) = length block.
Proof.
  unfold CTR_DRBG.encrypt_block, for_range. cbv zeta.
  apply (for_loop_inv (fun t => length t = length block)); [|reflexivity].
  intros j t Ht. now rewrite length_encrypt_round.
Qed.

(** C4. [encrypt_block] runs exactly ten rounds on the 16-byte block;
    round r XORs byte i with key byte (16 r + i) mod 32, substitutes every
    byte through the S-box, permutes by new[i] = old[(i + i/4) mod 16] and,
    in rounds 0..8 only, mixes each 4-byte column: with t the XOR of the
    four bytes, a byte b with cyclic successor n becomes
    b ^ t ^ (((b ^ n) << 1) mod 256), all from the column's bytes before
    the mixing. *)
Theorem encrypt_block_refines (g : CTR_DRBG.t) (block : list Z)
    (Hkey : bytes (CTR_DRBG.key g) = true)
    (Hlen : length block = 16%nat) (Hblock : bytes block = true) :
  CTR_DRBG.encrypt_block g block = Spec.encrypt_block (CTR_DRBG.key g) block
  /\ length (CTR_DRBG.encrypt_block g block) = 16%nat
  /\ CTR_DRBG.SBOX = Spec.aes_sbox /\ length CTR_DRBG.SBOX = 256%nat.
Proof.
  split; [|split; [|split; [exact SBOX_aes_sbox|reflexivity]]].
  - unfold CTR_DRBG.encrypt_block, Spec.encrypt_block, for_range. cbv zeta.
    change (Z.to_nat (10 - 0)) with 10%nat.
    now apply (encrypt_rounds_refine (CTR_DRBG.key g) Hkey 10 0).
  - now rewrite length_encrypt_block.
Qed.

Lemma encrypt_block_refines_witness :
  let g := CTR_DRBG.new [1; 2; 3] in
  CTR_DRBG.encrypt_block g (CTR_DRBG.counter g)
  = Spec.encrypt_block (CTR_DRBG.key g) (CTR_DRBG.counter g).
Proof.
  intros g.
  assert (Hkey : bytes (CTR_DRBG.key g) = true) by (vm_compute; reflexivity).
  assert (Hlen : length (CTR_DRBG.counter g) = 16%nat) by (vm_compute; reflexivity).
  assert (Hblock : bytes (CTR_DRBG.counter g) = true) by (vm_compute; reflexivity).
  exact (proj1 (encrypt_block_refines g (CTR_DRBG.counter g) Hkey Hlen Hblock)).
Defined.

(** ** Big-endian byte strings as integers *)

Lemma be_value_snoc (v : list Z) (x : Z) : be_value (v ++ [x]) = be_value v * 256 + x.
Proof. unfold be_value. now rewrite fold_left_app. Qed.

Lemma be_value_app (v w : list Z) :
  be_value (v ++ w) = be_value v * 256 ^ len w + be_value w.
Proof.
  induction w as [|x w IH] using rev_ind.
  - rewrite app_nil_r. change (len []) with 0. change (be_value []) with 0. lia.
  - rewrite app_assoc, !be_value_snoc, IH, len_app.
    change (len [x]) with 1. rewrite Z.pow_add_r by (pose proof (len_nonneg w); lia).
    lia.
Qed.

Lemma be_value_cons (x : Z) (w : list Z) :
  be_value (x :: w) = x * 256 ^ len w + be_value w.
Proof. change (x :: w) with ([x] ++ w). rewrite be_value_app. f_equal. Qed.

Lemma be_value_bound (v : list Z) :
  bytes v = true -> 0 <= be_value v < 256 ^ len v.
Proof.
  induction v as [|x v IH] using rev_ind; intros Hb.
  - change (be_value []) with 0. change (len []) with 0. lia.
  - rewrite bytes_app, andb_true_iff in Hb. destruct Hb as [Hv Hx].
    apply bytes_cons in Hx as [Hx _]. specialize (IH Hv).
    rewrite be_value_snoc, len_app. change (len [x]) with 1.
    rewrite Z.pow_add_r by (pose proof (len_nonneg v); lia). lia.
Qed.

Lemma length_be_encode (n : nat) (x : Z) : length (be_encode n x) = n.
Proof.
  revert x. induction n as [|n IH]; intros x; [reflexivity|].
  cbn [be_encode]. rewrite length_app, IH. cbn [length]. lia.
Qed.

Lemma bytes_be_encode (n : nat) (x : Z) : bytes (be_encode n x) = true.
Proof.
  revert x. induction n as [|n IH]; intros x; [reflexivity|].
  cbn [be_encode]. rewrite bytes_app, IH. apply bytes_cons. split; [|reflexivity].
  apply Z.mod_pos_bound. reflexivity.
Qed.

Lemma be_value_be_encode (n : nat) (x : Z) :
  be_value (be_encode n x) = x mod 256 ^ Z.of_nat n.
Proof.
  revert x. induction n as [|n IH]; intros x.
  - change (be_value (be_encode 0 x)) with 0. now rewrite Z.mod_1_r.
  - cbn [be_encode]. rewrite be_value_snoc, IH, Nat2Z.inj_succ, Z.pow_succ_r by lia.
    rewrite Z.rem_mul_r by lia. lia.
Qed.

Lemma be_encode_be_value (v : list Z) :
  bytes v = true -> be_encode (length v) (be_value v) = v.
Proof.
  induction v as [|x v IH] using rev_ind; intros Hb; [reflexivity|].
  rewrite bytes_app, andb_true_iff in Hb. destruct Hb as [Hv Hx].
  apply bytes_cons in Hx as [Hx _].
  rewrite length_app, Nat.add_comm. cbn [length Nat.add be_encode].
  rewrite be_value_snoc.
  replace ((be_value v * 256 + x) / 256) with (be_value v)
    by (apply Z.div_unique with x; lia).
  replace ((be_value v * 256 + x) mod 256) with x
    by (apply Z.mod_unique with (be_value v); lia).
  now rewrite IH.
Qed.

(** ** The carry loop of [add_to_V] *)

Lemma vget_middle (hi lo : list Z) (x : Z) : vget (hi ++ x :: lo) (len hi) = x.
Proof. unfold vget, len. rewrite Nat2Z.id. apply nth_middle. Qed.

Lemma vset_middle (hi lo : list Z) (x y : Z) :
  vset (hi ++ x :: lo) (len hi) y = hi ++ y :: lo.
Proof.
  unfold vset, len. rewrite Nat2Z.id.
  replace (length hi) with (length hi + 0)%nat at 1 by lia.
  now rewrite insert_app_r.
Qed.

(** What is still to be added once the low [i] bytes are done: the bytes
    of [value] to the left of its low [i] bytes. *)
Lemma be_value_take_succ (value : list Z) (k : nat) :
  (k < length value)%nat ->
  be_value (take (S k) value) = be_value (take k value) * 256 + vget value (Z.of_nat k).
Proof.
  intros Hk. destruct (lookup_lt_is_Some_2 value k Hk) as [x Hx].
  rewrite (take_S_r _ _ _ Hx), be_value_snoc. f_equal.
  unfold vget. now rewrite Nat2Z.id, nth_lookup, Hx.
Qed.

Section AddLoop.

Variable value : list Z.
Variable n : nat.
Hypothesis value_bytes : bytes value = true.
Hypothesis value_short : (length value <= n)%nat.
Hypothesis n_small : Z.of_nat n < 2 ^ 64.

(** The state [(hi ++ lo, carry)] of the loop after [length lo] iterations:
    [lo] holds the low bytes of the sum, [hi] the bytes of V not reached
    yet. Running the remaining iterations adds, in value, the carry and the
    bytes of [value] not consumed yet. *)
Lemma add_to_V_loop (hi : list Z) :
  forall (lo : list Z) (carry : Z),
    (length hi + length lo = n)%nat ->
    bytes hi = true -> bytes lo = true -> 0 <= carry <= 1 ->
    let st := for_loop (length hi) (len lo) 1
                (Hash_DRBG.add_to_V_step value (Z.min (Z.of_nat n) (len value)))
                (hi ++ lo, carry) in
    length (fst st) = n /\ bytes (fst st) = true /\ 0 <= snd st <= 1
    /\ be_value (fst st) + snd st * 256 ^ Z.of_nat n
       = be_value (hi ++ lo)
         + (carry + be_value (take (length value - length lo) value)) * 256 ^ len lo.
Proof.
  induction hi as [|v hi IH] using rev_ind; intros lo carry Hn Hhi Hlo Hc st.
  - subst st. cbn [length for_loop fst snd app]. cbn [length Nat.add] in Hn.
    replace (length value - length lo)%nat with 0%nat by lia.
    change (be_value (take 0 value)) with 0. unfold len. rewrite Hn.
    repeat split; try assumption; lia.
  - rewrite length_app in Hn. cbn [length] in Hn.
    rewrite bytes_app, andb_true_iff in Hhi. destruct Hhi as [Hhi Hv].
    apply bytes_cons in Hv as [Hv _].
    subst st. rewrite length_app, Nat.add_comm. cbn [length Nat.add for_loop].
    rewrite <- app_assoc. cbn [app].
    pose proof (len_nonneg lo) as Hlo0. pose proof (len_nonneg hi) as Hhi0.
    assert (Hlen : len (hi ++ v :: lo) = Z.of_nat n)
      by (unfold len; rewrite length_app; cbn [length]; lia).
    (* the byte of [value] added by this iteration *)
    set (d := if len lo <? Z.min (Z.of_nat n) (len value)
              then vget value (size_t (len value - 1 - len lo)) else 0).
    assert (Hd : 0 <= d < 256).
    { unfold d. destruct (_ <? _); [now apply vget_byte|lia]. }
    assert (Hstep : Hash_DRBG.add_to_V_step value (Z.min (Z.of_nat n) (len value))
                      (len lo) (hi ++ v :: lo, carry)
                    = (hi ++ ((v + carry + d) mod 256) :: lo, (v + carry + d) / 256)).
    { unfold Hash_DRBG.add_to_V_step. rewrite Hlen.
      replace (size_t (Z.of_nat n - 1 - len lo)) with (len hi)
        by (unfold size_t, len in *; rewrite Z.mod_small; lia).
      rewrite vget_middle, vset_middle.
      assert (Hs1 : u16 (v + carry) = v + carry)
        by (unfold u16; apply Z.mod_small; change (2 ^ 16) with 65536; lia).
      rewrite Hs1.
      assert (Hsum : (if len lo <? Z.min (Z.of_nat n) (len value)
                      then u16 (v + carry + vget value (size_t (len value - 1 - len lo)))
                      else v + carry) = v + carry + d).
      { unfold d. destruct (_ <? _); [|lia].
        unfold u16. apply Z.mod_small.
        pose proof (vget_byte value (size_t (len value - 1 - len lo)) value_bytes).
        change (2 ^ 16) with 65536. lia. }
      rewrite Hsum. f_equal.
      - f_equal. f_equal. change 255 with (Z.ones 8).
        rewrite Z.land_ones by lia. change (2 ^ 8) with 256.
        apply u8_small, Z.mod_pos_bound. lia.
      - rewrite Z.shiftr_div_pow2 by lia. reflexivity. }
    rewrite Hstep.
    replace (len lo + 1) with (len (((v + carry + d) mod 256) :: lo))
      by (unfold len; cbn [length]; lia).
    specialize (IH (((v + carry + d) mod 256) :: lo) ((v + carry + d) / 256)).
    cbv zeta in IH.
    destruct IH as (I1 & I2 & I3 & I4).
    + cbn [length]. lia.
    + exact Hhi.
    + apply bytes_cons. split; [apply Z.mod_pos_bound; lia|exact Hlo].
    + split; [apply Z.div_pos; lia|].
      apply Z.lt_succ_r, Z.div_lt_upper_bound; lia.
    + split; [exact I1|]. split; [exact I2|]. split; [exact I3|].
      rewrite I4. cbn [length].
      rewrite !be_value_app, !be_value_cons.
      replace (len (((v + carry + d) mod 256) :: lo)) with (len lo + 1)
        by (unfold len; cbn [length]; lia).
      replace (len (v :: lo)) with (len lo + 1) by (unfold len; cbn [length]; lia).
      rewrite Z.pow_add_r by lia. change (256 ^ 1) with 256.
      (* the bytes of [value] still to come, before and after this iteration *)
      assert (Hrest : be_value (take (length value - length lo) value)
                      = be_value (take (length value - S (length lo)) value) * 256 + d).
      { unfold d. destruct (len lo <? Z.min (Z.of_nat n) (len value)) eqn:E.
        - unfold len in E.
          replace (length value - length lo)%nat
            with (S (length value - S (length lo))) by lia.
          rewrite be_value_take_succ by lia. f_equal. f_equal.
          unfold size_t, len. rewrite Z.mod_small by lia. lia.
        - unfold len in E.
          replace (length value - length lo)%nat with 0%nat by lia.
          replace (length value - S (length lo))%nat with 0%nat by lia.
          reflexivity. }
      rewrite Hrest.
      pose proof (Z.div_mod (v + carry + d) 256 ltac:(lia)) as Hdm.
      set (q := (v + carry + d) / 256) in *. set (r := (v + carry + d) mod 256) in *.
      set (p := 256 ^ len lo). set (bh := be_value hi). set (bl := be_value lo).
      set (bt := be_value (take (length value - S (length lo)) value)).
      nia.
Qed.

End AddLoop.

(** ** [add_to_V] is addition modulo 2^(8 * V.size()) *)

Lemma hash_add_to_V_value (g : Hash_DRBG.t) (value : list Z) :
  bytes (Hash_DRBG.V g) = true -> bytes value = true ->
  (length value <= length (Hash_DRBG.V g))%nat ->
  len (Hash_DRBG.V g) < 2 ^ 64 ->
  Hash_DRBG.add_to_V g value
  = Hash_DRBG.set_V g
      (be_encode (length (Hash_DRBG.V g))
         ((be_value (Hash_DRBG.V g) + be_value value) mod 256 ^ len (Hash_DRBG.V g))).
Proof.
  intros HV Hval Hshort Hsmall. unfold Hash_DRBG.add_to_V. cbv zeta. f_equal.
  pose proof (add_to_V_loop value (length (Hash_DRBG.V g)) Hval Hshort Hsmall
                (Hash_DRBG.V g) [] 0) as H.
  cbv zeta in H. rewrite app_nil_r in H. change (len []) with 0 in H.
  unfold for_range. rewrite Z.sub_0_r. unfold len at 1. rewrite Nat2Z.id.
  fold (len (Hash_DRBG.V g)) in H.
  destruct H as (H1 & H2 & H3 & H4); [cbn [length]; lia|assumption|reflexivity|lia|].
  revert H1 H2 H3 H4.
  generalize (for_loop (length (Hash_DRBG.V g)) 0 1
    (Hash_DRBG.add_to_V_step value (Z.min (len (Hash_DRBG.V g)) (len value)))
    (Hash_DRBG.V g, 0)).
  intros [V' c] H1 H2 H3 H4. cbn [fst snd] in *.
  rewrite Nat.sub_0_r, firstn_all, Z.pow_0_r, Z.mul_1_r, Z.add_0_l in H4.
  rewrite <- (be_encode_be_value V' H2), H1. f_equal.
  apply Z.mod_unique with c.
  - left. pose proof (be_value_bound V' H2) as Hb. unfold len in Hb at 1.
    rewrite H1 in Hb. exact Hb.
  - unfold len in *. lia.
Qed.

(** The eight bytes [generate] builds from the reseed counter are its
    big-endian encoding. *)
Lemma rc_bytes_be_encode (rc : Z) : Hash_DRBG.rc_bytes rc = be_encode 8 rc.
Proof.
  assert (H : forall k, 0 <= k ->
            u8 (Z.land (Z.shiftr rc k) 255) = (rc / 2 ^ k) mod 256).
  { intros k Hk. change 255 with (Z.ones 8).
    rewrite Z.land_ones, Z.shiftr_div_pow2 by lia.
    unfold u8. now rewrite Z.mod_mod by lia. }
  cbv -[Z.land Z.shiftr u8 Z.div Z.modulo].
  rewrite !H by lia. rewrite !Z.div_div by lia.
  repeat (apply (f_equal2 cons); [reflexivity|]).
  apply (f_equal2 cons); [|reflexivity].
  now rewrite Z.div_1_r.
Qed.

(** C5. For the 55-byte state V and every value of at most 55 bytes,
    [add_to_V] leaves in V the big-endian encoding of (V + value) mod 2^440:
    the bytes are added from the right with carry, the shorter operand
    counts as extended with zeros on the left, and the carry out of the
    leftmost byte is dropped; C and the reseed counter are untouched. The
    eight bytes added for the reseed counter are its big-endian encoding. *)
Theorem add_to_V_correct (g : Hash_DRBG.t) (value : list Z)
    (HV : length (Hash_DRBG.V g) = 55%nat) (HVb : bytes (Hash_DRBG.V g) = true)
    (Hvalue : bytes value = true) (Hshort : (length value <= 55)%nat) :
  Hash_DRBG.V (Hash_DRBG.add_to_V g value)
  = be_encode 55 ((be_value (Hash_DRBG.V g) + be_value value) mod 2 ^ 440)
  /\ be_value (Hash_DRBG.V (Hash_DRBG.add_to_V g value))
     = (be_value (Hash_DRBG.V g) + be_value value) mod 2 ^ 440
  /\ length (Hash_DRBG.V (Hash_DRBG.add_to_V g value)) = 55%nat
  /\ Hash_DRBG.C (Hash_DRBG.add_to_V g value) = Hash_DRBG.C g
  /\ Hash_DRBG.reseed_counter (Hash_DRBG.add_to_V g value) = Hash_DRBG.reseed_counter g
  /\ (forall rc, 0 <= rc < 2 ^ 64 ->
        Hash_DRBG.rc_bytes rc = be_encode 8 rc
        /\ be_value (Hash_DRBG.rc_bytes rc) = rc).
Proof.
  assert (Hlen : len (Hash_DRBG.V g) = 55) by (unfold len; rewrite HV; reflexivity).
  rewrite hash_add_to_V_value by (rewrite ?HV, ?Hlen; try assumption; reflexivity).
  autorewrite with drbg. rewrite HV, Hlen. change (256 ^ 55) with (2 ^ 440).
  split; [reflexivity|]. split.
  { rewrite be_value_be_encode. change (256 ^ Z.of_nat 55) with (2 ^ 440).
    apply Z.mod_mod. discriminate. }
  split; [apply length_be_encode|]. split; [reflexivity|]. split; [reflexivity|].
  intros rc Hrc. rewrite rc_bytes_be_encode. split; [reflexivity|].
  rewrite be_value_be_encode. change (256 ^ Z.of_nat 8) with (2 ^ 64).
  now apply Z.mod_small.
Qed.

Lemma add_to_V_correct_witness :
  let g := Hash_DRBG.Make (replicate 54 255 ++ [254]) (replicate 55 0) 1 in
  Hash_DRBG.V (Hash_DRBG.add_to_V g [1; 3])
  = be_encode 55 ((be_value (Hash_DRBG.V g) + be_value [1; 3]) mod 2 ^ 440).
Proof.
  intros g.
  assert (Hshort : (length [1; 3] <= 55)%nat) by (cbn [length]; lia).
  exact (proj1 (add_to_V_correct g [1; 3] eq_refl eq_refl eq_refl Hshort)).
Defined.

(** The carry runs through all 55 bytes and out of the leftmost one:
    (2^440 - 2) + 0x0103 = 2^440 + 0x0101. *)
Example add_to_V_wraps :
  Hash_DRBG.V (Hash_DRBG.add_to_V
     (Hash_DRBG.Make (replicate 54 255 ++ [254]) (replicate 55 0) 1) [1; 3])
  = replicate 53 0 ++ [1; 1].
Proof. vm_compute. reflexivity. Qed.

(** ** The state transition that ends [generate] *)

Lemma u64_ok_iff (x : Z) : u64_ok x = true <-> 0 <= x < 2 ^ 64.
Proof. unfold u64_ok. lia. Qed.

Lemma u64_ok_u64 (x : Z) : u64_ok (u64 x) = true.
Proof. apply u64_ok_iff. unfold u64. apply Z.mod_pos_bound. reflexivity. Qed.

Lemma wf_ctr (g : CTR_DRBG.t) :
  wf (Ctr g) = true <->
  len (CTR_DRBG.key g) = 32 /\ len (CTR_DRBG.counter g) = 16
  /\ bytes (CTR_DRBG.key g) = true /\ bytes (CTR_DRBG.counter g) = true
  /\ u64_ok (CTR_DRBG.reseed_counter g) = true.
Proof.
  cbn [wf]. unfold CTR_DRBG.KEY_SIZE, CTR_DRBG.BLOCK_SIZE.
  rewrite !andb_true_iff, !Z.eqb_eq. tauto.
Qed.

Lemma wf_hash_iff (g : Hash_DRBG.t) :
  wf (Hash g) = true <->
  len (Hash_DRBG.V g) = 55 /\ len (Hash_DRBG.C g) = 55
  /\ bytes (Hash_DRBG.V g) = true /\ bytes (Hash_DRBG.C g) = true
  /\ u64_ok (Hash_DRBG.reseed_counter g) = true.
Proof.
  cbn [wf]. unfold Hash_DRBG.SEED_LENGTH.
  rewrite !andb_true_iff, !Z.eqb_eq. tauto.
Qed.

Lemma wf_hmac (g : HMAC_DRBG.t) :
  wf (Hmac g) = true <->
  len (HMAC_DRBG.K g) = 32 /\ len (HMAC_DRBG.V g) = 32
  /\ bytes (HMAC_DRBG.K g) = true /\ bytes (HMAC_DRBG.V g) = true
  /\ u64_ok (HMAC_DRBG.reseed_counter g) = true.
Proof.
  cbn [wf]. unfold HMAC_DRBG.HASH_OUTPUT.
  rewrite !andb_true_iff, !Z.eqb_eq. tauto.
Qed.

Lemma hash_set_V_set_V (g : Hash_DRBG.t) (a b : list Z) :
  Hash_DRBG.set_V (Hash_DRBG.set_V g a) b = Hash_DRBG.set_V g b.
Proof. reflexivity. Qed.

Lemma wf_hash (g : Hash_DRBG.t) :
  wf (Hash g) = true ->
  length (Hash_DRBG.V g) = 55%nat /\ length (Hash_DRBG.C g) = 55%nat
  /\ bytes (Hash_DRBG.V g) = true /\ bytes (Hash_DRBG.C g) = true
  /\ 0 <= Hash_DRBG.reseed_counter g < 2 ^ 64.
Proof.
  cbn [wf]. unfold u64_ok, Hash_DRBG.SEED_LENGTH, len.
  rewrite !andb_true_iff. intros ((((H1 & H2) & H3) & H4) & H5 & H6).
  repeat split; try assumption; lia.
Qed.

Lemma hash_add_to_V_55 (g : Hash_DRBG.t) (value : list Z) :
  length (Hash_DRBG.V g) = 55%nat -> bytes (Hash_DRBG.V g) = true ->
  bytes value = true -> (length value <= 55)%nat ->
  Hash_DRBG.add_to_V g value
  = Hash_DRBG.set_V g
      (be_encode 55 ((be_value (Hash_DRBG.V g) + be_value value) mod 2 ^ 440)).
Proof.
  intros HV HVb Hval Hshort.
  assert (Hlen : len (Hash_DRBG.V g) = 55) by (unfold len; rewrite HV; reflexivity).
  rewrite hash_add_to_V_value; rewrite ?HV, ?Hlen; try assumption; reflexivity.
Qed.

(** The three additions of [Hash_DRBG::generate] amount to one addition
    modulo 2^440. *)
Lemma hash_generate_state (g : Hash_DRBG.t) (n : Z) :
  wf (Hash g) = true ->
  fst (Hash_DRBG.generate g n)
  = Hash_DRBG.set_reseed_counter
      (Hash_DRBG.set_V g
         (Spec.hash_next_V (Hash_DRBG.V g) (Hash_DRBG.C g) (Hash_DRBG.reseed_counter g)))
      (u64 (Hash_DRBG.reseed_counter g + 1)).
Proof.
  intros Hwf. destruct (wf_hash g Hwf) as (HV & HC & HVb & HCb & Hrc).
  unfold Hash_DRBG.generate. cbv zeta. cbn [fst].
  (* V + H *)
  rewrite (hash_add_to_V_55 g (sha256 ([3] ++ Hash_DRBG.V g)) HV HVb
             (bytes_sha256 _)) by (rewrite length_sha256; lia).
  set (V1 := be_encode 55 _).
  (* + C *)
  autorewrite with drbg.
  rewrite (hash_add_to_V_55 (Hash_DRBG.set_V g V1) (Hash_DRBG.C g)
             (length_be_encode _ _) (bytes_be_encode _ _) HCb) by lia.
  rewrite hash_set_V_set_V. autorewrite with drbg.
  set (V2 := be_encode 55 _).
  (* + reseed_counter *)
  rewrite (hash_add_to_V_55 (Hash_DRBG.set_V g V2) (Hash_DRBG.rc_bytes _)
             (length_be_encode _ _) (bytes_be_encode _ _))
    by (rewrite rc_bytes_be_encode; auto using bytes_be_encode;
        rewrite length_be_encode; lia).
  rewrite hash_set_V_set_V. autorewrite with drbg.
  f_equal. f_equal. unfold Spec.hash_next_V. f_equal.
  subst V2 V1. rewrite rc_bytes_be_encode, !be_value_be_encode.
  change (256 ^ Z.of_nat 55) with (2 ^ 440). change (256 ^ Z.of_nat 8) with (2 ^ 64).
  rewrite (Z.mod_small _ _ Hrc).
  rewrite !Z.mod_mod by discriminate.
  rewrite Zplus_mod_idemp_l, <- Z.add_assoc, Zplus_mod_idemp_l, Z.add_assoc. reflexivity.
Qed.

Lemma generate_zero_output (d : DRBG) : snd (generate d 0) = [].
Proof.
  destruct d as [g|g|g]; cbn [generate]; cbv zeta; cbn [snd].
  - unfold CTR_DRBG.generate. cbv zeta. cbn [snd].
    change (size_t (0 + 7) / 8) with 0. reflexivity.
  - unfold Hash_DRBG.generate, Hash_DRBG.hashgen. cbv zeta. cbn [snd].
    change (size_t (0 + 7) / 8) with 0.
    change (size_t (0 + Hash_DRBG.HASH_OUTPUT * 8 - 1) / (Hash_DRBG.HASH_OUTPUT * 8)) with 0.
    reflexivity.
  - unfold HMAC_DRBG.generate. cbv zeta. cbn [snd].
    change (size_t (0 + 7) / 8) with 0. reflexivity.
Qed.

Lemma generate_zero_state (d : DRBG) (Hwf : wf d = true) :
  generate d 0 = (Spec.end_of_generate d, [])
  /\ after_output d 0 = d
  /\ forall n, fst (generate d n) = Spec.end_of_generate (after_output d n).
Proof.
  pose proof (generate_zero_output d) as Hout. revert Hout.
  destruct d as [g|g|g]; cbn [generate Spec.end_of_generate after_output]; cbv zeta;
    cbn [snd]; intros Hout.
  - assert (H : forall n, fst (CTR_DRBG.generate g n)
               = CTR_DRBG.set_reseed_counter
                   (CTR_DRBG.update (fst (while (Z.to_nat (size_t (n + 7) / 8))
                       (fun st => len (snd st) <? size_t (n + 7) / 8)
                       CTR_DRBG.next_block (g, []))) [])
                   (u64 (CTR_DRBG.reseed_counter (fst (while (Z.to_nat (size_t (n + 7) / 8))
                       (fun st => len (snd st) <? size_t (n + 7) / 8)
                       CTR_DRBG.next_block (g, []))) + 1))).
    { intros n. unfold CTR_DRBG.generate. cbv zeta. cbn [fst].
      now rewrite ctr_update_reseed_counter. }
    split; [|split; [reflexivity|intros n; now rewrite H]].
    apply (f_equal2 pair); [f_equal; apply (H 0)|exact Hout].
  - split; [|split; [reflexivity|intros n; now rewrite (hash_generate_state g n Hwf)]].
    apply (f_equal2 pair); [now rewrite (hash_generate_state g 0 Hwf)|exact Hout].
  - assert (H : forall n, fst (HMAC_DRBG.generate g n)
               = HMAC_DRBG.set_reseed_counter
                   (HMAC_DRBG.update (fst (while (Z.to_nat (size_t (n + 7) / 8))
                       (fun st => len (snd st) <? size_t (n + 7) / 8)
                       HMAC_DRBG.next_block (g, []))) [])
                   (u64 (HMAC_DRBG.reseed_counter (fst (while (Z.to_nat (size_t (n + 7) / 8))
                       (fun st => len (snd st) <? size_t (n + 7) / 8)
                       HMAC_DRBG.next_block (g, []))) + 1))).
    { intros n. unfold HMAC_DRBG.generate. cbv zeta. cbn [fst].
      now rewrite hmac_update_reseed_counter. }
    split; [|split; [reflexivity|intros n; now rewrite H]].
    apply (f_equal2 pair); [f_equal; apply (H 0)|exact Hout].
Qed.

(** C9. [generate(0)] returns the empty vector and still runs the closing
    state transition: CTR-DRBG and HMAC-DRBG run [update] on empty data,
    Hash-DRBG sets V to (V + hash(0x03 || V) + C + reseedCount) mod 2^440,
    and the reseed counter goes up by one (as a 64-bit unsigned integer).
    A request for any other number of bits ends with the same transition,
    applied to the state its output loop leaves. *)
Theorem generate_zero (d : DRBG) (Hwf : wf d = true) :
  generate d 0 = (Spec.end_of_generate d, [])
  /\ after_output d 0 = d
  /\ (forall n, fst (generate d n) = Spec.end_of_generate (after_output d n))
  /\ reseed_counter (fst (generate d 0)) = (reseed_counter d + 1) mod 2 ^ 64
  /\ (reseed_counter d + 1 < 2 ^ 64 ->
      reseed_counter (fst (generate d 0)) = reseed_counter d + 1).
Proof.
  destruct (generate_zero_state d Hwf) as (H1 & H2 & H3).
  split; [exact H1|]. split; [exact H2|]. split; [exact H3|].
  split; [apply reseed_counter_generate|].
  intros Hr. rewrite reseed_counter_generate. unfold u64. apply Z.mod_small.
  assert (Hrc : u64_ok (reseed_counter d) = true).
  { destruct d as [g|g|g]; cbn [reseed_counter];
      [apply wf_ctr in Hwf|apply wf_hash_iff in Hwf|apply wf_hmac in Hwf]; tauto. }
  apply u64_ok_iff in Hrc. lia.
Qed.

Lemma generate_zero_witness :
  let d := construct HASH [1; 2; 3] in
  generate d 0 = (Spec.end_of_generate d, []).
Proof.
  intros d.
  assert (Hwf : wf d = true) by (vm_compute; reflexivity).
  exact (proj1 (generate_zero d Hwf)).
Defined.

(** ** The bounded loops leave through their condition *)

(** A loop whose body decreases a measure that starts below the bound
    stops because its condition turns false, never because of the bound. *)
Lemma while_exit {St : Type} (I : St -> Prop) (m : St -> nat)
    (cond : St -> bool) (body : St -> St) :
  (forall s, I s -> cond s = true -> I (body s) /\ (m (body s) < m s)%nat) ->
  forall bound s, I s -> (m s <= bound)%nat ->
    cond (while bound cond body s) = false.
Proof.
  intros Hbody bound. induction bound as [|b IH]; intros s Hs Hm; cbn [while].
  - destruct (cond s) eqn:E; [|reflexivity].
    destruct (Hbody s Hs E) as [_ Hlt]. lia.
  - destruct (cond s) eqn:E; [|exact E].
    destruct (Hbody s Hs E) as [Hs' Hlt]. apply IH; [exact Hs'|lia].
Qed.

(** Beyond the measure the bound makes no difference. *)
Lemma while_bound_irrelevant {St : Type} (I : St -> Prop) (m : St -> nat)
    (cond : St -> bool) (body : St -> St) :
  (forall s, I s -> cond s = true -> I (body s) /\ (m (body s) < m s)%nat) ->
  forall b1 b2 s, I s -> (m s <= b1)%nat -> (m s <= b2)%nat ->
    while b1 cond body s = while b2 cond body s.
Proof.
  intros Hbody b1. induction b1 as [|b1 IH]; intros b2 s Hs H1 H2.
  - destruct b2 as [|b2]; [reflexivity|]. cbn [while].
    destruct (cond s) eqn:E; [|reflexivity].
    destruct (Hbody s Hs E) as [_ Hlt]. lia.
  - destruct b2 as [|b2]; cbn [while]; destruct (cond s) eqn:E; try reflexivity.
    + destruct (Hbody s Hs E) as [_ Hlt]. lia.
    + destruct (Hbody s Hs E) as [Hs' Hlt]. apply IH; [exact Hs'|lia|lia].
Qed.

(** Hence the function satisfies the equation of the unbounded loop. *)
Lemma while_unfold {St : Type} (I : St -> Prop) (m : St -> nat)
    (cond : St -> bool) (body : St -> St) :
  (forall s, I s -> cond s = true -> I (body s) /\ (m (body s) < m s)%nat) ->
  forall bound s, I s -> (m s <= bound)%nat ->
    while bound cond body s
    = if cond s then while bound cond body (body s) else s.
Proof.
  intros Hbody bound s Hs Hm.
  rewrite (while_bound_irrelevant I m cond body Hbody bound (S bound) s Hs Hm) by lia.
  cbn [while]. reflexivity.
Qed.

Lemma pad_measure (l : Z) :
  0 <= l -> l mod 64 <> 56 ->
  (Z.to_nat ((56 - (l + 1)) mod 64) < Z.to_nat ((56 - l) mod 64))%nat.
Proof.
  intros H0 H.
  assert (E : (56 - (l + 1)) mod 64 = (56 - l) mod 64 - 1)
    by (Z.div_mod_to_equations; lia).
  assert (0 < (56 - l) mod 64) by (Z.div_mod_to_equations; lia).
  rewrite E. lia.
Qed.

Lemma sha256_pad_zeros_exit (padded : list Z) :
  len (sha256_pad_zeros padded) mod 64 = 56.
Proof.
  unfold sha256_pad_zeros.
  pose proof (while_exit (fun _ => True) (fun p => Z.to_nat ((56 - len p) mod 64))
    (fun p => negb (len p mod 64 =? 56)) (fun p => p ++ [0])) as H.
  assert (Hbody : forall s : list Z, True -> negb (len s mod 64 =? 56) = true ->
            True /\ Nat.lt (Z.to_nat ((56 - len (s ++ [0])) mod 64))
                             (Z.to_nat ((56 - len s) mod 64))).
  { intros s _ Hc. split; [exact I|]. rewrite len_app. change (len [0]) with 1.
    apply pad_measure; [apply len_nonneg|].
    apply negb_true_iff, Z.eqb_neq in Hc. exact Hc. }
  specialize (H Hbody 64%nat padded I).
  assert (Hm : (Z.to_nat ((56 - len padded) mod 64) <= 64)%nat).
  { pose proof (Z.mod_pos_bound (56 - len padded) 64 ltac:(lia)). lia. }
  specialize (H Hm). apply negb_false_iff, Z.eqb_eq in H. exact H.
Qed.

(** The padded message is a whole number of 64-byte blocks. *)
Lemma sha256_padding_blocks (data : list Z) : len (sha256_padding data) mod 64 = 0.
Proof.
  unfold sha256_padding, for_down. cbv zeta.
  change (Z.to_nat (7 - 0 + 1)) with 8%nat. cbn [for_loop].
  rewrite !len_app. change (len [_]) with 1.
  pose proof (sha256_pad_zeros_exit (data ++ [128])) as H.
  revert H. generalize (len (sha256_pad_zeros (data ++ [128]))). intros l H.
  Z.div_mod_to_equations. lia.
Qed.

Lemma ctr_next_block_len (st : CTR_DRBG.t * list Z) :
  len (snd (CTR_DRBG.next_block st))
  = len (snd st) + len (CTR_DRBG.counter (fst st))
  /\ len (CTR_DRBG.counter (fst (CTR_DRBG.next_block st)))
     = len (CTR_DRBG.counter (fst st)).
Proof.
  unfold CTR_DRBG.next_block, CTR_DRBG.increment_counter. cbv zeta. cbn [fst snd].
  rewrite len_app. autorewrite with drbg. unfold len.
  now rewrite length_encrypt_block, length_incr_from.
Qed.

(** The block loops of CTR-DRBG ([update] and [generate]) on a generator
    whose counter is 16 bytes wide. *)
Lemma ctr_loop_exit (g : CTR_DRBG.t) (N : Z) (bound : nat) (acc : list Z) :
  len (CTR_DRBG.counter g) = 16 ->
  (Z.to_nat (N - len acc) <= bound)%nat ->
  N <= len (snd (while bound (fun st => len (snd st) <? N) CTR_DRBG.next_block (g, acc))).
Proof.
  intros Hc Hb.
  pose proof (while_exit (fun st => len (CTR_DRBG.counter (fst st)) = 16)
    (fun st => Z.to_nat (N - len (snd st)))
    (fun st => len (snd st) <? N) CTR_DRBG.next_block) as H.
  cbv beta in H.
  assert (Hbody : forall s : CTR_DRBG.t * list Z,
            len (CTR_DRBG.counter (fst s)) = 16 -> (len (snd s) <? N) = true ->
            len (CTR_DRBG.counter (fst (CTR_DRBG.next_block s))) = 16
            /\ Nat.lt (Z.to_nat (N - len (snd (CTR_DRBG.next_block s))))
                      (Z.to_nat (N - len (snd s)))).
  { intros s Hs Hcond. destruct (ctr_next_block_len s) as [E1 E2].
    rewrite E1, E2. split; [exact Hs|]. unfold Nat.lt. lia. }
  specialize (H Hbody bound (g, acc) Hc Hb). cbn [snd] in H. lia.
Qed.

Lemma hmac_next_block_len (st : HMAC_DRBG.t * list Z) :
  len (snd (HMAC_DRBG.next_block st)) = len (snd st) + 32.
Proof.
  unfold HMAC_DRBG.next_block. cbv zeta. cbn [fst snd].
  rewrite len_app. autorewrite with drbg. now rewrite len_hmac_sha256.
Qed.

Lemma hmac_loop_exit (g : HMAC_DRBG.t) (N : Z) (bound : nat) (acc : list Z) :
  (Z.to_nat (N - len acc) <= bound)%nat ->
  N <= len (snd (while bound (fun st => len (snd st) <? N) HMAC_DRBG.next_block (g, acc))).
Proof.
  intros Hb.
  pose proof (while_exit (fun _ => True)
    (fun st => Z.to_nat (N - len (snd st)))
    (fun st => len (snd st) <? N) HMAC_DRBG.next_block) as H.
  cbv beta in H.
  assert (Hbody : forall s : HMAC_DRBG.t * list Z,
            True -> (len (snd s) <? N) = true ->
            True /\ Nat.lt (Z.to_nat (N - len (snd (HMAC_DRBG.next_block s))))
                           (Z.to_nat (N - len (snd s)))).
  { intros s _ Hcond. rewrite hmac_next_block_len. split; [exact I|].
    unfold Nat.lt. lia. }
  specialize (H Hbody bound (g, acc) I Hb). cbn [snd] in H. lia.
Qed.

(** ** Every reachable state is well formed *)

Lemma bytes_incr_from (j1 : nat) (v : list Z) :
  bytes v = true -> bytes (incr_from j1 v) = true.
Proof.
  revert v. induction j1 as [|j IH]; intros v Hv; cbn [incr_from]; [exact Hv|].
  cbv zeta. destruct (negb _); [|apply IH]; apply bytes_vset; auto using u8_range.
Qed.

Lemma bytes_encrypt_block (g : CTR_DRBG.t) (block : list Z) :
  bytes block = true -> bytes (CTR_DRBG.encrypt_block g block) = true.
Proof.
  intros Hb. unfold CTR_DRBG.encrypt_block, for_range. cbv zeta.
  apply (for_loop_inv (fun t => bytes t = true)); [|exact Hb].
  intros j t Ht. now apply encrypt_round_block.
Qed.

Lemma bytes_xor_data (temp data : list Z) :
  bytes temp = true -> bytes (CTR_DRBG.xor_data temp data) = true.
Proof.
  intros Hb. unfold CTR_DRBG.xor_data, for_range.
  apply (for_loop_inv (fun t => bytes t = true)); [|exact Hb].
  intros j t Ht. apply bytes_vset; auto using u8_range.
Qed.

Lemma bytes_copy_range (src : list Z) (lo hi : Z) (dst : list Z) :
  bytes src = true -> bytes dst = true -> bytes (copy_range src lo hi dst) = true.
Proof.
  intros Hs Hd. unfold copy_range, for_range.
  apply (for_loop_inv (fun t => bytes t = true)); [|exact Hd].
  intros j t Ht. apply bytes_vset; auto using vget_byte.
Qed.

Lemma ctr_while_bytes (g : CTR_DRBG.t) (bound : nat) (cond : CTR_DRBG.t * list Z -> bool)
    (acc : list Z) :
  bytes (CTR_DRBG.counter g) = true -> bytes acc = true ->
  bytes (CTR_DRBG.counter (fst (while bound cond CTR_DRBG.next_block (g, acc)))) = true
  /\ bytes (snd (while bound cond CTR_DRBG.next_block (g, acc))) = true.
Proof.
  intros Hc Ha.
  apply (while_inv (fun st => bytes (CTR_DRBG.counter (fst st)) = true
                              /\ bytes (snd st) = true)); [|now split].
  intros [g' t] [H1 H2]. unfold CTR_DRBG.next_block, CTR_DRBG.increment_counter.
  cbv zeta. cbn [fst snd] in *. autorewrite with drbg.
  assert (H3 : bytes (incr_from (Z.to_nat CTR_DRBG.BLOCK_SIZE) (CTR_DRBG.counter g')) = true)
    by now apply bytes_incr_from.
  split; [exact H3|]. rewrite bytes_app, H2. now apply bytes_encrypt_block.
Qed.

Lemma ctr_update_bytes (g : CTR_DRBG.t) (data : list Z) :
  bytes (CTR_DRBG.key g) = true -> bytes (CTR_DRBG.counter g) = true ->
  bytes (CTR_DRBG.key (CTR_DRBG.update g data)) = true
  /\ bytes (CTR_DRBG.counter (CTR_DRBG.update g data)) = true.
Proof.
  intros Hk Hc. unfold CTR_DRBG.update. cbv zeta. autorewrite with drbg.
  destruct (ctr_while_bytes g (Z.to_nat (CTR_DRBG.KEY_SIZE + CTR_DRBG.BLOCK_SIZE))
    (fun st => len (snd st) <? CTR_DRBG.KEY_SIZE + CTR_DRBG.BLOCK_SIZE) [] Hc eq_refl)
    as [H1 H2].
  split; apply bytes_copy_range; auto using bytes_xor_data.
  now rewrite (proj1 (ctr_while_frame _ _ _ _)).
Qed.

Lemma wf_ctr_update (g : CTR_DRBG.t) (data : list Z) (r : Z) :
  wf (Ctr g) = true -> u64_ok r = true ->
  wf (Ctr (CTR_DRBG.set_reseed_counter (CTR_DRBG.update g data) r)) = true.
Proof.
  rewrite !wf_ctr. intros (H1 & H2 & H3 & H4 & H5) Hr. autorewrite with drbg.
  destruct (ctr_update_sizes g data) as [-> ->].
  destruct (ctr_update_bytes g data H3 H4) as [-> ->]. auto.
Qed.

Lemma wf_ctr_while (g : CTR_DRBG.t) (bound : nat) (cond : CTR_DRBG.t * list Z -> bool) :
  wf (Ctr g) = true ->
  wf (Ctr (fst (while bound cond CTR_DRBG.next_block (g, [])))) = true.
Proof.
  rewrite !wf_ctr. intros (H1 & H2 & H3 & H4 & H5).
  destruct (ctr_while_frame g bound cond []) as [-> ->].
  rewrite ctr_while_reseed_counter.
  destruct (ctr_while_bytes g bound cond [] H4 eq_refl) as [-> _]. auto.
Qed.

Lemma bytes_vresize (n : Z) (v : list Z) : bytes v = true -> bytes (vresize n v) = true.
Proof.
  intros Hv. apply bytes_iff. intros x Hx. unfold vresize in Hx.
  rewrite bytes_iff in Hv.
  assert (HF : Forall (fun y => 0 <= y < 256) (resize (Z.to_nat n) 0 v)).
  { apply Forall_resize; [lia|]. apply Forall_forall. intros y Hy.
    apply Hv, list_elem_of_In, Hy. }
  rewrite Forall_forall in HF. apply HF, list_elem_of_In, Hx.
Qed.

Lemma bytes_hash_df (input : list Z) (no_of_bits : Z) :
  bytes (Hash_DRBG.hash_df input no_of_bits) = true.
Proof.
  unfold Hash_DRBG.hash_df. cbv zeta. apply bytes_vresize. unfold for_range.
  apply (for_loop_inv (fun st : list Z * Z => bytes (fst st) = true)); [|reflexivity].
  intros j [temp c] Ht. unfold Hash_DRBG.hash_df_block. cbv zeta. cbn [fst] in *.
  rewrite bytes_app, Ht. apply bytes_sha256.
Qed.

Lemma bytes_hash_add_to_V (g : Hash_DRBG.t) (value : list Z) :
  bytes (Hash_DRBG.V g) = true ->
  bytes (Hash_DRBG.V (Hash_DRBG.add_to_V g value)) = true.
Proof.
  intros HV. unfold Hash_DRBG.add_to_V. cbv zeta. autorewrite with drbg.
  unfold for_range.
  apply (for_loop_inv (fun st : list Z * Z => bytes (fst st) = true)); [|exact HV].
  intros j [v c] Hv. unfold Hash_DRBG.add_to_V_step. cbv zeta. cbn [fst] in *.
  apply bytes_vset; auto using u8_range.
Qed.

Lemma wf_construct (v : variant) (seed : list Z) : wf (construct v seed) = true.
Proof.
  destruct v; cbn [construct].
  - unfold CTR_DRBG.new. cbv zeta.
    pose proof (wf_ctr_update
      {| CTR_DRBG.key := replicate (Z.to_nat CTR_DRBG.KEY_SIZE) 0;
         CTR_DRBG.counter := replicate (Z.to_nat CTR_DRBG.BLOCK_SIZE) 0;
         CTR_DRBG.reseed_counter := 1 |} seed 1 eq_refl eq_refl) as H.
    apply wf_ctr in H. apply wf_ctr. autorewrite with drbg in H.
    rewrite ctr_update_reseed_counter. tauto.
  - apply wf_hash_iff. unfold Hash_DRBG.new. cbv zeta. autorewrite with drbg.
    rewrite !len_hash_df, !bytes_hash_df. auto.
  - apply wf_hmac. unfold HMAC_DRBG.new. cbv zeta.
    destruct (hmac_update_sizes
      {| HMAC_DRBG.K := replicate (Z.to_nat HMAC_DRBG.HASH_OUTPUT) 0;
         HMAC_DRBG.V := replicate (Z.to_nat HMAC_DRBG.HASH_OUTPUT) 1;
         HMAC_DRBG.reseed_counter := 1 |} seed) as [-> ->].
    rewrite hmac_update_reseed_counter.
    unfold HMAC_DRBG.update. cbv zeta.
    destruct (negb _); autorewrite with drbg; rewrite !bytes_hmac_sha256; auto.
Qed.

Lemma hmac_update_bytes (g : HMAC_DRBG.t) (data : list Z) :
  bytes (HMAC_DRBG.K (HMAC_DRBG.update g data)) = true
  /\ bytes (HMAC_DRBG.V (HMAC_DRBG.update g data)) = true.
Proof.
  unfold HMAC_DRBG.update. cbv zeta.
  destruct (negb _); autorewrite with drbg; rewrite !bytes_hmac_sha256; auto.
Qed.

Lemma wf_reseed (d : DRBG) (seed : list Z) : wf d = true -> wf (reseed d seed) = true.
Proof.
  destruct d as [g|g|g]; cbn [reseed]; intros Hwf.
  - unfold CTR_DRBG.reseed. cbv zeta. now apply wf_ctr_update.
  - apply wf_hash_iff. unfold Hash_DRBG.reseed. cbv zeta. autorewrite with drbg.
    rewrite !len_hash_df, !bytes_hash_df. auto.
  - apply wf_hmac. unfold HMAC_DRBG.reseed. cbv zeta. autorewrite with drbg.
    destruct (hmac_update_sizes g seed) as [-> ->].
    destruct (hmac_update_bytes g seed) as [-> ->]. auto.
Qed.

Lemma wf_generate (d : DRBG) (n : Z) : wf d = true -> wf (fst (generate d n)) = true.
Proof.
  destruct d as [g|g|g]; cbn [generate]; cbv zeta; cbn [fst]; intros Hwf.
  - unfold CTR_DRBG.generate. cbv zeta. cbn [fst].
    apply wf_ctr_update; [now apply wf_ctr_while|apply u64_ok_u64].
  - apply wf_hash_iff in Hwf. destruct Hwf as (H1 & H2 & H3 & H4 & H5).
    apply wf_hash_iff. unfold Hash_DRBG.generate. cbv zeta. cbn [fst].
    autorewrite with drbg.
    rewrite !len_hash_add_to_V, !(proj1 (hash_add_to_V_frame _ _)).
    rewrite u64_ok_u64. repeat split; auto.
    now repeat apply bytes_hash_add_to_V.
  - apply wf_hmac. unfold HMAC_DRBG.generate. cbv zeta. cbn [fst].
    autorewrite with drbg.
    destruct (hmac_update_sizes (fst (while (Z.to_nat (size_t (n + 7) / 8))
      (fun st => len (snd st) <? size_t (n + 7) / 8) HMAC_DRBG.next_block (g, []))) [])
      as [-> ->].
    destruct (hmac_update_bytes (fst (while (Z.to_nat (size_t (n + 7) / 8))
      (fun st => len (snd st) <? size_t (n + 7) / 8) HMAC_DRBG.next_block (g, []))) [])
      as [-> ->].
    rewrite u64_ok_u64. auto.
Qed.

Lemma wf_step (d : DRBG) (c : call) : wf d = true -> wf (fst (step d c)) = true.
Proof.
  intros H. destruct c as [n|seed]; cbn [step]; cbv zeta; cbn [fst].
  - now apply wf_generate.
  - now apply wf_reseed.
Qed.

(** The states on which the theorems above put conditions (key, counter,
    V, C and K of the declared widths, every entry a byte, the reseed
    counter a 64-bit value) are all the states a generator can be in. *)
Theorem wf_reachable (v : variant) (seed : list Z) (calls : list call) :
  wf (fst (run (construct v seed) calls)) = true.
Proof.
  apply (run_invariant (fun d => wf d = true) wf_step), wf_construct.
Qed.

(** On such a state the three block loops run to their end: [update] has
    its 48 bytes and [generate] its [num_bytes] bytes before [resize]. *)
Theorem output_loops_complete (d : DRBG) (n : Z) :
  wf d = true ->
  match d with
  | Ctr g =>
      48 <= len (snd (while (Z.to_nat (CTR_DRBG.KEY_SIZE + CTR_DRBG.BLOCK_SIZE))
                        (fun st => len (snd st) <? CTR_DRBG.KEY_SIZE + CTR_DRBG.BLOCK_SIZE)
                        CTR_DRBG.next_block (g, [])))
      /\ size_t (n + 7) / 8
         <= len (snd (while (Z.to_nat (size_t (n + 7) / 8))
                        (fun st => len (snd st) <? size_t (n + 7) / 8)
                        CTR_DRBG.next_block (g, [])))
  | Hash g => True
  | Hmac g =>
      size_t (n + 7) / 8
      <= len (snd (while (Z.to_nat (size_t (n + 7) / 8))
                     (fun st => len (snd st) <? size_t (n + 7) / 8)
                     HMAC_DRBG.next_block (g, [])))
  end.
Proof.
  destruct d as [g|g|g]; intros Hwf; [|exact I|].
  - apply wf_ctr in Hwf. destruct Hwf as (_ & Hc & _). split.
    + apply (ctr_loop_exit g 48); [exact Hc|]. change (len []) with 0.
      unfold CTR_DRBG.KEY_SIZE, CTR_DRBG.BLOCK_SIZE. lia.
    + apply ctr_loop_exit; [exact Hc|]. change (len []) with 0. lia.
  - apply hmac_loop_exit. change (len []) with 0. lia.
Qed.

(** * Further properties of the code *)

(** ** The big-endian increment of [increment_counter] and [hashgen] *)

Lemma vget_app_l (hi lo : list Z) (j : nat) :
  (j < length hi)%nat -> vget (hi ++ lo) (Z.of_nat j) = vget hi (Z.of_nat j).
Proof. intros H. unfold vget. rewrite Nat2Z.id. now apply app_nth1. Qed.

Lemma vset_app_l (hi lo : list Z) (j : nat) (x : Z) :
  (j < length hi)%nat -> vset (hi ++ lo) (Z.of_nat j) x = vset hi (Z.of_nat j) x ++ lo.
Proof. intros H. unfold vset. rewrite Nat2Z.id. now apply insert_app_l. Qed.

Lemma incr_from_frame (j : nat) :
  forall hi lo, (j <= length hi)%nat -> incr_from j (hi ++ lo) = incr_from j hi ++ lo.
Proof.
  induction j as [|j IH]; intros hi lo Hj; [reflexivity|].
  cbn [incr_from]. cbv zeta.
  rewrite vget_app_l, vset_app_l by lia.
  destruct (negb _); [reflexivity|].
  apply IH. rewrite length_vset. lia.
Qed.

Lemma be_encode_mod (n : nat) :
  forall x, be_encode n (x mod 256 ^ Z.of_nat n) = be_encode n x.
Proof.
  induction n as [|n IH]; intros x; [reflexivity|].
  cbn [be_encode].
  assert (Hp : 0 < 256 ^ Z.of_nat n) by (apply Z.pow_pos_nonneg; lia).
  rewrite Nat2Z.inj_succ, Z.pow_succ_r by lia.
  replace (x mod (256 * 256 ^ Z.of_nat n) / 256) with ((x / 256) mod 256 ^ Z.of_nat n).
  2:{ rewrite Z.rem_mul_r by lia.
      rewrite (Z.mul_comm 256), Z.div_add by lia.
      rewrite (Z.div_small (x mod 256)) by (apply Z.mod_pos_bound; lia). lia. }
  rewrite IH. f_equal. f_equal.
  rewrite Z.rem_mul_r by lia.
  rewrite (Z.mul_comm 256), Z_mod_plus_full. apply Z.mod_mod. lia.
Qed.

Lemma be_encode_congr (n : nat) (x y : Z) :
  x mod 256 ^ Z.of_nat n = y mod 256 ^ Z.of_nat n -> be_encode n x = be_encode n y.
Proof. intros H. rewrite <- (be_encode_mod n x), H. apply be_encode_mod. Qed.

(** The increment loop adds one to the big-endian value of the vector,
    modulo 2^(8 * length). *)
Lemma incr_from_value (v : list Z) :
  bytes v = true -> incr_from (length v) v = be_encode (length v) (be_value v + 1).
Proof.
  induction v as [|x hi IH] using rev_ind; intros Hb; [reflexivity|].
  rewrite bytes_app in Hb. apply andb_prop in Hb. destruct Hb as [Hhi Hx].
  apply bytes_cons in Hx. destruct Hx as [Hx _].
  rewrite length_app. cbn [length]. rewrite Nat.add_1_r.
  cbn [incr_from be_encode]. cbv zeta.
  change (Z.of_nat (length hi)) with (len hi).
  rewrite vget_middle, vset_middle, be_value_snoc.
  destruct (Z.eq_dec x 255) as [->|Hne].
  - change (u8 (255 + 1)) with 0. cbn [Z.eqb negb].
    rewrite incr_from_frame by lia. rewrite IH by exact Hhi.
    f_equal; [f_equal|f_equal]; Z.div_mod_to_equations; lia.
  - rewrite u8_small by lia.
    replace (x + 1 =? 0) with false by lia. cbn [negb].
    replace ((be_value hi * 256 + x + 1) / 256) with (be_value hi)
      by (Z.div_mod_to_equations; lia).
    rewrite be_encode_be_value by exact Hhi.
    f_equal. f_equal. Z.div_mod_to_equations; lia.
Qed.

Lemma incr_from_iter (n : nat) (v : list Z) (i : nat) :
  length v = n -> bytes v = true ->
  Nat.iter i (incr_from n) v = be_encode n (be_value v + Z.of_nat i).
Proof.
  intros Hl Hb. induction i as [|i IH].
  - change (Nat.iter 0 (incr_from n) v) with v.
    rewrite Z.add_0_r, <- Hl. symmetry. now apply be_encode_be_value.
  - change (Nat.iter (S i) (incr_from n) v) with (incr_from n (Nat.iter i (incr_from n) v)).
    rewrite IH.
    rewrite <- (length_be_encode n (be_value v + Z.of_nat i)) at 1.
    rewrite incr_from_value by apply bytes_be_encode.
    rewrite length_be_encode, be_value_be_encode.
    apply be_encode_congr.
    rewrite Zplus_mod_idemp_l. f_equal. lia.
Qed.

(** ** Loops that append one block per iteration *)

Section BlockLoop.

Context {St : Type}.
Variable nxt : St -> St.
Variable out : St -> list Z.
Variable body : St * list Z -> St * list Z.
Variable B : Z.
Variable I : St -> Prop.
Hypothesis body_eq : forall st, body st = (nxt (fst st), snd st ++ out (nxt (fst st))).
Hypothesis B_pos : 0 < B.
Hypothesis I_nxt : forall s, I s -> I (nxt s).
Hypothesis out_len : forall s, I s -> len (out s) = B.

Lemma I_iter (s : St) (j : nat) : I s -> I (Nat.iter j nxt s).
Proof.
  intros Hs. induction j as [|j IH]; [exact Hs|].
  change (Nat.iter (S j) nxt s) with (nxt (Nat.iter j nxt s)). now apply I_nxt.
Qed.

Lemma blocks_of_S (s : St) (k : nat) :
  blocks_of nxt out s (S k) = blocks_of nxt out s k ++ out (Nat.iter (S k) nxt s).
Proof.
  unfold blocks_of. rewrite seq_S, flat_map_app. cbn [flat_map Nat.add].
  now rewrite app_nil_r.
Qed.

Lemma len_blocks_of (s : St) (k : nat) :
  I s -> len (blocks_of nxt out s k) = B * Z.of_nat k.
Proof.
  intros Hs. induction k as [|k IH]; [unfold blocks_of, len; cbn; lia|].
  rewrite blocks_of_S, len_app, IH, out_len by (apply (I_iter s (S k)), Hs). lia.
Qed.

Lemma blocks_of_le (s : St) (j k : nat) :
  (j <= k)%nat -> exists rest, blocks_of nxt out s k = blocks_of nxt out s j ++ rest.
Proof.
  intros H. induction H as [|k H [rest IH]].
  - exists []. now rewrite app_nil_r.
  - exists (rest ++ out (Nat.iter (S k) nxt s)).
    now rewrite blocks_of_S, IH, app_assoc.
Qed.

(** The loop [while (result.size() < N) body] started on the empty result
    runs ceil(N / B) times. *)
Lemma while_blocks (N : Z) (s : St) :
  I s -> 0 <= N ->
  forall bound, (Z.to_nat ((N + B - 1) / B) <= bound)%nat ->
  while bound (fun st => len (snd st) <? N) body (s, [])
  = (Nat.iter (Z.to_nat ((N + B - 1) / B)) nxt s,
     blocks_of nxt out s (Z.to_nat ((N + B - 1) / B))).
Proof.
  intros Hs HN.
  set (k := Z.to_nat ((N + B - 1) / B)).
  assert (Hk : N <= B * Z.of_nat k /\ (0 < N -> B * Z.of_nat k < N + B)).
  { unfold k. rewrite Z2Nat.id by (apply Z.div_pos; lia).
    split; [|intros _]; Z.div_mod_to_equations; nia. }
  assert (Hk0 : N <= 0 -> k = 0%nat).
  { intros H0. unfold k. replace N with 0 by lia.
    rewrite Z.div_small by lia. reflexivity. }
  assert (G : forall d j bound, (j + d = k)%nat -> (d <= bound)%nat ->
    while bound (fun st => len (snd st) <? N) body
      (Nat.iter j nxt s, blocks_of nxt out s j)
    = (Nat.iter k nxt s, blocks_of nxt out s k)).
  { induction d as [|d IH]; intros j bound Hj Hb.
    - replace j with k by lia.
      destruct bound as [|b]; [reflexivity|]. cbn [while snd].
      rewrite len_blocks_of by exact Hs.
      replace (B * Z.of_nat k <? N) with false by lia. reflexivity.
    - destruct bound as [|b]; [lia|]. cbn [while snd].
      rewrite len_blocks_of by exact Hs.
      assert (0 < N) by (destruct (Z_lt_le_dec 0 N); [assumption|]; specialize (Hk0 ltac:(lia)); lia).
      replace (B * Z.of_nat j <? N) with true by nia.
      rewrite body_eq. cbn [fst snd].
      change (nxt (Nat.iter j nxt s)) with (Nat.iter (S j) nxt s).
      rewrite <- blocks_of_S. apply IH; lia. }
  intros bound Hb. apply (G k 0%nat bound); lia.
Qed.

End BlockLoop.

Lemma for_loop_const {St : Type} (f : St -> St) (step : Z) (n : nat) :
  forall i s, for_loop n i step (fun _ => f) s = Nat.iter n f s.
Proof.
  induction n as [|n IH]; intros i s; [reflexivity|].
  cbn [for_loop]. rewrite IH. symmetry. apply Nat.iter_succ_r.
Qed.

Lemma take_vresize (n : Z) (v : list Z) :
  n <= len v -> vresize n v = take (Z.to_nat n) v.
Proof.
  intros H. unfold vresize. apply resize_le. unfold len in H. lia.
Qed.

Lemma ceil_div_pos (a b : Z) : 0 < b -> ceil_div a b = (a + b - 1) / b.
Proof. intros Hb. unfold ceil_div. Z.div_mod_to_equations. nia. Qed.

Lemma num_bytes_small (n : Z) :
  0 <= n <= 2 ^ 64 - 8 -> size_t (n + 7) / 8 = ceil_div n 8 /\ 0 <= ceil_div n 8.
Proof.
  intros Hn. rewrite ceil_div_8.
  change (2 ^ 64) with 18446744073709551616 in Hn.
  rewrite size_t_small by (change (2 ^ 64) with 18446744073709551616; lia).
  split; [reflexivity|]. Z.div_mod_to_equations. lia.
Qed.

(** ** The output loop of CTR-DRBG *)

Lemma ctr_encrypt_block_key (g1 g2 : CTR_DRBG.t) (block : list Z) :
  CTR_DRBG.key g1 = CTR_DRBG.key g2 ->
  CTR_DRBG.encrypt_block g1 block = CTR_DRBG.encrypt_block g2 block.
Proof. intros H. unfold CTR_DRBG.encrypt_block. now rewrite H. Qed.

Lemma iter_set_counter (f : list Z -> list Z) (g : CTR_DRBG.t) (j : nat) :
  Nat.iter j (fun self => CTR_DRBG.set_counter self (f (CTR_DRBG.counter self))) g
  = CTR_DRBG.set_counter g (Nat.iter j f (CTR_DRBG.counter g)).
Proof.
  induction j as [|j IH]; [now destruct g|].
  rewrite !Nat.iter_succ, IH. reflexivity.
Qed.

Lemma ctr_increment_iter (g : CTR_DRBG.t) (j : nat) :
  Nat.iter j CTR_DRBG.increment_counter g
  = CTR_DRBG.set_counter g (Nat.iter j (incr_from 16) (CTR_DRBG.counter g)).
Proof. exact (iter_set_counter (incr_from 16) g j). Qed.

Lemma ctr_counter_iter (g : CTR_DRBG.t) (j : nat) :
  wf (Ctr g) = true ->
  Nat.iter j CTR_DRBG.increment_counter g
  = CTR_DRBG.set_counter g (be_encode 16 (be_value (CTR_DRBG.counter g) + Z.of_nat j)).
Proof.
  intros Hwf. apply wf_ctr in Hwf. destruct Hwf as (_ & Hc & _ & Hcb & _).
  rewrite ctr_increment_iter. f_equal. apply incr_from_iter; [|exact Hcb].
  unfold len in Hc. lia.
Qed.

Lemma ctr_blocks_of (g : CTR_DRBG.t) (k : nat) :
  wf (Ctr g) = true ->
  blocks_of CTR_DRBG.increment_counter
    (fun self => CTR_DRBG.encrypt_block self (CTR_DRBG.counter self)) g k
  = Stream.ctr_blocks g k.
Proof.
  intros Hwf. unfold blocks_of, Stream.ctr_blocks.
  apply flat_map_ext. intros i.
  rewrite (ctr_counter_iter g (S i) Hwf). autorewrite with drbg.
  rewrite Nat2Z.inj_succ, <- Z.add_1_r, Z.add_assoc.
  apply ctr_encrypt_block_key. now autorewrite with drbg.
Qed.

(** The loop of [generate] (and of [update]) on a well-formed state:
    ceil(N / 16) iterations, each encrypting the next counter value. *)
Lemma ctr_output_loop (g : CTR_DRBG.t) (N : Z) (bound : nat) :
  wf (Ctr g) = true -> 0 <= N -> (Z.to_nat N <= bound)%nat ->
  while bound (fun st => len (snd st) <? N) CTR_DRBG.next_block (g, [])
  = (CTR_DRBG.set_counter g
       (be_encode 16 (be_value (CTR_DRBG.counter g) + ceil_div N 16)),
     Stream.ctr_blocks g (Z.to_nat (ceil_div N 16))).
Proof.
  intros Hwf HN Hb.
  pose proof (while_blocks CTR_DRBG.increment_counter
    (fun self => CTR_DRBG.encrypt_block self (CTR_DRBG.counter self))
    CTR_DRBG.next_block 16
    (fun self => CTR_DRBG.key self = CTR_DRBG.key g /\ wf (Ctr self) = true)) as W.
  rewrite ceil_div_pos by lia.
  assert (Hk : 0 <= (N + 16 - 1) / 16 <= N) by (Z.div_mod_to_equations; lia).
  rewrite W.
  - rewrite (ctr_counter_iter g _ Hwf), (ctr_blocks_of g _ Hwf).
    rewrite Z2Nat.id by lia. reflexivity.
  - intros st. unfold CTR_DRBG.next_block. cbv zeta. reflexivity.
  - lia.
  - intros s [Hs1 Hs2]. split; [exact Hs1|].
    apply wf_ctr in Hs2. destruct Hs2 as (H1 & H2 & H3 & H4 & H5).
    apply wf_ctr. unfold CTR_DRBG.increment_counter. autorewrite with drbg.
    repeat split; try assumption.
    + unfold len. rewrite length_incr_from. exact H2.
    + now apply bytes_incr_from.
  - intros s [_ Hs]. apply wf_ctr in Hs. destruct Hs as (_ & H2 & _).
    unfold len. rewrite length_encrypt_block. exact H2.
  - now split.
  - exact HN.
  - lia.
Qed.

(** ** The output loop of HMAC-DRBG *)

Lemma iter_set_V (f : list Z -> list Z -> list Z) (g : HMAC_DRBG.t) (j : nat) :
  Nat.iter j (fun self => HMAC_DRBG.set_V self (f (HMAC_DRBG.K self) (HMAC_DRBG.V self))) g
  = HMAC_DRBG.set_V g (Nat.iter j (f (HMAC_DRBG.K g)) (HMAC_DRBG.V g)).
Proof.
  induction j as [|j IH]; [now destruct g|].
  rewrite !Nat.iter_succ, IH. reflexivity.
Qed.

Lemma hmac_output_loop (g : HMAC_DRBG.t) (N : Z) (bound : nat) :
  len (HMAC_DRBG.V g) = 32 -> 0 <= N -> (Z.to_nat N <= bound)%nat ->
  while bound (fun st => len (snd st) <? N) HMAC_DRBG.next_block (g, [])
  = (HMAC_DRBG.set_V g
       (Nat.iter (Z.to_nat (ceil_div N 32))
          (HMAC_DRBG.hmac_sha256 (HMAC_DRBG.K g)) (HMAC_DRBG.V g)),
     Stream.hmac_blocks (HMAC_DRBG.K g) (HMAC_DRBG.V g) (Z.to_nat (ceil_div N 32))).
Proof.
  intros HV HN Hb.
  pose proof (while_blocks
    (fun self => HMAC_DRBG.set_V self
       (HMAC_DRBG.hmac_sha256 (HMAC_DRBG.K self) (HMAC_DRBG.V self)))
    HMAC_DRBG.V HMAC_DRBG.next_block 32
    (fun self => len (HMAC_DRBG.V self) = 32)) as W.
  rewrite ceil_div_pos by lia.
  assert (Hk : 0 <= (N + 32 - 1) / 32 <= N) by (Z.div_mod_to_equations; lia).
  assert (E : forall k,
    blocks_of (fun self => HMAC_DRBG.set_V self
       (HMAC_DRBG.hmac_sha256 (HMAC_DRBG.K self) (HMAC_DRBG.V self))) HMAC_DRBG.V g k
    = Stream.hmac_blocks (HMAC_DRBG.K g) (HMAC_DRBG.V g) k).
  { intros k. unfold blocks_of, Stream.hmac_blocks. apply flat_map_ext. intros i.
    rewrite (iter_set_V HMAC_DRBG.hmac_sha256 g (S i)). now autorewrite with drbg. }
  rewrite W.
  - rewrite E, (iter_set_V HMAC_DRBG.hmac_sha256 g). reflexivity.
  - intros st. unfold HMAC_DRBG.next_block. cbv zeta. now autorewrite with drbg.
  - lia.
  - intros s _. autorewrite with drbg. apply len_hmac_sha256.
  - intros s Hs. exact Hs.
  - exact HV.
  - exact HN.
  - lia.
Qed.

(** ** The loop of [hashgen] *)

Lemma hashgen_iter (k : nat) :
  forall data W,
    bytes data = true ->
    Nat.iter k Hash_DRBG.hashgen_step (data, W)
    = (be_encode (length data) (be_value data + Z.of_nat k),
       W ++ Stream.hash_blocks data k).
Proof.
  induction k as [|k IH]; intros data W Hb.
  - change (Nat.iter 0 Hash_DRBG.hashgen_step (data, W)) with (data, W).
    unfold Stream.hash_blocks. cbn [seq flat_map].
    rewrite app_nil_r, Z.add_0_r, be_encode_be_value by exact Hb. reflexivity.
  - rewrite Nat.iter_succ, IH by exact Hb.
    unfold Hash_DRBG.hashgen_step. cbv beta iota zeta.
    rewrite incr_from_value by apply bytes_be_encode.
    rewrite length_be_encode, be_value_be_encode.
    f_equal.
    + apply be_encode_congr. rewrite Zplus_mod_idemp_l. f_equal. lia.
    + unfold Stream.hash_blocks. rewrite seq_S, flat_map_app. cbn [flat_map Nat.add].
      now rewrite app_nil_r, app_assoc.
Qed.

Lemma len_hash_blocks (V : list Z) (k : nat) : len (Stream.hash_blocks V k) = 32 * Z.of_nat k.
Proof.
  unfold Stream.hash_blocks.
  induction k as [|k IH]; [reflexivity|].
  rewrite seq_S, flat_map_app, len_app, IH. cbn [flat_map Nat.add].
  rewrite app_nil_r, len_sha256. lia.
Qed.

Lemma hashgen_stream (g : Hash_DRBG.t) (n : Z) :
  bytes (Hash_DRBG.V g) = true -> 0 <= n <= 2 ^ 64 - 256 ->
  Hash_DRBG.hashgen g n
  = take (Z.to_nat (ceil_div n 8))
      (Stream.hash_blocks (Hash_DRBG.V g) (Z.to_nat (ceil_div n 256))).
Proof.
  intros Hb Hn. change (2 ^ 64) with 18446744073709551616 in Hn.
  unfold Hash_DRBG.hashgen. cbv zeta.
  destruct (num_bytes_small n) as [-> HN];
    [change (2 ^ 64) with 18446744073709551616; lia|].
  change (Hash_DRBG.HASH_OUTPUT * 8) with 256.
  rewrite size_t_small by (change (2 ^ 64) with 18446744073709551616; lia).
  rewrite (ceil_div_pos n 256) by lia.
  unfold for_range. rewrite for_loop_const, Z.sub_0_r.
  rewrite hashgen_iter by exact Hb. cbn [snd app].
  apply take_vresize. rewrite len_hash_blocks, ceil_div_8.
  rewrite Z2Nat.id by (Z.div_mod_to_equations; lia).
  Z.div_mod_to_equations; lia.
Qed.

(** ** What [generate] returns *)

Lemma len_ctr_blocks (g : CTR_DRBG.t) (k : nat) : len (Stream.ctr_blocks g k) = 16 * Z.of_nat k.
Proof.
  unfold Stream.ctr_blocks.
  induction k as [|k IH]; [reflexivity|].
  rewrite seq_S, flat_map_app, len_app, IH. cbn [flat_map Nat.add].
  rewrite app_nil_r. unfold len.
  rewrite length_encrypt_block, length_be_encode. lia.
Qed.

Lemma len_hmac_blocks (K V : list Z) (k : nat) :
  len (Stream.hmac_blocks K V k) = 32 * Z.of_nat k.
Proof.
  unfold Stream.hmac_blocks.
  induction k as [|k IH]; [reflexivity|].
  rewrite seq_S, flat_map_app, len_app, IH. cbn [flat_map Nat.add].
  rewrite app_nil_r, Nat.iter_succ, len_hmac_sha256. lia.
Qed.

Lemma ceil_div_bounds (a b : Z) :
  0 < b -> 0 <= a -> 0 <= ceil_div a b /\ a <= b * ceil_div a b < a + b.
Proof. intros Hb Ha. rewrite ceil_div_pos by lia. Z.div_mod_to_equations. nia. Qed.

Lemma ctr_generate_output (g : CTR_DRBG.t) (n : Z) :
  wf (Ctr g) = true -> 0 <= n <= 2 ^ 64 - 8 ->
  snd (CTR_DRBG.generate g n)
  = take (Z.to_nat (ceil_div n 8))
      (Stream.ctr_blocks g (Z.to_nat (ceil_div (ceil_div n 8) 16))).
Proof.
  intros Hwf Hn. unfold CTR_DRBG.generate. cbv zeta. cbn [snd].
  destruct (num_bytes_small n Hn) as [-> HN].
  rewrite ctr_output_loop by (try assumption; lia). cbn [snd].
  apply take_vresize. rewrite len_ctr_blocks.
  destruct (ceil_div_bounds (ceil_div n 8) 16) as [H0 H1]; lia.
Qed.

Lemma hmac_generate_output (g : HMAC_DRBG.t) (n : Z) :
  len (HMAC_DRBG.V g) = 32 -> 0 <= n <= 2 ^ 64 - 8 ->
  snd (HMAC_DRBG.generate g n)
  = take (Z.to_nat (ceil_div n 8))
      (Stream.hmac_blocks (HMAC_DRBG.K g) (HMAC_DRBG.V g)
         (Z.to_nat (ceil_div (ceil_div n 8) 32))).
Proof.
  intros HV Hn. unfold HMAC_DRBG.generate. cbv zeta. cbn [snd].
  destruct (num_bytes_small n Hn) as [-> HN].
  rewrite hmac_output_loop by (try assumption; lia). cbn [snd].
  apply take_vresize. rewrite len_hmac_blocks.
  destruct (ceil_div_bounds (ceil_div n 8) 32) as [H0 H1]; lia.
Qed.

Lemma hash_generate_output (g : Hash_DRBG.t) (n : Z) :
  bytes (Hash_DRBG.V g) = true -> 0 <= n <= 2 ^ 64 - 256 ->
  snd (Hash_DRBG.generate g n)
  = take (Z.to_nat (ceil_div n 8))
      (Stream.hash_blocks (Hash_DRBG.V g) (Z.to_nat (ceil_div n 256))).
Proof.
  intros Hb Hn. unfold Hash_DRBG.generate. cbv zeta. cbn [snd].
  now apply hashgen_stream.
Qed.

(** X2. On a well-formed CTR-DRBG state, [generate(num_bits)] returns the
    first ceil(num_bits / 8) bytes of the counter-mode stream
    E(counter + 1) || E(counter + 2) || ..., the counter being read as a
    128-bit big-endian integer that wraps modulo 2^128; the output loop
    leaves the counter advanced by the number of blocks,
    ceil(ceil(num_bits / 8) / 16), and the key untouched. *)
Theorem ctr_generate_stream (g : CTR_DRBG.t) (n : Z)
    (Hwf : wf (Ctr g) = true) (Hn : 0 <= n <= 2 ^ 64 - 8) :
  snd (CTR_DRBG.generate g n)
  = take (Z.to_nat (ceil_div n 8))
      (Stream.ctr_blocks g (Z.to_nat (ceil_div (ceil_div n 8) 16)))
  /\ after_output (Ctr g) n
     = Ctr (CTR_DRBG.set_counter g
              (be_encode 16 (be_value (CTR_DRBG.counter g)
                             + ceil_div (ceil_div n 8) 16))).
Proof.
  split; [now apply ctr_generate_output|].
  unfold after_output. destruct (num_bytes_small n Hn) as [-> HN].
  rewrite ctr_output_loop by (try assumption; lia). reflexivity.
Qed.

Lemma ctr_generate_stream_witness :
  let g := CTR_DRBG.new [1; 2; 3] in
  snd (CTR_DRBG.generate g 200)
  = take 25 (Stream.ctr_blocks g 2).
Proof.
  intros g.
  assert (Hwf : wf (Ctr g) = true) by (vm_compute; reflexivity).
  assert (Hn : 0 <= 200 <= 2 ^ 64 - 8) by (split; discriminate).
  exact (proj1 (ctr_generate_stream g 200 Hwf Hn)).
Defined.

(** X3. On a well-formed HMAC-DRBG state, [generate(num_bits)] returns the
    first ceil(num_bits / 8) bytes of V_1 || V_2 || ... with V_0 = V and
    V_(i+1) = HMAC(K, V_i); the output loop leaves V_k in V, k being the
    number of blocks ceil(ceil(num_bits / 8) / 32), and does not touch K. *)
Theorem hmac_generate_stream (g : HMAC_DRBG.t) (n : Z)
    (Hwf : wf (Hmac g) = true) (Hn : 0 <= n <= 2 ^ 64 - 8) :
  snd (HMAC_DRBG.generate g n)
  = take (Z.to_nat (ceil_div n 8))
      (Stream.hmac_blocks (HMAC_DRBG.K g) (HMAC_DRBG.V g)
         (Z.to_nat (ceil_div (ceil_div n 8) 32)))
  /\ after_output (Hmac g) n
     = Hmac (HMAC_DRBG.set_V g
               (Nat.iter (Z.to_nat (ceil_div (ceil_div n 8) 32))
                  (HMAC_DRBG.hmac_sha256 (HMAC_DRBG.K g)) (HMAC_DRBG.V g))).
Proof.
  apply wf_hmac in Hwf. destruct Hwf as (_ & HV & _).
  split; [now apply hmac_generate_output|].
  unfold after_output. destruct (num_bytes_small n Hn) as [-> HN].
  rewrite hmac_output_loop by (try assumption; lia). reflexivity.
Qed.

Lemma hmac_generate_stream_witness :
  let g := HMAC_DRBG.new [1; 2; 3] in
  snd (HMAC_DRBG.generate g 300)
  = take 38 (Stream.hmac_blocks (HMAC_DRBG.K g) (HMAC_DRBG.V g) 2).
Proof.
  intros g.
  assert (Hwf : wf (Hmac g) = true) by (vm_compute; reflexivity).
  assert (Hn : 0 <= 300 <= 2 ^ 64 - 8) by (split; discriminate).
  exact (proj1 (hmac_generate_stream g 300 Hwf Hn)).
Defined.

(** X4. On a well-formed Hash-DRBG state, [generate(num_bits)] returns the
    first ceil(num_bits / 8) bytes of sha256(V) || sha256(V + 1) || ...,
    V being read as a 440-bit big-endian integer that wraps modulo 2^440;
    ceil(num_bits / 256) hashes are computed, and [hashgen] works on a copy:
    the state it leaves is the one it found. The bound on [num_bits] keeps
    [num_bits + 255] from wrapping in [size_t]. *)
Theorem hash_generate_stream (g : Hash_DRBG.t) (n : Z)
    (Hwf : wf (Hash g) = true) (Hn : 0 <= n <= 2 ^ 64 - 256) :
  snd (Hash_DRBG.generate g n)
  = take (Z.to_nat (ceil_div n 8))
      (flat_map (fun i => sha256 (be_encode 55 (be_value (Hash_DRBG.V g) + Z.of_nat i)))
         (seq 0 (Z.to_nat (ceil_div n 256))))
  /\ after_output (Hash g) n = Hash g.
Proof.
  apply wf_hash_iff in Hwf. destruct Hwf as (HV & _ & HVb & _).
  split; [|reflexivity].
  rewrite hash_generate_output by assumption.
  unfold Stream.hash_blocks.
  replace (length (Hash_DRBG.V g)) with 55%nat by (unfold len in HV; lia).
  reflexivity.
Qed.

Lemma hash_generate_stream_witness :
  let g := Hash_DRBG.new [1; 2; 3] in
  snd (Hash_DRBG.generate g 300)
  = take 38 (flat_map (fun i => sha256 (be_encode 55 (be_value (Hash_DRBG.V g) + Z.of_nat i)))
               (seq 0 2)).
Proof.
  intros g.
  assert (Hwf : wf (Hash g) = true) by (vm_compute; reflexivity).
  assert (Hn : 0 <= 300 <= 2 ^ 64 - 256) by (split; discriminate).
  exact (proj1 (hash_generate_stream g 300 Hwf Hn)).
Defined.

(** X1. [increment_counter] adds one to the 16-byte counter read as a
    big-endian integer, modulo 2^128 (the all-0xFF counter wraps to zero),
    and touches neither the key nor the reseed counter. *)
Theorem increment_counter_adds_one (g : CTR_DRBG.t)
    (Hlen : length (CTR_DRBG.counter g) = 16%nat)
    (Hb : bytes (CTR_DRBG.counter g) = true) :
  CTR_DRBG.counter (CTR_DRBG.increment_counter g)
  = be_encode 16 ((be_value (CTR_DRBG.counter g) + 1) mod 2 ^ 128)
  /\ be_value (CTR_DRBG.counter (CTR_DRBG.increment_counter g))
     = (be_value (CTR_DRBG.counter g) + 1) mod 2 ^ 128
  /\ CTR_DRBG.key (CTR_DRBG.increment_counter g) = CTR_DRBG.key g
  /\ CTR_DRBG.reseed_counter (CTR_DRBG.increment_counter g) = CTR_DRBG.reseed_counter g.
Proof.
  unfold CTR_DRBG.increment_counter. autorewrite with drbg.
  change (Z.to_nat CTR_DRBG.BLOCK_SIZE) with 16%nat.
  rewrite <- Hlen at 1 3. rewrite incr_from_value by exact Hb. rewrite Hlen.
  rewrite be_value_be_encode.
  change (256 ^ Z.of_nat 16) with (2 ^ 128).
  repeat split.
  symmetry. apply (be_encode_mod 16).
Qed.

Lemma increment_counter_adds_one_witness :
  let g := CTR_DRBG.Make (replicate 32 0) (replicate 16 255) 1 in
  CTR_DRBG.counter (CTR_DRBG.increment_counter g) = replicate 16 0.
Proof.
  intros g.
  exact (proj1 (increment_counter_adds_one g eq_refl eq_refl)).
Defined.

Lemma take_flat_map_seq (f : nat -> list Z) (j k N : nat) :
  (j <= k)%nat -> (N <= length (flat_map f (seq 0 j)))%nat ->
  take N (flat_map f (seq 0 k)) = take N (flat_map f (seq 0 j)).
Proof.
  intros Hjk HN.
  replace k with (j + (k - j))%nat by lia.
  rewrite seq_app, flat_map_app. now apply take_app_le.
Qed.

Lemma ceil_div_mono (a b c : Z) : 0 < c -> a <= b -> ceil_div a c <= ceil_div b c.
Proof.
  intros Hc Hab. rewrite !ceil_div_pos by lia. apply Z.div_le_mono; lia.
Qed.

Lemma ceil_div_256 (n : Z) : ceil_div n 256 = ceil_div (ceil_div n 8) 32.
Proof. rewrite !ceil_div_pos by lia. Z.div_mod_to_equations. lia. Qed.

(** X5. For every variant, from one and the same well-formed state, the
    bytes returned for a request of [n] bits are the first ceil(n / 8)
    bytes returned for any larger request of [m] bits. *)
Theorem generate_prefix (d : DRBG) (n m : Z)
    (Hwf : wf d = true) (Hnm : 0 <= n <= m) (Hm : m <= 2 ^ 64 - 256) :
  snd (generate d n) = take (Z.to_nat (ceil_div n 8)) (snd (generate d m)).
Proof.
  change (2 ^ 64) with 18446744073709551616 in Hm.
  assert (Hn8 : 0 <= n <= 2 ^ 64 - 8)
    by (change (2 ^ 64) with 18446744073709551616; lia).
  assert (Hm8 : 0 <= m <= 2 ^ 64 - 8)
    by (change (2 ^ 64) with 18446744073709551616; lia).
  assert (Hm256 : 0 <= m <= 2 ^ 64 - 256)
    by (change (2 ^ 64) with 18446744073709551616; lia).
  assert (Hn256 : 0 <= n <= 2 ^ 64 - 256)
    by (change (2 ^ 64) with 18446744073709551616; lia).
  assert (HN : 0 <= ceil_div n 8 <= ceil_div m 8).
  { split; [apply (ceil_div_bounds n 8); lia|apply ceil_div_mono; lia]. }
  destruct d as [g|g|g]; cbn [generate]; cbv zeta; cbn [snd].
  - rewrite !ctr_generate_output by assumption.
    rewrite take_take, Nat.min_l by lia.
    unfold Stream.ctr_blocks. apply eq_sym, take_flat_map_seq.
    + pose proof (ceil_div_mono (ceil_div n 8) (ceil_div m 8) 16).
      pose proof (ceil_div_bounds (ceil_div n 8) 16). lia.
    + pose proof (len_ctr_blocks g (Z.to_nat (ceil_div (ceil_div n 8) 16))) as L.
      unfold Stream.ctr_blocks, len in L.
      pose proof (ceil_div_bounds (ceil_div n 8) 16). lia.
  - apply wf_hash_iff in Hwf. destruct Hwf as (_ & _ & HVb & _).
    rewrite !hash_generate_output by assumption.
    rewrite take_take, Nat.min_l by lia.
    unfold Stream.hash_blocks. apply eq_sym, take_flat_map_seq.
    + pose proof (ceil_div_mono n m 256).
      pose proof (ceil_div_bounds n 256). lia.
    + pose proof (len_hash_blocks (Hash_DRBG.V g) (Z.to_nat (ceil_div n 256))) as L.
      unfold Stream.hash_blocks, len in L.
      rewrite ceil_div_256 in *.
      pose proof (ceil_div_bounds (ceil_div n 8) 32). lia.
  - apply wf_hmac in Hwf. destruct Hwf as (_ & HV & _).
    rewrite !hmac_generate_output by assumption.
    rewrite take_take, Nat.min_l by lia.
    unfold Stream.hmac_blocks. apply eq_sym, take_flat_map_seq.
    + pose proof (ceil_div_mono (ceil_div n 8) (ceil_div m 8) 32).
      pose proof (ceil_div_bounds (ceil_div n 8) 32). lia.
    + pose proof (len_hmac_blocks (HMAC_DRBG.K g) (HMAC_DRBG.V g)
        (Z.to_nat (ceil_div (ceil_div n 8) 32))) as L.
      unfold Stream.hmac_blocks, len in L.
      pose proof (ceil_div_bounds (ceil_div n 8) 32). lia.
Qed.

Lemma generate_prefix_witness :
  let d := construct HASH [1; 2; 3] in
  snd (generate d 10) = take 2 (snd (generate d 1000)).
Proof.
  intros d.
  assert (Hwf : wf d = true) by (vm_compute; reflexivity).
  assert (Hnm : 0 <= 10 <= 1000) by (split; discriminate).
  assert (Hm : 1000 <= 2 ^ 64 - 256) by discriminate.
  exact (generate_prefix d 10 1000 Hwf Hnm Hm).
Defined.

(** ** Which bytes of a block the cipher reads and writes *)

Lemma for_loop_snoc {St : Type} (body : Z -> St -> St) (step : Z) (n : nat) :
  forall i s,
    for_loop (S n) i step body s = body (i + Z.of_nat n * step) (for_loop n i step body s).
Proof.
  induction n as [|n IH]; intros i s.
  - cbn [for_loop]. f_equal. lia.
  - change (for_loop (S (S n)) i step body s)
      with (for_loop (S n) (i + step) step body (body i s)).
    rewrite IH. cbn [for_loop]. f_equal. lia.
Qed.

Lemma for_loop_cons {St : Type} (body : Z -> St -> St) (step : Z) (n : nat) (i : Z) (s : St) :
  for_loop (S n) i step body s = for_loop n (i + step) step body (body i s).
Proof. reflexivity. Qed.

Lemma for_loop_rel {St : Type} (R : St -> St -> Prop) (body : Z -> St -> St) (step : Z) :
  (forall i s s', R s s' -> R (body i s) (body i s')) ->
  forall n i s s', R s s' -> R (for_loop n i step body s) (for_loop n i step body s').
Proof.
  intros Hbody n. induction n as [|n IH]; intros i s s' H; [exact H|].
  cbn [for_loop]. apply IH, Hbody, H.
Qed.

(** A round as three maps and, in rounds 0..8, the column mixing; no
    assumption on the range of the entries. *)
Lemma encrypt_round_maps (key : list Z) (r : Z) (state : list Z) :
  length state = 16%nat ->
  CTR_DRBG.encrypt_round key r state
  = let p := Spec.permute
               (map (vget CTR_DRBG.SBOX)
                  (imap (fun k x => u8 (Z.lxor x (vget key ((r * 16 + Z.of_nat k) mod 32))))
                     state)) in
    if r <? 9 then for_step 0 CTR_DRBG.BLOCK_SIZE 4 CTR_DRBG.mix_column p else p.
Proof.
  intros Hl. unfold CTR_DRBG.encrypt_round. cbv zeta.
  rewrite (for_range_stores
    (fun i x => u8 (Z.lxor x (vget key ((r * CTR_DRBG.BLOCK_SIZE + i) mod CTR_DRBG.KEY_SIZE)))))
    by now apply len_16.
  rewrite sub_bytes_refines by now rewrite length_imap.
  unfold Spec.sub_bytes. rewrite <- SBOX_aes_sbox.
  rewrite permute_refines by now rewrite length_map, length_imap.
  reflexivity.
Qed.

Section Permuted.

Variable h : Z -> Z.
Variable f : nat -> Z -> Z.

(** The permutation reads the indices 0-3, 5-8, 10-13, 15, 0, 1, 2: the
    bytes 4, 9 and 14 of its argument are dropped. *)
Lemma permute_drops (s1 s2 : list Z) :
  length s1 = 16%nat -> length s2 = 16%nat ->
  (forall i, 0 <= i < 16 -> i <> 4 -> i <> 9 -> i <> 14 -> vget s1 i = vget s2 i) ->
  Spec.permute (map h (imap f s1)) = Spec.permute (map h (imap f s2)).
Proof.
  intros H1 H2 Hag.
  do 17 (destruct s1 as [|? s1]; try discriminate H1).
  do 17 (destruct s2 as [|? s2]; try discriminate H2).
  pose proof (Hag 0 ltac:(lia) ltac:(lia) ltac:(lia) ltac:(lia)) as E0.
  pose proof (Hag 1 ltac:(lia) ltac:(lia) ltac:(lia) ltac:(lia)) as E1.
  pose proof (Hag 2 ltac:(lia) ltac:(lia) ltac:(lia) ltac:(lia)) as E2.
  pose proof (Hag 3 ltac:(lia) ltac:(lia) ltac:(lia) ltac:(lia)) as E3.
  pose proof (Hag 5 ltac:(lia) ltac:(lia) ltac:(lia) ltac:(lia)) as E5.
  pose proof (Hag 6 ltac:(lia) ltac:(lia) ltac:(lia) ltac:(lia)) as E6.
  pose proof (Hag 7 ltac:(lia) ltac:(lia) ltac:(lia) ltac:(lia)) as E7.
  pose proof (Hag 8 ltac:(lia) ltac:(lia) ltac:(lia) ltac:(lia)) as E8.
  pose proof (Hag 10 ltac:(lia) ltac:(lia) ltac:(lia) ltac:(lia)) as E10.
  pose proof (Hag 11 ltac:(lia) ltac:(lia) ltac:(lia) ltac:(lia)) as E11.
  pose proof (Hag 12 ltac:(lia) ltac:(lia) ltac:(lia) ltac:(lia)) as E12.
  pose proof (Hag 13 ltac:(lia) ltac:(lia) ltac:(lia) ltac:(lia)) as E13.
  pose proof (Hag 15 ltac:(lia) ltac:(lia) ltac:(lia) ltac:(lia)) as E15.
  clear Hag. cbv in E0, E1, E2, E3, E5, E6, E7, E8, E10, E11, E12, E13, E15.
  subst. cbv -[Z.lxor Z.shiftl u8]. reflexivity.
Qed.

(** Column 0 of a round's result is computed from column 0 of its argument. *)
Lemma round_column0 (mix : bool) (s1 s2 : list Z) :
  length s1 = 16%nat -> length s2 = 16%nat -> take 4 s1 = take 4 s2 ->
  let p1 := Spec.permute (map h (imap f s1)) in
  let p2 := Spec.permute (map h (imap f s2)) in
  take 4 (if mix then for_step 0 CTR_DRBG.BLOCK_SIZE 4 CTR_DRBG.mix_column p1 else p1)
  = take 4 (if mix then for_step 0 CTR_DRBG.BLOCK_SIZE 4 CTR_DRBG.mix_column p2 else p2).
Proof.
  intros H1 H2 Hag.
  do 17 (destruct s1 as [|? s1]; try discriminate H1).
  do 17 (destruct s2 as [|? s2]; try discriminate H2).
  cbn [take] in Hag. injection Hag as -> -> -> ->.
  destruct mix; cbv -[Z.lxor Z.shiftl u8]; reflexivity.
Qed.

(** Without the column mixing, the last three bytes repeat the first three. *)
Lemma permute_tail (s : list Z) :
  length s = 16%nat ->
  drop 13 (Spec.permute (map h (imap f s))) = take 3 (Spec.permute (map h (imap f s))).
Proof.
  intros H1.
  do 17 (destruct s as [|? s]; try discriminate H1).
  cbv -[Z.lxor Z.shiftl u8]. reflexivity.
Qed.

End Permuted.

Lemma length_encrypt_rounds (key : list Z) (n : nat) (i : Z) (s : list Z) :
  length (for_loop n i 1 (CTR_DRBG.encrypt_round key) s) = length s.
Proof.
  apply (for_loop_inv (fun t => length t = length s)); [|reflexivity].
  intros j t Ht. now rewrite length_encrypt_round.
Qed.

Lemma encrypt_block_drops (g : CTR_DRBG.t) (b1 b2 : list Z) :
  length b1 = 16%nat -> length b2 = 16%nat ->
  (forall i, 0 <= i < 16 -> i <> 4 -> i <> 9 -> i <> 14 -> vget b1 i = vget b2 i) ->
  CTR_DRBG.encrypt_block g b1 = CTR_DRBG.encrypt_block g b2.
Proof.
  intros H1 H2 Hag. unfold CTR_DRBG.encrypt_block, for_range. cbv zeta.
  change (Z.to_nat (10 - 0)) with 10%nat.
  do 2 rewrite (for_loop_cons _ 1 9). f_equal. rewrite !encrypt_round_maps by assumption. cbv zeta.
  now rewrite (permute_drops _ _ b1 b2).
Qed.

Lemma encrypt_block_take4 (g : CTR_DRBG.t) (b1 b2 : list Z) :
  length b1 = 16%nat -> length b2 = 16%nat -> take 4 b1 = take 4 b2 ->
  take 4 (CTR_DRBG.encrypt_block g b1) = take 4 (CTR_DRBG.encrypt_block g b2).
Proof.
  intros H1 H2 Hag. unfold CTR_DRBG.encrypt_block, for_range. cbv zeta.
  apply (for_loop_rel
    (fun s s' => length s = 16%nat /\ length s' = 16%nat /\ take 4 s = take 4 s'));
    [|now repeat split].
  intros i s s' (Hs & Hs' & Ht). rewrite !length_encrypt_round.
  split; [exact Hs|]. split; [exact Hs'|].
  rewrite !encrypt_round_maps by assumption. cbv zeta.
  now apply round_column0.
Qed.

Lemma encrypt_block_tail (g : CTR_DRBG.t) (block : list Z) :
  length block = 16%nat ->
  drop 13 (CTR_DRBG.encrypt_block g block) = take 3 (CTR_DRBG.encrypt_block g block).
Proof.
  intros H. unfold CTR_DRBG.encrypt_block, for_range. cbv zeta.
  change (Z.to_nat (10 - 0)) with 10%nat.
  rewrite for_loop_snoc. change (0 + Z.of_nat 9 * 1) with 9.
  rewrite encrypt_round_maps by now rewrite length_encrypt_rounds.
  cbv zeta. change (9 <? 9) with false. cbv iota.
  apply permute_tail. now rewrite length_encrypt_rounds.
Qed.

(** X6. [encrypt_block] does not read the bytes 4, 9 and 14 of its input:
    under one key, two blocks that agree on the other thirteen bytes have
    the same encryption, and overwriting these three bytes of a block
    with any values leaves its encryption as it was. The cipher is not a
    permutation of the blocks. *)
Theorem encrypt_block_ignored_bytes (g : CTR_DRBG.t) (b1 b2 : list Z)
    (H1 : length b1 = 16%nat) (H2 : length b2 = 16%nat)
    (Hagree : forall i, 0 <= i < 16 -> i <> 4 -> i <> 9 -> i <> 14 ->
                vget b1 i = vget b2 i) :
  CTR_DRBG.encrypt_block g b1 = CTR_DRBG.encrypt_block g b2
  /\ forall x y z,
       CTR_DRBG.encrypt_block g (vset (vset (vset b1 4 x) 9 y) 14 z)
       = CTR_DRBG.encrypt_block g b1.
Proof.
  split; [now apply encrypt_block_drops|].
  intros x y z. apply encrypt_block_drops.
  - now rewrite !length_vset.
  - exact H1.
  - intros i Hi H4 H9 H14. now rewrite !vget_vset_ne by lia.
Qed.

Lemma encrypt_block_ignored_bytes_witness :
  let g := CTR_DRBG.new [1; 2; 3] in
  CTR_DRBG.encrypt_block g [1; 2; 3; 4; 5; 6; 7; 8; 9; 10; 11; 12; 13; 14; 15; 16]
  = CTR_DRBG.encrypt_block g [1; 2; 3; 4; 77; 6; 7; 8; 9; 99; 11; 12; 13; 14; 200; 16].
Proof.
  intros g.
  refine (proj1 (encrypt_block_ignored_bytes g
    [1; 2; 3; 4; 5; 6; 7; 8; 9; 10; 11; 12; 13; 14; 15; 16]
    [1; 2; 3; 4; 77; 6; 7; 8; 9; 99; 11; 12; 13; 14; 200; 16] eq_refl eq_refl _)).
  intros i Hi H4 H9 H14.
  assert (Hc : i = 0 \/ i = 1 \/ i = 2 \/ i = 3 \/ i = 5 \/ i = 6 \/ i = 7 \/ i = 8
               \/ i = 10 \/ i = 11 \/ i = 12 \/ i = 13 \/ i = 15) by lia.
  repeat (destruct Hc as [->|Hc]; [reflexivity|]). subst i. reflexivity.
Defined.

(** X7. In every encrypted block the last three bytes repeat the first
    three (the last round permutes without mixing), and the first four
    bytes depend, besides the key, on the first four bytes of the input
    only: column 0 is transformed on its own in every round. *)
Theorem encrypt_block_column0 (g : CTR_DRBG.t) (b1 b2 : list Z)
    (H1 : length b1 = 16%nat) (H2 : length b2 = 16%nat) :
  drop 13 (CTR_DRBG.encrypt_block g b1) = take 3 (CTR_DRBG.encrypt_block g b1)
  /\ (take 4 b1 = take 4 b2 ->
      take 4 (CTR_DRBG.encrypt_block g b1) = take 4 (CTR_DRBG.encrypt_block g b2)).
Proof.
  split; [now apply encrypt_block_tail|now apply encrypt_block_take4].
Qed.

Lemma encrypt_block_column0_witness :
  let g := CTR_DRBG.new [1; 2; 3] in
  let b1 := [1; 2; 3; 4; 5; 6; 7; 8; 9; 10; 11; 12; 13; 14; 15; 16] in
  let b2 := [1; 2; 3; 4; 0; 0; 0; 0; 0; 0; 0; 0; 0; 0; 0; 0] in
  drop 13 (CTR_DRBG.encrypt_block g b1) = take 3 (CTR_DRBG.encrypt_block g b1)
  /\ take 4 (CTR_DRBG.encrypt_block g b1) = take 4 (CTR_DRBG.encrypt_block g b2).
Proof.
  intros g b1 b2.
  destruct (encrypt_block_column0 g b1 b2 eq_refl eq_refl) as [Ha Hb].
  split; [exact Ha|apply Hb; reflexivity].
Defined.

(** ** Consequences for the output of CTR-DRBG *)

Lemma be_encode_app (a b : nat) :
  forall x, be_encode (a + b) x = be_encode a (x / 256 ^ Z.of_nat b) ++ be_encode b x.
Proof.
  induction b as [|b IH]; intros x.
  - rewrite Nat.add_0_r. cbn [be_encode Z.of_nat]. rewrite Z.pow_0_r, Z.div_1_r.
    now rewrite app_nil_r.
  - rewrite Nat.add_succ_r. cbn [be_encode]. rewrite IH, <- app_assoc.
    f_equal. f_equal.
    rewrite Nat2Z.inj_succ, Z.pow_succ_r by lia.
    rewrite Z.div_div by (try apply Z.pow_pos_nonneg; lia). reflexivity.
Qed.

Lemma vget_take (n : nat) (l : list Z) (j : Z) :
  0 <= j < Z.of_nat n -> vget (take n l) j = vget l j.
Proof.
  intros Hj. unfold vget. rewrite !nth_lookup.
  rewrite lookup_take_lt by lia. reflexivity.
Qed.

Lemma vget_drop (n : nat) (l : list Z) (j : Z) :
  0 <= j -> vget (drop n l) j = vget l (Z.of_nat n + j).
Proof.
  intros Hj. unfold vget. rewrite !nth_lookup, lookup_drop.
  replace (Z.to_nat (Z.of_nat n + j)) with (n + Z.to_nat j)%nat by lia. reflexivity.
Qed.

Lemma vget_flat_map_blocks (f : nat -> list Z) (B : nat) (k : nat) (p : Z) :
  (forall i, length (f i) = B) -> 0 <= p < Z.of_nat B * Z.of_nat k ->
  vget (flat_map f (seq 0 k)) p = vget (f (Z.to_nat (p / Z.of_nat B))) (p mod Z.of_nat B).
Proof.
  intros Hf. induction k as [|k IH]; intros Hp; [lia|].
  assert (HB : 0 < Z.of_nat B) by nia.
  assert (HL : length (flat_map f (seq 0 k)) = (B * k)%nat).
  { clear IH Hp. induction k as [|k IH]; [cbn; lia|].
    rewrite seq_S, flat_map_app, length_app, IH. cbn [flat_map Nat.add].
    rewrite app_nil_r, Hf. lia. }
  rewrite seq_S, flat_map_app. cbn [flat_map Nat.add]. rewrite app_nil_r.
  destruct (Z_lt_le_dec p (Z.of_nat B * Z.of_nat k)) as [Hlt|Hge].
  - unfold vget at 1. rewrite app_nth1 by lia. apply IH. lia.
  - unfold vget at 1. rewrite app_nth2 by lia. rewrite HL.
    assert (Hq : p / Z.of_nat B = Z.of_nat k).
    { symmetry. apply (Z.div_unique p (Z.of_nat B) (Z.of_nat k) (p - Z.of_nat B * Z.of_nat k)); lia. }
    assert (Hr : p mod Z.of_nat B = p - Z.of_nat B * Z.of_nat k).
    { rewrite Z.mod_eq, Hq by lia. reflexivity. }
    rewrite Hq, Hr, Nat2Z.id. unfold vget. f_equal. lia.
Qed.

(** Adding 256 to a 128-bit value changes byte 14 of its encoding only,
    unless that byte is 0xFF. *)
Lemma be_encode_add_256 (x i : Z) :
  (x / 256) mod 256 <> 255 -> 0 <= i < 16 -> i <> 14 ->
  vget (be_encode 16 (x + 256)) i = vget (be_encode 16 x) i.
Proof.
  intros Hx Hi Hne.
  assert (E : forall y, be_encode 16 y
              = be_encode 14 (y / 65536) ++ (y / 256) mod 256 :: [y mod 256]).
  { intros y. change 16%nat with (14 + 2)%nat. rewrite be_encode_app. reflexivity. }
  rewrite !E.
  replace ((x + 256) / 65536) with (x / 65536).
  2:{ change 65536 with (256 * 256). rewrite <- !Z.div_div by lia.
      replace ((x + 256) / 256) with (x / 256 + 1) by (Z.div_mod_to_equations; lia).
      revert Hx. generalize (x / 256). intros q Hq. Z.div_mod_to_equations. lia. }
  replace ((x + 256) mod 256) with (x mod 256) by (Z.div_mod_to_equations; lia).
  rewrite <- (vset_middle (be_encode 14 (x / 65536)) [x mod 256]
                ((x / 256) mod 256) ((x + 256) / 256 mod 256)).
  apply vget_vset_ne; unfold len; rewrite ?length_be_encode; lia.
Qed.

Lemma ctr_generate_vget (g : CTR_DRBG.t) (n p : Z) :
  wf (Ctr g) = true -> 0 <= n <= 2 ^ 64 - 8 -> 0 <= p < ceil_div n 8 ->
  vget (snd (CTR_DRBG.generate g n)) p
  = vget (CTR_DRBG.encrypt_block g
            (be_encode 16 (be_value (CTR_DRBG.counter g) + p / 16 + 1))) (p mod 16).
Proof.
  intros Hwf Hn Hp. rewrite ctr_generate_output by assumption.
  rewrite vget_take by lia. unfold Stream.ctr_blocks.
  rewrite (vget_flat_map_blocks _ 16).
  - change (Z.of_nat 16) with 16. rewrite Z2Nat.id by (Z.div_mod_to_equations; lia).
    reflexivity.
  - intros i. now rewrite length_encrypt_block, length_be_encode.
  - destruct (ceil_div_bounds (ceil_div n 8) 16); lia.
Qed.

(** X8. The output of CTR-DRBG repeats after 256 blocks: in the bytes one
    [generate] call returns, the byte at position p + 4096 equals the byte
    at position p, unless byte 14 of the counter value encrypted for p's
    block is 0xFF (the counters of the two blocks then differ in byte 14
    only, which the cipher does not read). *)
Theorem ctr_generate_period (g : CTR_DRBG.t) (n p : Z)
    (Hwf : wf (Ctr g) = true) (Hn : 0 <= n <= 2 ^ 64 - 8)
    (Hp : 0 <= p) (Hp' : p + 4096 < ceil_div n 8)
    (Hc : ((be_value (CTR_DRBG.counter g) + p / 16 + 1) / 256) mod 256 <> 255) :
  vget (snd (CTR_DRBG.generate g n)) (p + 4096) = vget (snd (CTR_DRBG.generate g n)) p.
Proof.
  rewrite !ctr_generate_vget by (try assumption; lia).
  replace ((p + 4096) mod 16) with (p mod 16) by (Z.div_mod_to_equations; lia).
  replace (be_value (CTR_DRBG.counter g) + (p + 4096) / 16 + 1)
    with (be_value (CTR_DRBG.counter g) + p / 16 + 1 + 256)
    by (Z.div_mod_to_equations; lia).
  f_equal. apply encrypt_block_drops; try apply length_be_encode.
  intros i Hi _ _ H14. now apply be_encode_add_256.
Qed.

Lemma ctr_generate_period_witness :
  let g := CTR_DRBG.new [1; 2; 3] in
  vget (snd (CTR_DRBG.generate g 40000)) (5 + 4096)
  = vget (snd (CTR_DRBG.generate g 40000)) 5.
Proof.
  intros g.
  assert (Hwf : wf (Ctr g) = true) by (vm_compute; reflexivity).
  assert (Hn : 0 <= 40000 <= 2 ^ 64 - 8) by (split; discriminate).
  assert (Hp : 0 <= 5) by discriminate.
  assert (Hp' : 5 + 4096 < ceil_div 40000 8) by reflexivity.
  assert (Hc : ((be_value (CTR_DRBG.counter g) + 5 / 16 + 1) / 256) mod 256 <> 255)
    by (vm_compute; discriminate).
  exact (ctr_generate_period g 40000 5 Hwf Hn Hp Hp' Hc).
Defined.

Lemma encrypt_block_vget_tail (g : CTR_DRBG.t) (block : list Z) (j : Z) :
  length block = 16%nat -> 13 <= j < 16 ->
  vget (CTR_DRBG.encrypt_block g block) j = vget (CTR_DRBG.encrypt_block g block) (j - 13).
Proof.
  intros Hl Hj.
  rewrite <- (vget_take 3 _ (j - 13)) by lia.
  rewrite <- encrypt_block_tail by exact Hl.
  rewrite vget_drop by lia. f_equal. lia.
Qed.

(** X9. Seven bytes of every 16-byte output block of CTR-DRBG do not
    change from block to block: two positions of one [generate] output
    with the same offset 0..3 or 13..15 in their blocks hold the same
    byte, as long as the counters of the two blocks have the same four
    most significant bytes. *)
Theorem ctr_generate_constant_bytes (g : CTR_DRBG.t) (n p q : Z)
    (Hwf : wf (Ctr g) = true) (Hn : 0 <= n <= 2 ^ 64 - 8)
    (Hp : 0 <= p < ceil_div n 8) (Hq : 0 <= q < ceil_div n 8)
    (Hpq : p mod 16 = q mod 16)
    (Hcol : p mod 16 < 4 \/ 13 <= p mod 16)
    (Htop : (be_value (CTR_DRBG.counter g) + p / 16 + 1) / 2 ^ 96
            = (be_value (CTR_DRBG.counter g) + q / 16 + 1) / 2 ^ 96) :
  vget (snd (CTR_DRBG.generate g n)) p = vget (snd (CTR_DRBG.generate g n)) q.
Proof.
  rewrite !ctr_generate_vget by assumption. rewrite <- Hpq.
  set (xp := be_value (CTR_DRBG.counter g) + p / 16 + 1) in *.
  set (xq := be_value (CTR_DRBG.counter g) + q / 16 + 1) in *.
  assert (Hj : 0 <= p mod 16 < 16) by (apply Z.mod_pos_bound; lia).
  assert (H4 : take 4 (CTR_DRBG.encrypt_block g (be_encode 16 xp))
               = take 4 (CTR_DRBG.encrypt_block g (be_encode 16 xq))).
  { apply encrypt_block_take4; try apply length_be_encode.
    change 16%nat with (4 + 12)%nat. rewrite !be_encode_app.
    rewrite !take_app_length' by now rewrite length_be_encode.
    change (256 ^ Z.of_nat 12) with (2 ^ 96). now rewrite Htop. }
  assert (G : forall j, 0 <= j < 4 ->
    vget (CTR_DRBG.encrypt_block g (be_encode 16 xp)) j
    = vget (CTR_DRBG.encrypt_block g (be_encode 16 xq)) j).
  { intros j Hj4. rewrite <- (vget_take 4 _ j), H4 by lia. apply vget_take. lia. }
  destruct Hcol as [Hlow|Hhigh].
  - apply G. lia.
  - rewrite !(encrypt_block_vget_tail g _ (p mod 16)) by (try apply length_be_encode; lia).
    apply G. lia.
Qed.

Lemma ctr_generate_constant_bytes_witness :
  let g := CTR_DRBG.new [1; 2; 3] in
  vget (snd (CTR_DRBG.generate g 1000)) 14 = vget (snd (CTR_DRBG.generate g 1000)) 110.
Proof.
  intros g.
  assert (Hwf : wf (Ctr g) = true) by (vm_compute; reflexivity).
  assert (Hn : 0 <= 1000 <= 2 ^ 64 - 8) by (split; discriminate).
  assert (Hp : 0 <= 14 < ceil_div 1000 8) by (split; [discriminate|reflexivity]).
  assert (Hq : 0 <= 110 < ceil_div 1000 8) by (split; [discriminate|reflexivity]).
  assert (Hpq : 14 mod 16 = 110 mod 16) by reflexivity.
  assert (Hcol : 14 mod 16 < 4 \/ 13 <= 14 mod 16) by (right; discriminate).
  assert (Htop : (be_value (CTR_DRBG.counter g) + 14 / 16 + 1) / 2 ^ 96
                 = (be_value (CTR_DRBG.counter g) + 110 / 16 + 1) / 2 ^ 96)
    by (vm_compute; reflexivity).
  exact (ctr_generate_constant_bytes g 1000 14 110 Hwf Hn Hp Hq Hpq Hcol Htop).
Defined.

(** ** Benchmark::countBits *)

Lemma while_inv_cond {St : Type} (P : St -> Prop) (cond : St -> bool) (body : St -> St) :
  (forall s, P s -> cond s = true -> P (body s)) ->
  forall bound s, P s -> P (while bound cond body s).
Proof.
  intros Hbody bound. induction bound as [|b IH]; intros s Hs; cbn [while]; [exact Hs|].
  destruct (cond s) eqn:E; [|exact Hs]. now apply IH, Hbody.
Qed.

Lemma ones_in_range (data : list Z) (k : nat) : 0 <= ones_in data k <= Z.of_nat k.
Proof.
  induction k as [|k IH]; cbn [ones_in]; [lia|].
  destruct (stream_bit data (Z.of_nat k)); cbn [Z.b2z]; lia.
Qed.

Lemma land_shiftr_1 (byte bit : Z) :
  0 <= bit -> Z.land (Z.shiftr byte bit) 1 = Z.b2z (Z.testbit byte bit).
Proof.
  intros Hb. change 1 with (Z.ones 1). rewrite Z.land_ones by lia.
  change (2 ^ 1) with 2. rewrite <- Z.bit0_mod, Z.shiftr_spec by lia.
  now rewrite Z.add_0_l.
Qed.

Section CountBits.

Variable data : list Z.
Variable num_bits : Z.
Hypothesis num_bits_range : 0 <= num_bits < 2 ^ 64.

Lemma count_bit_step (i bit : Z) (s : Benchmark.counters) :
  0 <= i -> 0 <= bit <= 7 ->
  counted_bits data (8 * i + 7 - bit) s -> 8 * i + 7 - bit < num_bits ->
  counted_bits data (8 * i + 7 - (bit - 1)) (snd (Benchmark.count_bit (vget data i) (bit, s))).
Proof.
  intros Hi Hbit (Hc & Ho & Hz) Hlt.
  set (c := 8 * i + 7 - bit) in *.
  assert (Hbit' : stream_bit data c = Z.testbit (vget data i) bit).
  { unfold stream_bit.
    replace (c / 8) with i by (unfold c; Z.div_mod_to_equations; lia).
    replace (7 - c mod 8) with bit by (unfold c; Z.div_mod_to_equations; lia).
    reflexivity. }
  assert (Hk : Z.to_nat (8 * i + 7 - (bit - 1)) = S (Z.to_nat c)) by (unfold c; lia).
  pose proof (ones_in_range data (Z.to_nat c)) as Hr.
  unfold counted_bits. rewrite Hk. cbn [ones_in]. rewrite Z2Nat.id by (unfold c; lia).
  rewrite Hbit'. unfold Benchmark.count_bit. cbv zeta. cbn [fst snd].
  rewrite land_shiftr_1 by lia.
  destruct (Z.testbit (vget data i) bit); cbn [Z.b2z Z.eqb negb];
    cbn [Benchmark.bits_counted Benchmark.ones Benchmark.zeros];
    rewrite Hc, ?Ho, ?Hz, !size_t_small by (unfold c in *; lia);
    unfold c; repeat split; lia.
Qed.

Lemma count_byte_step (i : Z) (s : Benchmark.counters) :
  0 <= i -> counted_bits data (8 * i) s -> 8 * i < num_bits ->
  counted_bits data (Z.min (8 * (i + 1)) num_bits)
    (snd (Benchmark.count_byte data num_bits (i, s))).
Proof.
  intros Hi Hs Hlt. unfold Benchmark.count_byte. cbv zeta. cbn [fst snd].
  set (cond := fun s0 : Z * Benchmark.counters =>
                 (0 <=? fst s0) && (Benchmark.bits_counted (snd s0) <? num_bits)).
  set (J := fun st : Z * Benchmark.counters =>
              -1 <= fst st <= 7
              /\ counted_bits data (Z.min (8 * i + 7 - fst st) num_bits) (snd st)).
  assert (Hbody : forall st, J st -> cond st = true ->
            J (Benchmark.count_bit (vget data i) st)
            /\ (Z.to_nat (fst (Benchmark.count_bit (vget data i) st) + 1)
                < Z.to_nat (fst st + 1))%nat).
  { intros [bit s0] [Hb Hc] Hcond. unfold cond in Hcond. cbn [fst snd] in *.
    apply andb_prop in Hcond. destruct Hcond as [Hb0 Hlt0].
    assert (Hlt1 : 8 * i + 7 - bit < num_bits).
    { destruct Hc as (Hc & _). lia. }
    rewrite Z.min_l in Hc by lia.
    pose proof (count_bit_step i bit s0 Hi ltac:(lia) Hc Hlt1) as Hstep.
    split; [split|].
    - unfold Benchmark.count_bit. cbv zeta. cbn [fst]. lia.
    - replace (fst (Benchmark.count_bit (vget data i) (bit, s0))) with (bit - 1)
        by reflexivity.
      rewrite Z.min_l by lia. exact Hstep.
    - unfold Benchmark.count_bit. cbv zeta. cbn [fst]. lia. }
  assert (J0 : J (7, s)).
  { unfold J. cbn [fst snd]. split; [lia|].
    rewrite Z.min_l by lia. now replace (8 * i + 7 - 7) with (8 * i) by lia. }
  pose proof (while_inv_cond J cond (Benchmark.count_bit (vget data i))
                (fun st Hst Hc => proj1 (Hbody st Hst Hc)) 8 (7, s) J0) as HJ.
  pose proof (while_exit J (fun st => Z.to_nat (fst st + 1)) cond
                (Benchmark.count_bit (vget data i)) Hbody 8 (7, s) J0
                ltac:(cbn [fst]; lia)) as Hexit.
  revert HJ Hexit.
  generalize (while 8 cond (Benchmark.count_bit (vget data i)) (7, s)).
  intros [bit s1] [Hb Hc] Hexit. unfold cond in Hexit. cbn [fst snd] in *.
  destruct Hc as (Hc1 & Hc2 & Hc3). unfold counted_bits.
  assert (E : Z.min (8 * (i + 1)) num_bits = Z.min (8 * i + 7 - bit) num_bits) by lia.
  rewrite E. now repeat split.
Qed.

Lemma countBits_loop :
  let st := while (length data)
              (fun s => (fst s <? len data) && (Benchmark.bits_counted (snd s) <? num_bits))
              (Benchmark.count_byte data num_bits)
              (0, {| Benchmark.zeros := 0; Benchmark.ones := 0; Benchmark.bits_counted := 0 |}) in
  counted_bits data (Z.min num_bits (8 * len data)) (snd st).
Proof.
  intros st.
  set (cond := fun s : Z * Benchmark.counters =>
                 (fst s <? len data) && (Benchmark.bits_counted (snd s) <? num_bits)) in *.
  set (J := fun s : Z * Benchmark.counters =>
              0 <= fst s <= len data /\ counted_bits data (Z.min (8 * fst s) num_bits) (snd s)).
  assert (Hbody : forall s, J s -> cond s = true ->
            J (Benchmark.count_byte data num_bits s)
            /\ (Z.to_nat (len data - fst (Benchmark.count_byte data num_bits s))
                < Z.to_nat (len data - fst s))%nat).
  { intros [i s0] [Hi Hc] Hcond. unfold cond in Hcond. cbn [fst snd] in *.
    apply andb_prop in Hcond. destruct Hcond as [Hi0 Hlt0].
    assert (Hlt1 : 8 * i < num_bits) by (destruct Hc as (Hc & _); lia).
    rewrite Z.min_l in Hc by lia.
    pose proof (count_byte_step i s0 ltac:(lia) Hc Hlt1) as Hstep.
    assert (Hfst : fst (Benchmark.count_byte data num_bits (i, s0)) = i + 1).
    { unfold Benchmark.count_byte. cbv zeta. cbn [fst].
      apply size_t_small. lia. }
    unfold J. rewrite Hfst. split; [split|]; [lia| |lia]. exact Hstep. }
  assert (J0 : J (0, {| Benchmark.zeros := 0; Benchmark.ones := 0;
                        Benchmark.bits_counted := 0 |})).
  { unfold J, counted_bits. cbn [fst snd]. unfold len.
    rewrite Z.min_l by lia. cbn. repeat split; lia. }
  pose proof (while_inv_cond J cond (Benchmark.count_byte data num_bits)
                (fun s Hs Hc => proj1 (Hbody s Hs Hc)) (length data) _ J0) as HJ.
  pose proof (while_exit J (fun s => Z.to_nat (len data - fst s)) cond
                (Benchmark.count_byte data num_bits) Hbody (length data) _ J0
                ltac:(cbn [fst]; unfold len; lia)) as Hexit.
  fold st in HJ, Hexit. revert HJ Hexit. generalize st.
  intros [i s1] [Hi Hc] Hexit. unfold cond in Hexit. cbn [fst snd] in *.
  assert (E : Z.min num_bits (8 * len data) = Z.min (8 * i) num_bits).
  { destruct Hc as (Hc & _). lia. }
  rewrite E. exact Hc.
Qed.

Lemma countBits_result :
  Benchmark.countBits data num_bits
  = (Z.min num_bits (8 * len data)
       - ones_in data (Z.to_nat (Z.min num_bits (8 * len data))),
     ones_in data (Z.to_nat (Z.min num_bits (8 * len data)))).
Proof.
  unfold Benchmark.countBits. cbv zeta.
  destruct countBits_loop as (_ & Ho & Hz). now rewrite Ho, Hz.
Qed.

End CountBits.

(** X10. [countBits(data, num_bits)] looks at the first
    min(num_bits, 8 * data.size()) bits of [data], the most significant
    bit of byte 0 first, and returns how many of them are 0 and how many
    are 1; the remaining bits of a last, partly counted byte are ignored,
    and a [num_bits] beyond the data counts every bit of the data. *)
Theorem countBits_counts (data : list Z) (num_bits : Z)
    (Hn : 0 <= num_bits < 2 ^ 64) :
  let k := Z.min num_bits (8 * len data) in
  Benchmark.countBits data num_bits
  = (k - ones_in data (Z.to_nat k), ones_in data (Z.to_nat k))
  /\ fst (Benchmark.countBits data num_bits) + snd (Benchmark.countBits data num_bits) = k
  /\ 0 <= snd (Benchmark.countBits data num_bits) <= k.
Proof.
  intros k. rewrite (countBits_result data num_bits Hn). fold k. cbn [fst snd].
  pose proof (ones_in_range data (Z.to_nat k)).
  assert (0 <= k) by (unfold k, len; lia).
  repeat split; lia.
Qed.

Lemma countBits_counts_witness :
  Benchmark.countBits [0xF0; 0xFF; 0x01] 12 = (4, 8).
Proof.
  assert (Hn : 0 <= 12 < 2 ^ 64) by (split; [discriminate|reflexivity]).
  exact (proj1 (countBits_counts [0xF0; 0xFF; 0x01] 12 Hn)).
Defined.

(** X11. [Benchmark::run] counts the bits of what [generate(num_bits)]
    returned: for every generator state and every [num_bits] up to
    2^64 - 8 the two counts add up to [num_bits] exactly, the ones being
    those among the first [num_bits] bits of the output; the bits that
    pad the last byte are not counted. *)
Theorem countBits_generate (d : DRBG) (num_bits : Z)
    (Hn : 0 <= num_bits <= 2 ^ 64 - 8) :
  let data := snd (generate d num_bits) in
  Benchmark.countBits data num_bits
  = (num_bits - ones_in data (Z.to_nat num_bits), ones_in data (Z.to_nat num_bits))
  /\ fst (Benchmark.countBits data num_bits) + snd (Benchmark.countBits data num_bits)
     = num_bits.
Proof.
  intros data.
  assert (Hlen : len data = ceil_div num_bits 8).
  { unfold data. rewrite generate_num_bytes. now apply num_bytes_small. }
  assert (Hc : num_bits <= 8 * len data).
  { rewrite Hlen, ceil_div_8. Z.div_mod_to_equations. lia. }
  assert (Hn' : 0 <= num_bits < 2 ^ 64)
    by (change (2 ^ 64) with 18446744073709551616 in *; lia).
  rewrite (countBits_result data num_bits Hn').
  rewrite Z.min_l by lia. cbn [fst snd]. split; [reflexivity|lia].
Qed.

Lemma countBits_generate_witness :
  let data := snd (generate (construct CTR [1; 2; 3]) 10) in
  fst (Benchmark.countBits data 10) + snd (Benchmark.countBits data 10) = 10.
Proof.
  intros data.
  assert (Hn : 0 <= 10 <= 2 ^ 64 - 8) by (split; discriminate).
  exact (proj2 (countBits_generate (construct CTR [1; 2; 3]) 10 Hn)).
Defined.

(** ** generateSeed *)

Lemma for_loop_ind {St : Type} (P : nat -> St -> Prop) (body : Z -> St -> St) (step : Z) :
  forall n i s,
    P 0%nat s ->
    (forall k t, (k < n)%nat -> P k t -> P (S k) (body (i + Z.of_nat k * step) t)) ->
    P n (for_loop n i step body s).
Proof.
  intros n. induction n as [|n IH]; intros i s H0 Hstep; [exact H0|].
  rewrite for_loop_snoc. apply Hstep; [lia|].
  apply IH; [exact H0|]. intros k t Hk. apply Hstep. lia.
Qed.

(** Byte [p] of the seed: byte [p mod 4], least significant first, of the
    value of call [p / 4]. *)
Lemma seed_byte_value (val j : Z) :
  0 <= j -> u8 (Z.land (Z.shiftr val (j * 8)) 255) = (val / 2 ^ (8 * j)) mod 256.
Proof.
  intros Hj. change 255 with (Z.ones 8). rewrite Z.land_ones by lia.
  rewrite Z.shiftr_div_pow2 by lia. unfold u8. change (2 ^ 8) with 256.
  rewrite Z.mod_mod by lia. now rewrite (Z.mul_comm j).
Qed.

Section GenerateSeed.

Variable rd : random_device.
Variable size : Z.
Hypothesis size_range : 0 <= size <= 2 ^ 64 - 4.

Lemma seed_word_step (k : nat) (seed : list Z) :
  4 * Z.of_nat k < size -> seed_filled rd size (4 * Z.of_nat k) seed ->
  seed_filled rd size (4 * Z.of_nat (S k)) (snd (seed_word rd size (0 + Z.of_nat k * 4) (k, seed))).
Proof.
  intros Hk Hf. unfold seed_word. cbv zeta. cbn [fst snd].
  set (i := 0 + Z.of_nat k * 4). set (val := u32 (rd k)).
  set (cond := fun s : Z * list Z => (fst s <? 4) && (size_t (i + fst s) <? size)).
  set (J := fun st : Z * list Z => 0 <= fst st <= 4 /\ seed_filled rd size (i + fst st) (snd st)).
  assert (Hsz : forall j, 0 <= j <= 4 -> size_t (i + j) = i + j).
  { intros j Hj. apply size_t_small. unfold i.
    change (2 ^ 64) with 18446744073709551616 in *. lia. }
  assert (Hbody : forall st, J st -> cond st = true ->
            J (seed_byte val i st)
            /\ (Z.to_nat (4 - fst (seed_byte val i st)) < Z.to_nat (4 - fst st))%nat).
  { intros [j sd] [Hj [Hl Hp]] Hcond. unfold cond in Hcond. cbn [fst snd] in *.
    apply andb_prop in Hcond. destruct Hcond as [Hj4 Hlt].
    rewrite Hsz in Hlt by lia.
    unfold seed_byte. cbv zeta. cbn [fst snd].
    rewrite size_t_small by (change (2 ^ 64) with 18446744073709551616; lia).
    rewrite (Hsz j) by lia.
    split; [|lia]. unfold J, seed_filled. cbn [fst snd].
    split; [lia|]. split; [now rewrite len_vset|].
    intros p Hpr. destruct (Z.eq_dec p (i + j)) as [->|Hne].
    - rewrite vget_vset_eq by lia. rewrite seed_byte_value by lia.
      replace ((i + j) / 4) with (Z.of_nat k) by (unfold i; Z.div_mod_to_equations; lia).
      replace ((i + j) mod 4) with j by (unfold i; Z.div_mod_to_equations; lia).
      rewrite Nat2Z.id. reflexivity.
    - rewrite vget_vset_ne by (unfold i in *; lia). apply Hp. lia. }
  assert (J0 : J (0, seed)).
  { unfold J. cbn [fst snd]. split; [lia|].
    replace (i + 0) with (4 * Z.of_nat k) by (unfold i; lia). exact Hf. }
  pose proof (while_inv_cond J cond (seed_byte val i)
                (fun st Hst Hc => proj1 (Hbody st Hst Hc)) 4 (0, seed) J0) as HJ.
  pose proof (while_exit J (fun st => Z.to_nat (4 - fst st)) cond
                (seed_byte val i) Hbody 4 (0, seed) J0 ltac:(cbn [fst]; lia)) as Hexit.
  revert HJ Hexit. generalize (while 4 cond (seed_byte val i) (0, seed)).
  intros [j sd] [Hj [Hl Hp]] Hexit. unfold cond in Hexit. cbn [fst snd] in *.
  rewrite Hsz in Hexit by lia.
  split; [exact Hl|]. intros p Hpr. apply Hp. unfold i. lia.
Qed.

Lemma generateSeed_loop :
  fst (generateSeed rd size) = Z.to_nat (ceil_div size 4)
  /\ seed_filled rd size size (snd (generateSeed rd size)).
Proof.
  unfold generateSeed, for_step. cbv zeta.
  rewrite (ceil_div_pos size 4) by lia.
  replace (size - 0 + 4 - 1) with (size + 4 - 1) by lia.
  set (n := Z.to_nat ((size + 4 - 1) / 4)).
  assert (Hn : 4 * Z.of_nat n < size + 4 /\ size <= 4 * Z.of_nat n).
  { unfold n. rewrite Z2Nat.id by (Z.div_mod_to_equations; lia).
    Z.div_mod_to_equations. lia. }
  pose proof (for_loop_ind
    (fun k st => (k <= n)%nat -> fst st = k /\ seed_filled rd size (4 * Z.of_nat k) (snd st))
    (seed_word rd size) 4 n 0 (O, replicate (Z.to_nat size) 0)) as H.
  destruct H as [H1 H2]; [| |lia|].
  - intros _. cbn [fst snd]. split; [reflexivity|]. split.
    + unfold len. rewrite length_replicate. lia.
    + intros p Hp. lia.
  - intros k [c sd] Hk IH Hk'. destruct (IH ltac:(lia)) as [Hc Hf].
    cbn [fst snd] in Hc, Hf. subst c. split; [reflexivity|].
    apply seed_word_step; [lia|exact Hf].
  - split; [exact H1|]. destruct H2 as [Hl Hp]. split; [exact Hl|].
    intros p Hpr. apply Hp. lia.
Qed.

End GenerateSeed.

(** X12. [generateSeed(size)] returns [size] bytes and draws
    ceil(size / 4) values from the random device; byte p of the seed is
    byte (p mod 4), least significant first, of the 32-bit value of draw
    number p / 4, so only the last draw can be used in part. The
    48-byte seed of [main] uses 12 draws in full. *)
Theorem generateSeed_bytes (rd : random_device) (size : Z)
    (Hsize : 0 <= size <= 2 ^ 64 - 4) :
  fst (generateSeed rd size) = Z.to_nat (ceil_div size 4)
  /\ len (snd (generateSeed rd size)) = size
  /\ bytes (snd (generateSeed rd size)) = true
  /\ forall p, 0 <= p < size ->
       vget (snd (generateSeed rd size)) p
       = (u32 (rd (Z.to_nat (p / 4))) / 2 ^ (8 * (p mod 4))) mod 256.
Proof.
  destruct (generateSeed_loop rd size Hsize) as [H1 [H2 H3]].
  split; [exact H1|]. split; [exact H2|]. split.
  - apply bytes_iff. intros x Hx. apply In_nth with (d := 0) in Hx.
    destruct Hx as (j & Hj & <-).
    specialize (H3 (Z.of_nat j) ltac:(unfold len in H2; lia)).
    unfold vget in H3. rewrite Nat2Z.id in H3. rewrite H3.
    apply Z.mod_pos_bound. lia.
  - intros p Hp. apply H3. lia.
Qed.

Lemma generateSeed_bytes_witness :
  fst (generateSeed (fun k => 0x04030201 + Z.of_nat k) 48) = 12%nat
  /\ len (snd (generateSeed (fun k => 0x04030201 + Z.of_nat k) 48)) = 48.
Proof.
  assert (Hsize : 0 <= 48 <= 2 ^ 64 - 4) by (split; discriminate).
  destruct (generateSeed_bytes (fun k => 0x04030201 + Z.of_nat k) 48 Hsize) as (H1 & H2 & _).
  split; [exact H1|exact H2].
Defined.

(** ** SHA-256: padding and the bitwise helpers *)

Lemma sha256_pad_zeros_replicate (k : nat) :
  forall (bound : nat) (padded : list Z),
    Z.to_nat ((56 - len padded) mod 64) = k -> (k <= bound)%nat ->
    while bound (fun p => negb (len p mod 64 =? 56)) (fun p => p ++ [0x00]) padded
    = padded ++ replicate k 0.
Proof.
  induction k as [|k IH]; intros bound padded Hk Hb.
  - assert (E : len padded mod 64 = 56).
    { pose proof (len_nonneg padded). Z.div_mod_to_equations. lia. }
    cbn [replicate]. rewrite app_nil_r.
    destruct bound as [|b]; [reflexivity|]. cbn [while].
    rewrite E. reflexivity.
  - assert (E : len padded mod 64 <> 56).
    { pose proof (len_nonneg padded). Z.div_mod_to_equations. lia. }
    destruct bound as [|b]; [lia|]. cbn [while].
    replace (len padded mod 64 =? 56) with false by lia. cbn [negb].
    rewrite IH; [|rewrite len_app; change (len [0]) with 1|lia].
    + now rewrite <- app_assoc.
    + pose proof (len_nonneg padded). Z.div_mod_to_equations. lia.
Qed.

Lemma sha256_length_bytes (x : Z) (p : list Z) :
  for_down 7 0 (fun i p => p ++ [u8 (Z.land (Z.shiftr x (i * 8)) 0xFF)]) p
  = p ++ be_encode 8 x.
Proof.
  assert (H : forall k, 0 <= k ->
            u8 (Z.land (Z.shiftr x k) 255) = (x / 2 ^ k) mod 256).
  { intros k Hk. change 255 with (Z.ones 8).
    rewrite Z.land_ones, Z.shiftr_div_pow2 by lia.
    unfold u8. now rewrite Z.mod_mod by lia. }
  unfold for_down. change (Z.to_nat (7 - 0 + 1)) with 8%nat.
  cbn [for_loop be_encode]. rewrite !H by lia.
  rewrite <- !app_assoc. cbn [app]. rewrite !Z.div_div by lia.
  f_equal. repeat (apply (f_equal2 cons); [reflexivity|]).
  apply (f_equal2 cons); [|reflexivity].
  now rewrite Z.div_1_r.
Qed.

(** X13. The padding of [sha256] is that of FIPS 180-4: the message, the
    byte 0x80, the least number of zero bytes that brings the length to
    56 modulo 64, and the length of the message in bits as 8 big-endian
    bytes (modulo 2^64); the padded message is a whole number of 64-byte
    blocks. *)
Theorem sha256_padding_layout (data : list Z) :
  sha256_padding data
  = data ++ [0x80] ++ replicate (Z.to_nat ((55 - len data) mod 64)) 0
      ++ be_encode 8 (8 * len data)
  /\ len (sha256_padding data) = 64 * ((len data + 8) / 64 + 1).
Proof.
  assert (E : sha256_padding data
              = data ++ [0x80] ++ replicate (Z.to_nat ((55 - len data) mod 64)) 0
                  ++ be_encode 8 (8 * len data)).
  { unfold sha256_padding. cbv zeta. rewrite sha256_length_bytes.
    unfold sha256_pad_zeros.
    rewrite (sha256_pad_zeros_replicate (Z.to_nat ((55 - len data) mod 64))).
    - rewrite <- !app_assoc. do 3 f_equal.
      unfold size_t. rewrite Z.mul_comm.
      apply (be_encode_mod 8).
    - rewrite len_app. change (len [128]) with 1. f_equal. f_equal. lia.
    - pose proof (Z.mod_pos_bound (55 - len data) 64 ltac:(lia)). lia. }
  split; [exact E|]. rewrite E. unfold len.
  rewrite !length_app, length_replicate, length_be_encode. cbn [length].
  pose proof (Z.mod_pos_bound (55 - Z.of_nat (length data)) 64 ltac:(lia)).
  rewrite !Nat2Z.inj_add, Z2Nat.id by lia.
  Z.div_mod_to_equations. lia.
Qed.

Lemma u32_testbit (a i : Z) : 0 <= i < 32 -> Z.testbit (u32 a) i = Z.testbit a i.
Proof. intros Hi. unfold u32. apply Z.mod_pow2_bits_low. lia. Qed.

Lemma testbit_above (x i : Z) : 0 <= x < 2 ^ 32 -> 32 <= i -> Z.testbit x i = false.
Proof.
  intros Hx Hi. rewrite <- (Z.mod_small x (2 ^ 32)) by exact Hx.
  apply Z.mod_pow2_bits_high. lia.
Qed.

Lemma rotr_testbit (x n i : Z) :
  0 <= x < 2 ^ 32 -> 0 < n < 32 -> 0 <= i < 32 ->
  Z.testbit (rotr x n) i = Z.testbit x ((i + n) mod 32).
Proof.
  intros Hx Hn Hi. unfold rotr.
  rewrite Z.lor_spec, Z.shiftr_spec, u32_testbit, Z.shiftl_spec by lia.
  destruct (Z_lt_le_dec (i + n) 32) as [Hlt|Hge].
  - rewrite (Z.testbit_neg_r x (i - (32 - n))) by lia.
    rewrite Z.mod_small by lia. apply orb_false_r.
  - rewrite (testbit_above x (i + n)) by (try assumption; lia).
    cbn [orb]. f_equal. Z.div_mod_to_equations. lia.
Qed.

Lemma rotr_range (x n : Z) : 0 <= x < 2 ^ 32 -> 0 < n < 32 -> 0 <= rotr x n < 2 ^ 32.
Proof.
  intros Hx Hn.
  assert (E : rotr x n = rotr x n mod 2 ^ 32).
  { apply Z.bits_inj'. intros i Hi.
    destruct (Z_lt_le_dec i 32) as [Hlt|Hge].
    - now rewrite Z.mod_pow2_bits_low by lia.
    - rewrite Z.mod_pow2_bits_high by lia. unfold rotr.
      rewrite Z.lor_spec, Z.shiftr_spec by lia.
      rewrite (testbit_above x (i + n)) by (try assumption; lia).
      unfold u32. now rewrite Z.mod_pow2_bits_high by lia. }
  rewrite E. apply Z.mod_pos_bound. lia.
Qed.

(** X14. The bitwise helpers of SHA-256 on 32-bit words: [rotr x n]
    rotates right by n (bit i of the result is bit (i + n) mod 32 of x and
    the result is again a 32-bit word), [ch x y z] takes each bit from y
    where x has a 1 and from z where x has a 0, and [maj x y z] is the
    bitwise majority. *)
Theorem sha256_bit_functions (x y z n i : Z)
    (Hx : 0 <= x < 2 ^ 32) (Hn : 0 < n < 32) (Hi : 0 <= i < 32) :
  Z.testbit (rotr x n) i = Z.testbit x ((i + n) mod 32)
  /\ 0 <= rotr x n < 2 ^ 32
  /\ Z.testbit (ch x y z) i = (if Z.testbit x i then Z.testbit y i else Z.testbit z i)
  /\ Z.testbit (maj x y z) i
     = (Z.testbit x i && Z.testbit y i) || (Z.testbit x i && Z.testbit z i)
       || (Z.testbit y i && Z.testbit z i).
Proof.
  split; [now apply rotr_testbit|]. split; [now apply rotr_range|]. split.
  - unfold ch. rewrite Z.lxor_spec, !Z.land_spec, u32_testbit, Z.lnot_spec by lia.
    destruct (Z.testbit x i), (Z.testbit y i), (Z.testbit z i); reflexivity.
  - unfold maj. rewrite !Z.lxor_spec, !Z.land_spec.
    destruct (Z.testbit x i), (Z.testbit y i), (Z.testbit z i); reflexivity.
Qed.

Lemma sha256_bit_functions_witness :
  Z.testbit (rotr 0x80000001 1) 31 = Z.testbit 0x80000001 0
  /\ 0 <= rotr 0x80000001 1 < 2 ^ 32.
Proof.
  assert (Hx : 0 <= 0x80000001 < 2 ^ 32) by (split; [discriminate|reflexivity]).
  assert (Hn : 0 < 1 < 32) by (split; reflexivity).
  assert (Hi : 0 <= 31 < 32) by (split; [discriminate|reflexivity]).
  destruct (sha256_bit_functions 0x80000001 0 0 1 31 Hx Hn Hi) as (H1 & H2 & _).
  split; [exact H1|exact H2].
Defined.

(** ** Hash_df *)

Lemma hash_df_bits_bytes (x : Z) :
  [u8 (Z.land (Z.shiftr x 24) 0xFF); u8 (Z.land (Z.shiftr x 16) 0xFF);
   u8 (Z.land (Z.shiftr x 8) 0xFF); u8 (Z.land x 0xFF)]
  = be_encode 4 x.
Proof.
  assert (H : forall k, 0 <= k ->
            u8 (Z.land (Z.shiftr x k) 255) = (x / 2 ^ k) mod 256).
  { intros k Hk. change 255 with (Z.ones 8).
    rewrite Z.land_ones, Z.shiftr_div_pow2 by lia.
    unfold u8. now rewrite Z.mod_mod by lia. }
  rewrite <- (Z.shiftr_0_r x) at 4. rewrite !H by lia.
  cbn [be_encode app]. rewrite !Z.div_div by lia.
  repeat (apply (f_equal2 cons); [reflexivity|]).
  apply (f_equal2 cons); [|reflexivity].
  now rewrite Z.div_1_r.
Qed.

Lemma hash_df_iter (input : list Z) (no_of_bits : Z) (k : nat) :
  Nat.iter k (Hash_DRBG.hash_df_block input no_of_bits) ([], 1)
  = (hash_df_blocks input no_of_bits k, (Z.of_nat k + 1) mod 256).
Proof.
  induction k as [|k IH]; [reflexivity|].
  rewrite Nat.iter_succ, IH. unfold Hash_DRBG.hash_df_block. cbv beta iota zeta.
  unfold hash_df_blocks. rewrite seq_S, flat_map_app. cbn [flat_map Nat.add].
  rewrite app_nil_r. apply (f_equal2 pair).
  - apply (f_equal2 app); [reflexivity|]. apply (f_equal sha256).
    rewrite <- !app_assoc. cbn [app]. apply (f_equal2 cons); [reflexivity|].
    rewrite <- hash_df_bits_bytes. reflexivity.
  - unfold u8. change (2 ^ 8) with 256.
    rewrite Zplus_mod_idemp_l. f_equal. lia.
Qed.

Lemma len_hash_df_blocks (input : list Z) (no_of_bits : Z) (k : nat) :
  len (hash_df_blocks input no_of_bits k) = 32 * Z.of_nat k.
Proof.
  unfold hash_df_blocks.
  induction k as [|k IH]; [reflexivity|].
  rewrite seq_S, flat_map_app, len_app, IH. cbn [flat_map Nat.add].
  rewrite app_nil_r, len_sha256. lia.
Qed.

(** X15. [hash_df(input, no_of_bits)] returns the first
    ceil(no_of_bits / 8) bytes of H_1 || H_2 || ..., where
    H_i = sha256(counter_i || no_of_bits as 4 big-endian bytes || input);
    the one-byte counter starts at 1 and wraps to 0 after 255, and only the
    low 32 bits of [no_of_bits] enter the hash input. *)
Theorem hash_df_stream (input : list Z) (no_of_bits : Z)
    (Hbits : 0 <= no_of_bits <= 2 ^ 64 - 8) :
  Hash_DRBG.hash_df input no_of_bits
  = take (Z.to_nat (ceil_div no_of_bits 8))
      (hash_df_blocks input no_of_bits (Z.to_nat (ceil_div no_of_bits 256)))
  /\ len (Hash_DRBG.hash_df input no_of_bits) = ceil_div no_of_bits 8.
Proof.
  assert (E : Hash_DRBG.hash_df input no_of_bits
    = take (Z.to_nat (ceil_div no_of_bits 8))
        (hash_df_blocks input no_of_bits (Z.to_nat (ceil_div no_of_bits 256)))).
  { unfold Hash_DRBG.hash_df. cbv zeta.
    destruct (num_bytes_small no_of_bits Hbits) as [-> HN].
    pose proof (ceil_div_bounds (ceil_div no_of_bits 8) 32 ltac:(lia) HN) as [H0 H1].
    change (2 ^ 64) with 18446744073709551616 in Hbits.
    assert (Hsmall : ceil_div no_of_bits 8 < 2 ^ 62).
    { rewrite ceil_div_8. change (2 ^ 62) with 4611686018427387904.
      Z.div_mod_to_equations. lia. }
    change (2 ^ 62) with 4611686018427387904 in Hsmall.
    change Hash_DRBG.HASH_OUTPUT with 32.
    rewrite size_t_small by (change (2 ^ 64) with 18446744073709551616; lia).
    rewrite ceil_div_256, (ceil_div_pos (ceil_div no_of_bits 8) 32) in * by lia.
    unfold for_range. rewrite for_loop_const, Z.sub_0_r, hash_df_iter. cbn [fst].
    apply take_vresize. rewrite len_hash_df_blocks.
    rewrite Z2Nat.id by lia. lia. }
  split; [exact E|].
  unfold Hash_DRBG.hash_df. cbv zeta.
  destruct (num_bytes_small no_of_bits Hbits) as [-> HN].
  now apply len_vresize.
Qed.

Lemma hash_df_stream_witness :
  Hash_DRBG.hash_df [1; 2; 3] 440
  = take 55 (hash_df_blocks [1; 2; 3] 440 2).
Proof.
  assert (Hbits : 0 <= 440 <= 2 ^ 64 - 8) by (split; discriminate).
  exact (proj1 (hash_df_stream [1; 2; 3] 440 Hbits)).
Defined.

(** ** Seeds of CTR-DRBG that end in zero bytes *)

Lemma vget_app_zeros (s : list Z) (k : nat) (i : Z) :
  0 <= i -> vget (s ++ replicate k 0) i = vget s i.
Proof.
  intros Hi. unfold vget.
  destruct (Nat.lt_ge_cases (Z.to_nat i) (length s)) as [Hlt|Hge].
  - now apply app_nth1.
  - rewrite app_nth2 by lia. rewrite (nth_overflow s) by lia.
    rewrite nth_lookup.
    destruct (replicate k 0 !! (Z.to_nat i - length s)%nat) as [y|] eqn:E; [|reflexivity].
    apply lookup_replicate in E. now destruct E as [-> _].
Qed.

Lemma xor_data_zeros (temp s : list Z) (k : nat) (i : Z) :
  bytes temp = true -> 0 <= i ->
  vget (CTR_DRBG.xor_data temp (s ++ replicate k 0)) i = vget (CTR_DRBG.xor_data temp s) i.
Proof.
  intros Hb Hi. rewrite !vget_xor_data, vget_app_zeros by lia.
  rewrite len_app. unfold len at 3. rewrite length_replicate.
  destruct (Z.ltb_spec i (len temp)) as [Ht|Ht]; cbn [andb]; [|reflexivity].
  destruct (Z.ltb_spec i (len s)) as [Hs|Hs].
  - replace (i <? len s + Z.of_nat k) with true by lia. reflexivity.
  - assert (E : vget s i = 0) by (unfold vget; apply nth_overflow; unfold len in Hs; lia).
    destruct (i <? len s + Z.of_nat k); [|reflexivity].
    rewrite E, Z.lxor_0_r. apply u8_small, vget_byte, Hb.
Qed.

Lemma ctr_update_zeros (g : CTR_DRBG.t) (s : list Z) (k : nat) :
  bytes (CTR_DRBG.counter g) = true ->
  CTR_DRBG.update g (s ++ replicate k 0) = CTR_DRBG.update g s.
Proof.
  intros Hc. unfold CTR_DRBG.update. cbv zeta.
  pose proof (proj2 (ctr_while_bytes g (Z.to_nat (CTR_DRBG.KEY_SIZE + CTR_DRBG.BLOCK_SIZE))
    (fun st => len (snd st) <? CTR_DRBG.KEY_SIZE + CTR_DRBG.BLOCK_SIZE) [] Hc eq_refl)) as Hb.
  revert Hb.
  generalize (while (Z.to_nat (CTR_DRBG.KEY_SIZE + CTR_DRBG.BLOCK_SIZE))
    (fun st => len (snd st) <? CTR_DRBG.KEY_SIZE + CTR_DRBG.BLOCK_SIZE)
    CTR_DRBG.next_block (g, [])).
  intros st Hb.
  rewrite (copy_range_ext (CTR_DRBG.xor_data (snd st) (s ++ replicate k 0))
             (CTR_DRBG.xor_data (snd st) s) 0 CTR_DRBG.KEY_SIZE).
  - rewrite (copy_range_ext (CTR_DRBG.xor_data (snd st) (s ++ replicate k 0))
               (CTR_DRBG.xor_data (snd st) s)
               CTR_DRBG.KEY_SIZE (CTR_DRBG.KEY_SIZE + CTR_DRBG.BLOCK_SIZE)); [reflexivity|].
    intros i Hi. apply xor_data_zeros; [exact Hb|].
    unfold CTR_DRBG.KEY_SIZE in Hi. lia.
  - intros i Hi. apply xor_data_zeros; [exact Hb|lia].
Qed.

(** X16. Zero bytes at the end of a CTR-DRBG seed are without effect: a
    seed and the same seed followed by any number of 0x00 bytes construct
    the same generator and reseed a generator to the same state (the seed
    is XORed into 48 bytes of cipher output, a short seed counting as
    padded with zeros). The empty seed and every all-zero seed give one
    and the same generator. *)
Theorem ctr_seed_zero_padding (s : list Z) (k : nat) :
  CTR_DRBG.new (s ++ replicate k 0) = CTR_DRBG.new s
  /\ (forall g, bytes (CTR_DRBG.counter g) = true ->
        CTR_DRBG.reseed g (s ++ replicate k 0) = CTR_DRBG.reseed g s)
  /\ (forall calls,
        run (construct CTR (s ++ replicate k 0)) calls = run (construct CTR s) calls)
  /\ CTR_DRBG.new (replicate k 0) = CTR_DRBG.new [].
Proof.
  assert (Hnew : forall t, CTR_DRBG.new (t ++ replicate k 0) = CTR_DRBG.new t).
  { intros t. unfold CTR_DRBG.new. cbv zeta. apply ctr_update_zeros. reflexivity. }
  split; [apply Hnew|]. split; [|split].
  - intros g Hg. unfold CTR_DRBG.reseed. cbv zeta. now rewrite ctr_update_zeros.
  - intros calls. cbn [construct]. now rewrite Hnew.
  - apply (Hnew []).
Qed.

(** ** The reseed counter of CTR-DRBG and HMAC-DRBG is never read *)

Lemma while_rel {St : Type} (R : St -> St -> Prop) (cond : St -> bool) (body : St -> St) :
  (forall s s', R s s' -> cond s = cond s') ->
  (forall s s', R s s' -> R (body s) (body s')) ->
  forall bound s s', R s s' -> R (while bound cond body s) (while bound cond body s').
Proof.
  intros Hc Hb bound. induction bound as [|b IH]; intros s s' H; [exact H|].
  cbn [while]. rewrite <- (Hc s s' H). destruct (cond s); [|exact H].
  apply IH, Hb, H.
Qed.

Lemma ctr_while_same (g g' : CTR_DRBG.t) (N : Z) (bound : nat) :
  CTR_DRBG.key g = CTR_DRBG.key g' -> CTR_DRBG.counter g = CTR_DRBG.counter g' ->
  let st := while bound (fun st => len (snd st) <? N) CTR_DRBG.next_block (g, []) in
  let st' := while bound (fun st => len (snd st) <? N) CTR_DRBG.next_block (g', []) in
  CTR_DRBG.key (fst st) = CTR_DRBG.key (fst st')
  /\ CTR_DRBG.counter (fst st) = CTR_DRBG.counter (fst st')
  /\ snd st = snd st'.
Proof.
  intros Hk Hc.
  apply (while_rel (fun st st' : CTR_DRBG.t * list Z =>
    CTR_DRBG.key (fst st) = CTR_DRBG.key (fst st')
    /\ CTR_DRBG.counter (fst st) = CTR_DRBG.counter (fst st')
    /\ snd st = snd st')).
  - intros s s' (_ & _ & ->). reflexivity.
  - intros [s a] [s' a'] (H1 & H2 & H3). cbn [fst snd] in *. subst a'.
    unfold CTR_DRBG.next_block, CTR_DRBG.increment_counter. cbv zeta. cbn [fst snd].
    autorewrite with drbg. rewrite H2.
    split; [exact H1|]. split; [reflexivity|].
    apply (f_equal2 app); [reflexivity|].
    apply ctr_encrypt_block_key. now autorewrite with drbg.
  - now repeat split.
Qed.

Lemma ctr_update_same (g g' : CTR_DRBG.t) (data : list Z) :
  CTR_DRBG.key g = CTR_DRBG.key g' -> CTR_DRBG.counter g = CTR_DRBG.counter g' ->
  CTR_DRBG.key (CTR_DRBG.update g data) = CTR_DRBG.key (CTR_DRBG.update g' data)
  /\ CTR_DRBG.counter (CTR_DRBG.update g data) = CTR_DRBG.counter (CTR_DRBG.update g' data).
Proof.
  intros Hk Hc. unfold CTR_DRBG.update. cbv zeta. autorewrite with drbg.
  destruct (ctr_while_same g g' (CTR_DRBG.KEY_SIZE + CTR_DRBG.BLOCK_SIZE)
              (Z.to_nat (CTR_DRBG.KEY_SIZE + CTR_DRBG.BLOCK_SIZE)) Hk Hc) as (H1 & H2 & H3).
  revert H1 H2 H3.
  generalize (while (Z.to_nat (CTR_DRBG.KEY_SIZE + CTR_DRBG.BLOCK_SIZE))
    (fun st => len (snd st) <? CTR_DRBG.KEY_SIZE + CTR_DRBG.BLOCK_SIZE)
    CTR_DRBG.next_block (g, [])).
  generalize (while (Z.to_nat (CTR_DRBG.KEY_SIZE + CTR_DRBG.BLOCK_SIZE))
    (fun st => len (snd st) <? CTR_DRBG.KEY_SIZE + CTR_DRBG.BLOCK_SIZE)
    CTR_DRBG.next_block (g', [])).
  intros st' st H1 H2 H3. now rewrite H1, H2, H3.
Qed.

Lemma ctr_generate_same (g g' : CTR_DRBG.t) (n : Z) :
  CTR_DRBG.key g = CTR_DRBG.key g' -> CTR_DRBG.counter g = CTR_DRBG.counter g' ->
  CTR_DRBG.key (fst (CTR_DRBG.generate g n)) = CTR_DRBG.key (fst (CTR_DRBG.generate g' n))
  /\ CTR_DRBG.counter (fst (CTR_DRBG.generate g n))
     = CTR_DRBG.counter (fst (CTR_DRBG.generate g' n))
  /\ snd (CTR_DRBG.generate g n) = snd (CTR_DRBG.generate g' n).
Proof.
  intros Hk Hc. unfold CTR_DRBG.generate. cbv zeta. cbn [fst snd]. autorewrite with drbg.
  destruct (ctr_while_same g g' (size_t (n + 7) / 8) (Z.to_nat (size_t (n + 7) / 8)) Hk Hc)
    as (H1 & H2 & H3).
  revert H1 H2 H3.
  generalize (while (Z.to_nat (size_t (n + 7) / 8))
    (fun st => len (snd st) <? size_t (n + 7) / 8) CTR_DRBG.next_block (g, [])).
  generalize (while (Z.to_nat (size_t (n + 7) / 8))
    (fun st => len (snd st) <? size_t (n + 7) / 8) CTR_DRBG.next_block (g', [])).
  intros st' st H1 H2 H3.
  destruct (ctr_update_same (fst st) (fst st') [] H1 H2) as [-> ->].
  now rewrite H3.
Qed.

Lemma hmac_update_same (g g' : HMAC_DRBG.t) (data : list Z) :
  HMAC_DRBG.K g = HMAC_DRBG.K g' -> HMAC_DRBG.V g = HMAC_DRBG.V g' ->
  HMAC_DRBG.K (HMAC_DRBG.update g data) = HMAC_DRBG.K (HMAC_DRBG.update g' data)
  /\ HMAC_DRBG.V (HMAC_DRBG.update g data) = HMAC_DRBG.V (HMAC_DRBG.update g' data).
Proof.
  intros HK HV. unfold HMAC_DRBG.update. cbv zeta.
  destruct (negb _); autorewrite with drbg; rewrite HK, HV; now split.
Qed.

Lemma hmac_while_same (g g' : HMAC_DRBG.t) (N : Z) (bound : nat) :
  HMAC_DRBG.K g = HMAC_DRBG.K g' -> HMAC_DRBG.V g = HMAC_DRBG.V g' ->
  let st := while bound (fun st => len (snd st) <? N) HMAC_DRBG.next_block (g, []) in
  let st' := while bound (fun st => len (snd st) <? N) HMAC_DRBG.next_block (g', []) in
  HMAC_DRBG.K (fst st) = HMAC_DRBG.K (fst st')
  /\ HMAC_DRBG.V (fst st) = HMAC_DRBG.V (fst st')
  /\ snd st = snd st'.
Proof.
  intros HK HV.
  apply (while_rel (fun st st' : HMAC_DRBG.t * list Z =>
    HMAC_DRBG.K (fst st) = HMAC_DRBG.K (fst st')
    /\ HMAC_DRBG.V (fst st) = HMAC_DRBG.V (fst st')
    /\ snd st = snd st')).
  - intros s s' (_ & _ & ->). reflexivity.
  - intros [s a] [s' a'] (H1 & H2 & H3). cbn [fst snd] in *. subst a'.
    unfold HMAC_DRBG.next_block. cbv zeta. cbn [fst snd].
    autorewrite with drbg. rewrite H1, H2. now repeat split.
  - now repeat split.
Qed.

Lemma hmac_generate_same (g g' : HMAC_DRBG.t) (n : Z) :
  HMAC_DRBG.K g = HMAC_DRBG.K g' -> HMAC_DRBG.V g = HMAC_DRBG.V g' ->
  HMAC_DRBG.K (fst (HMAC_DRBG.generate g n)) = HMAC_DRBG.K (fst (HMAC_DRBG.generate g' n))
  /\ HMAC_DRBG.V (fst (HMAC_DRBG.generate g n))
     = HMAC_DRBG.V (fst (HMAC_DRBG.generate g' n))
  /\ snd (HMAC_DRBG.generate g n) = snd (HMAC_DRBG.generate g' n).
Proof.
  intros HK HV. unfold HMAC_DRBG.generate. cbv zeta. cbn [fst snd]. autorewrite with drbg.
  destruct (hmac_while_same g g' (size_t (n + 7) / 8) (Z.to_nat (size_t (n + 7) / 8)) HK HV)
    as (H1 & H2 & H3).
  revert H1 H2 H3.
  generalize (while (Z.to_nat (size_t (n + 7) / 8))
    (fun st => len (snd st) <? size_t (n + 7) / 8) HMAC_DRBG.next_block (g, [])).
  generalize (while (Z.to_nat (size_t (n + 7) / 8))
    (fun st => len (snd st) <? size_t (n + 7) / 8) HMAC_DRBG.next_block (g', [])).
  intros st' st H1 H2 H3.
  destruct (hmac_update_same (fst st) (fst st') [] H1 H2) as [-> ->].
  now rewrite H3.
Qed.

Lemma step_same_but_counter (d d' : DRBG) (c : call) :
  same_but_counter d d' ->
  same_but_counter (fst (step d c)) (fst (step d' c))
  /\ snd (step d c) = snd (step d' c).
Proof.
  destruct d as [g|g|g], d' as [g'|g'|g']; cbn [same_but_counter]; try contradiction;
    intros [H1 H2]; destruct c as [n|seed]; cbn [step generate reseed]; cbv zeta;
    cbn [fst snd same_but_counter].
  - destruct (ctr_generate_same g g' n H1 H2) as (E1 & E2 & E3).
    rewrite E3. split; [split; [exact E1|exact E2]|reflexivity].
  - unfold CTR_DRBG.reseed. cbv zeta. autorewrite with drbg.
    split; [|reflexivity]. now apply ctr_update_same.
  - destruct (hmac_generate_same g g' n H1 H2) as (E1 & E2 & E3).
    rewrite E3. split; [split; [exact E1|exact E2]|reflexivity].
  - unfold HMAC_DRBG.reseed. cbv zeta. autorewrite with drbg.
    split; [|reflexivity]. now apply hmac_update_same.
Qed.

(** X17. The reseed counter of CTR-DRBG and of HMAC-DRBG is bookkeeping
    only: two generators of one of these variants that agree on the rest
    of their state return the same bytes from every sequence of generate
    and reseed calls and keep agreeing on the rest of the state, whatever
    their reseed counters are. No call ever tests the counter. *)
Theorem reseed_counter_unused (d d' : DRBG) (calls : list call)
    (H : same_but_counter d d') :
  snd (run d calls) = snd (run d' calls)
  /\ same_but_counter (fst (run d calls)) (fst (run d' calls)).
Proof.
  revert d d' H. induction calls as [|c calls IH]; intros d d' H.
  - split; [reflexivity|exact H].
  - rewrite !run_cons. cbn [fst snd].
    destruct (step_same_but_counter d d' c H) as [Hs Ho].
    destruct (IH _ _ Hs) as [IH1 IH2].
    rewrite Ho, IH1. split; [reflexivity|exact IH2].
Qed.

Lemma reseed_counter_unused_witness :
  let g := CTR_DRBG.new [1; 2; 3] in
  let calls := [Generate 100; Reseed [4]; Generate 7] in
  snd (run (Ctr (CTR_DRBG.set_reseed_counter g 12345)) calls) = snd (run (Ctr g) calls).
Proof.
  intros g calls.
  assert (H : same_but_counter (Ctr (CTR_DRBG.set_reseed_counter g 12345)) (Ctr g))
    by (split; reflexivity).
  exact (proj1 (reseed_counter_unused _ _ calls H)).
Defined.

(** ** Hash-DRBG: the constant C and long addends *)

Lemma hash_generate_C (g : Hash_DRBG.t) (n : Z) :
  Hash_DRBG.C (fst (Hash_DRBG.generate g n)) = Hash_DRBG.C g.
Proof.
  unfold Hash_DRBG.generate. cbv zeta. cbn [fst]. autorewrite with drbg.
  now rewrite !(proj1 (hash_add_to_V_frame _ _)).
Qed.

(** X18. The constant C of Hash-DRBG is derived from V when the generator
    is constructed or reseeded, C = hash_df(0x00 || V, 440), and no
    generate call changes it: after any number of generate calls C is
    still the value of the last construction or reseed. *)
Theorem hash_C_constant (g : Hash_DRBG.t) (ns : list Z) :
  (exists g', fst (run (Hash g) (map Generate ns)) = Hash g'
              /\ Hash_DRBG.C g' = Hash_DRBG.C g)
  /\ (forall seed,
        Hash_DRBG.C (Hash_DRBG.new seed)
        = Hash_DRBG.hash_df ([0x00] ++ Hash_DRBG.V (Hash_DRBG.new seed)) 440)
  /\ (forall seed,
        Hash_DRBG.C (Hash_DRBG.reseed g seed)
        = Hash_DRBG.hash_df ([0x00] ++ Hash_DRBG.V (Hash_DRBG.reseed g seed)) 440).
Proof.
  split; [|split].
  - revert g. induction ns as [|n ns IH]; intros g.
    + exists g. now split.
    + cbn [map]. rewrite run_cons. cbn [step generate fst]. cbv zeta. cbn [fst].
      destruct (IH (fst (Hash_DRBG.generate g n))) as (g' & E & HC).
      exists g'. split; [exact E|]. now rewrite HC, hash_generate_C.
  - intros seed. unfold Hash_DRBG.new. cbv zeta. now autorewrite with drbg.
  - intros seed. unfold Hash_DRBG.reseed. cbv zeta. now autorewrite with drbg.
Qed.

Lemma be_value_drop (value : list Z) (d : nat) :
  bytes value = true -> (d <= length value)%nat ->
  be_value (drop d value) = be_value value mod 256 ^ Z.of_nat (length value - d).
Proof.
  intros Hb Hd.
  assert (Hb' : bytes (drop d value) = true).
  { rewrite <- (take_drop d value), bytes_app in Hb. now apply andb_prop in Hb. }
  rewrite <- (take_drop d value) at 2. rewrite be_value_app.
  pose proof (be_value_bound _ Hb') as Hr. unfold len in *.
  rewrite length_drop in *.
  rewrite Z.add_comm, Z_mod_plus_full. symmetry. now apply Z.mod_small.
Qed.

Lemma hash_add_to_V_drop (g : Hash_DRBG.t) (value : list Z) :
  (length (Hash_DRBG.V g) <= length value)%nat -> len value < 2 ^ 64 ->
  Hash_DRBG.add_to_V g value
  = Hash_DRBG.add_to_V g (drop (length value - length (Hash_DRBG.V g)) value).
Proof.
  intros Hl H64. unfold Hash_DRBG.add_to_V. cbv zeta.
  apply (f_equal (Hash_DRBG.set_V g)). apply (f_equal fst).
  unfold for_range. apply for_loop_ext. intros k [v c] Hk.
  unfold Hash_DRBG.add_to_V_step.
  assert (Hlen : len (drop (length value - length (Hash_DRBG.V g)) value)
                 = len (Hash_DRBG.V g)).
  { unfold len. rewrite length_drop. lia. }
  rewrite Hlen, Z.min_id, Z.min_l by (unfold len; lia).
  replace (0 + Z.of_nat k * 1) with (Z.of_nat k) by lia.
  assert (Hk' : Z.of_nat k < len (Hash_DRBG.V g)) by (unfold len in *; lia).
  replace (Z.of_nat k <? len (Hash_DRBG.V g)) with true by lia.
  rewrite (size_t_small (len value - 1 - Z.of_nat k)) by (unfold len in *; lia).
  rewrite (size_t_small (len (Hash_DRBG.V g) - 1 - Z.of_nat k)) by (unfold len in *; lia).
  rewrite vget_drop by lia.
  replace (Z.of_nat (length value - length (Hash_DRBG.V g))
           + (len (Hash_DRBG.V g) - 1 - Z.of_nat k))
    with (len value - 1 - Z.of_nat k) by (unfold len; lia).
  reflexivity.
Qed.

(** X19. [add_to_V] with a value longer than V reads the last 55 bytes of
    the value only, and for a value of any length V becomes the encoding
    of (V + value) mod 2^440. *)
Theorem add_to_V_any_length (g : Hash_DRBG.t) (value : list Z)
    (HV : length (Hash_DRBG.V g) = 55%nat) (HVb : bytes (Hash_DRBG.V g) = true)
    (Hvalue : bytes value = true) (Hlen : len value < 2 ^ 64) :
  Hash_DRBG.V (Hash_DRBG.add_to_V g value)
  = be_encode 55 ((be_value (Hash_DRBG.V g) + be_value value) mod 2 ^ 440)
  /\ ((55 <= length value)%nat ->
      Hash_DRBG.add_to_V g value
      = Hash_DRBG.add_to_V g (drop (length value - 55) value)).
Proof.
  split.
  - destruct (Nat.le_gt_cases (length value) 55) as [Hs|Hl].
    + rewrite hash_add_to_V_55 by assumption. now autorewrite with drbg.
    + rewrite hash_add_to_V_drop by (try assumption; lia). rewrite HV.
      assert (Hb' : bytes (drop (length value - 55) value) = true).
      { rewrite <- (take_drop (length value - 55) value), bytes_app in Hvalue.
        now apply andb_prop in Hvalue. }
      rewrite hash_add_to_V_55 by (try assumption; rewrite length_drop; lia).
      autorewrite with drbg. f_equal.
      rewrite be_value_drop by (try assumption; lia).
      replace (Z.of_nat (length value - (length value - 55))) with 55 by lia.
      change (256 ^ 55) with (2 ^ 440). now rewrite Zplus_mod_idemp_r.
  - intros Hl. rewrite <- HV. apply hash_add_to_V_drop; [lia|exact Hlen].
Qed.

Lemma add_to_V_any_length_witness :
  let g := Hash_DRBG.Make (replicate 55 0) (replicate 55 0) 1 in
  Hash_DRBG.V (Hash_DRBG.add_to_V g (replicate 60 1))
  = be_encode 55 ((be_value (Hash_DRBG.V g) + be_value (replicate 60 1)) mod 2 ^ 440).
Proof.
  intros g.
  exact (proj1 (add_to_V_any_length g (replicate 60 1) eq_refl eq_refl eq_refl eq_refl)).
Defined.

(** ** States and outputs stay within their types *)

Lemma bytes_generate (d : DRBG) (n : Z) :
  wf d = true -> bytes (snd (generate d n)) = true.
Proof.
  destruct d as [g|g|g]; cbn [generate]; cbv zeta; cbn [snd]; intros Hwf.
  - apply wf_ctr in Hwf. destruct Hwf as (_ & _ & _ & Hc & _).
    unfold CTR_DRBG.generate. cbv zeta. cbn [snd]. apply bytes_vresize.
    now apply ctr_while_bytes.
  - unfold Hash_DRBG.generate, Hash_DRBG.hashgen. cbv zeta. cbn [snd].
    apply bytes_vresize. unfold for_range.
    apply (for_loop_inv (fun st : list Z * list Z => bytes (snd st) = true)); [|reflexivity].
    intros i [data W] HW. unfold Hash_DRBG.hashgen_step. cbn [snd] in *.
    rewrite bytes_app, HW. apply bytes_sha256.
  - unfold HMAC_DRBG.generate. cbv zeta. cbn [snd]. apply bytes_vresize.
    apply (while_inv (fun st : HMAC_DRBG.t * list Z => bytes (snd st) = true));
      [|reflexivity].
    intros [s a] Ha. unfold HMAC_DRBG.next_block. cbv zeta. cbn [fst snd] in *.
    autorewrite with drbg. rewrite bytes_app, Ha. apply bytes_hmac_sha256.
Qed.

Lemma bytes_step (d : DRBG) (c : call) :
  wf d = true -> Forall (fun out => bytes out = true) (snd (step d c)).
Proof.
  intros Hwf. destruct c as [n|seed]; cbn [step]; cbv zeta; cbn [snd].
  - apply Forall_cons. split; [now apply bytes_generate|apply Forall_nil_2].
  - apply Forall_nil_2.
Qed.

Lemma bytes_run (calls : list call) :
  forall d, wf d = true ->
    wf (fst (run d calls)) = true
    /\ Forall (fun out => bytes out = true) (snd (run d calls)).
Proof.
  induction calls as [|c calls IH]; intros d Hwf.
  - split; [exact Hwf|apply Forall_nil_2].
  - rewrite run_cons. cbn [fst snd].
    destruct (IH _ (wf_step d c Hwf)) as [H1 H2].
    split; [exact H1|]. apply Forall_app. split; [now apply bytes_step|exact H2].
Qed.

(** X20. Whatever the seed (of any length) and the sequence of generate
    and reseed calls, the state of a generator keeps its shape: key,
    counter, K and V keep their declared widths, V and C of Hash-DRBG
    stay 55 bytes long, every entry is a byte and the reseed counter a
    64-bit value; and every vector [generate] returns consists of bytes. *)
Theorem reachable_states_well_formed (v : variant) (seed : list Z) (calls : list call) :
  wf (construct v seed) = true
  /\ wf (fst (run (construct v seed) calls)) = true
  /\ Forall (fun out => bytes out = true) (snd (run (construct v seed) calls)).
Proof.
  split; [apply wf_construct|]. apply bytes_run, wf_construct.
Qed.

(** ** The state update of CTR-DRBG *)

Lemma vget_copy_range (src : list Z) (lo hi : Z) (dst : list Z) (j : Z) :
  lo <= hi -> hi - lo <= len dst -> 0 <= j ->
  vget (copy_range src lo hi dst) j
  = if j <? hi - lo then vget src (lo + j) else vget dst j.
Proof.
  intros H1 H2 Hj. unfold copy_range.
  now rewrite (vget_for_range_pointwise (fun i _ => vget src i) lo) by (try reflexivity; lia).
Qed.

Lemma copy_range_all (src : list Z) (lo hi : Z) (dst : list Z) :
  0 <= lo -> len dst = hi - lo -> hi <= len src ->
  copy_range src lo hi dst = take (Z.to_nat (hi - lo)) (drop (Z.to_nat lo) src).
Proof.
  intros H0 Hd Hs. pose proof (len_nonneg dst).
  apply vget_ext.
  - rewrite length_copy_range, length_take, length_drop. unfold len in *. lia.
  - intros i Hi. rewrite len_copy_range in Hi.
    rewrite vget_copy_range by lia.
    replace (i <? hi - lo) with true by lia.
    rewrite vget_take, vget_drop by lia. f_equal. lia.
Qed.

Lemma xor_data_pad (temp data : list Z) :
  bytes temp = true -> bytes data = true ->
  CTR_DRBG.xor_data temp data = xor_pad temp data.
Proof.
  intros Ht Hd. apply vget_ext.
  - unfold CTR_DRBG.xor_data, for_range, xor_pad. rewrite length_imap.
    apply (for_loop_inv (fun t => length t = length temp)); [|reflexivity].
    intros i t Hl. now rewrite length_vset.
  - intros i Hi.
    assert (Hi' : 0 <= i < len temp).
    { revert Hi. unfold CTR_DRBG.xor_data, for_range, len.
      rewrite (for_loop_inv (fun t => length t = length temp)); [trivial| |reflexivity].
      intros j t Hl. now rewrite length_vset. }
    rewrite vget_xor_data by lia. unfold xor_pad. rewrite vget_imap by lia.
    rewrite Z2Nat.id by lia.
    replace (i <? len temp) with true by lia. cbn [andb].
    pose proof (vget_byte temp i Ht). pose proof (vget_byte data i Hd).
    destruct (Z.ltb_spec i (len data)) as [Hl|Hl].
    + apply u8_small. now apply lxor_byte.
    + replace (vget data i) with 0
        by (unfold vget; symmetry; apply nth_overflow; unfold len in Hl; lia).
      now rewrite Z.lxor_0_r.
Qed.

Lemma bytes_ctr_blocks (g : CTR_DRBG.t) (k : nat) : bytes (Stream.ctr_blocks g k) = true.
Proof.
  unfold Stream.ctr_blocks. induction k as [|k IH]; [reflexivity|].
  rewrite seq_S, flat_map_app, bytes_app, IH. cbn [flat_map Nat.add andb].
  rewrite app_nil_r. apply bytes_encrypt_block, bytes_be_encode.
Qed.

Lemma ctr_update_from (g s : CTR_DRBG.t) (t data : list Z) :
  while (Z.to_nat (CTR_DRBG.KEY_SIZE + CTR_DRBG.BLOCK_SIZE))
    (fun st => len (snd st) <? CTR_DRBG.KEY_SIZE + CTR_DRBG.BLOCK_SIZE)
    CTR_DRBG.next_block (g, []) = (s, t) ->
  len (CTR_DRBG.key s) = 32 -> len (CTR_DRBG.counter s) = 16 ->
  len t = 48 -> bytes t = true -> bytes data = true ->
  CTR_DRBG.key (CTR_DRBG.update g data) = take 32 (xor_pad t data)
  /\ CTR_DRBG.counter (CTR_DRBG.update g data) = drop 32 (xor_pad t data).
Proof.
  intros W Hk Hc Ht Hb Hd.
  assert (HL : len (xor_pad t data) = 48).
  { unfold xor_pad, len. rewrite length_imap. exact Ht. }
  unfold CTR_DRBG.update. cbv zeta.
  rewrite W. cbn [fst snd]. autorewrite with drbg.
  rewrite xor_data_pad by assumption.
  revert HL. generalize (xor_pad t data). intros x HL.
  rewrite (copy_range_all x 0 CTR_DRBG.KEY_SIZE)
    by (unfold CTR_DRBG.KEY_SIZE; lia).
  rewrite (copy_range_all x CTR_DRBG.KEY_SIZE (CTR_DRBG.KEY_SIZE + CTR_DRBG.BLOCK_SIZE))
    by (unfold CTR_DRBG.KEY_SIZE, CTR_DRBG.BLOCK_SIZE; lia).
  replace (Z.to_nat (CTR_DRBG.KEY_SIZE - 0)) with 32%nat by reflexivity.
  replace (Z.to_nat 0) with 0%nat by reflexivity.
  replace (Z.to_nat (CTR_DRBG.KEY_SIZE + CTR_DRBG.BLOCK_SIZE - CTR_DRBG.KEY_SIZE))
    with 16%nat by reflexivity.
  replace (Z.to_nat CTR_DRBG.KEY_SIZE) with 32%nat by reflexivity.
  rewrite drop_0. split; [reflexivity|].
  apply take_ge. rewrite length_drop. unfold len in HL. lia.
Qed.

Lemma ctr_update_state (g : CTR_DRBG.t) (data : list Z) :
  wf (Ctr g) = true -> bytes data = true ->
  CTR_DRBG.key (CTR_DRBG.update g data) = take 32 (xor_pad (Stream.ctr_blocks g 3) data)
  /\ CTR_DRBG.counter (CTR_DRBG.update g data)
     = drop 32 (xor_pad (Stream.ctr_blocks g 3) data).
Proof.
  intros Hwf Hd. pose proof Hwf as Hwf'.
  apply wf_ctr in Hwf'. destruct Hwf' as (Hk & Hc & _).
  assert (H0 : 0 <= CTR_DRBG.KEY_SIZE + CTR_DRBG.BLOCK_SIZE)
    by (unfold CTR_DRBG.KEY_SIZE, CTR_DRBG.BLOCK_SIZE; lia).
  pose proof (ctr_output_loop g (CTR_DRBG.KEY_SIZE + CTR_DRBG.BLOCK_SIZE)
                (Z.to_nat (CTR_DRBG.KEY_SIZE + CTR_DRBG.BLOCK_SIZE)) Hwf H0 (le_n _)) as W.
  replace (Z.to_nat (ceil_div (CTR_DRBG.KEY_SIZE + CTR_DRBG.BLOCK_SIZE) 16))
    with 3%nat in W by reflexivity.
  apply (ctr_update_from g _ _ data W).
  - now autorewrite with drbg.
  - autorewrite with drbg. unfold len. now rewrite length_be_encode.
  - apply (len_ctr_blocks g 3).
  - apply bytes_ctr_blocks.
  - exact Hd.
Qed.

Lemma ctr_record_eq (r : CTR_DRBG.t) (k c : list Z) (n : Z) :
  CTR_DRBG.key r = k -> CTR_DRBG.counter r = c -> CTR_DRBG.reseed_counter r = n ->
  r = CTR_DRBG.Make k c n.
Proof. destruct r as [k' c' n']. cbn. now intros -> -> ->. Qed.

(** X21. The state update of CTR-DRBG, on a well-formed state and a byte
    string [data]: the new key and counter are the first 32 and the last
    16 bytes of E(counter + 1) || E(counter + 2) || E(counter + 3),
    encrypted under the old key and XORed with [data] cut or padded with
    zeros to 48 bytes. [update] leaves the reseed counter alone, [reseed]
    is this update followed by resetting the counter to 1, and the
    constructor is this update on the all-zero key and counter. *)
Theorem ctr_update_spec (g : CTR_DRBG.t) (data : list Z)
    (Hwf : wf (Ctr g) = true) (Hdata : bytes data = true) :
  let x := xor_pad (Stream.ctr_blocks g 3) data in
  let zero := CTR_DRBG.Make (replicate 32 0) (replicate 16 0) 1 in
  let x0 := xor_pad (Stream.ctr_blocks zero 3) data in
  CTR_DRBG.update g data
  = CTR_DRBG.Make (take 32 x) (drop 32 x) (CTR_DRBG.reseed_counter g)
  /\ CTR_DRBG.reseed g data = CTR_DRBG.Make (take 32 x) (drop 32 x) 1
  /\ CTR_DRBG.new data = CTR_DRBG.Make (take 32 x0) (drop 32 x0) 1.
Proof.
  intros x zero x0.
  destruct (ctr_update_state g data Hwf Hdata) as [Hk Hc].
  assert (Hz : wf (Ctr zero) = true) by reflexivity.
  destruct (ctr_update_state zero data Hz Hdata) as [Hk0 Hc0].
  split; [|split].
  - apply ctr_record_eq; [exact Hk|exact Hc|apply ctr_update_reseed_counter].
  - unfold CTR_DRBG.reseed. cbv zeta.
    apply ctr_record_eq; now autorewrite with drbg.
  - apply ctr_record_eq; [exact Hk0|exact Hc0|].
    unfold CTR_DRBG.new. cbv zeta. apply ctr_update_reseed_counter.
Qed.

Lemma ctr_update_spec_witness :
  let g := CTR_DRBG.new [1; 2; 3] in
  let x := xor_pad (Stream.ctr_blocks g 3) [9; 8] in
  CTR_DRBG.reseed g [9; 8] = CTR_DRBG.Make (take 32 x) (drop 32 x) 1.
Proof.
  intros g x.
  assert (Hwf : wf (Ctr g) = true) by (vm_compute; reflexivity).
  exact (proj1 (proj2 (ctr_update_spec g [9; 8] Hwf eq_refl))).
Defined.

(** ** How far a request advances the state *)

Lemma after_output_blocks (d : DRBG) (n : Z) :
  wf d = true -> 0 <= n <= 2 ^ 64 - 8 ->
  after_output d n
  = match d with
    | Ctr g =>
        Ctr (CTR_DRBG.set_counter g
               (be_encode 16 (be_value (CTR_DRBG.counter g)
                              + ceil_div (ceil_div n 8) 16)))
    | Hash g => Hash g
    | Hmac g =>
        Hmac (HMAC_DRBG.set_V g
                (Nat.iter (Z.to_nat (ceil_div (ceil_div n 8) 32))
                   (HMAC_DRBG.hmac_sha256 (HMAC_DRBG.K g)) (HMAC_DRBG.V g)))
    end.
Proof.
  intros Hwf Hn. unfold after_output.
  destruct (num_bytes_small n Hn) as [-> HN].
  destruct d as [g|g|g]; [|reflexivity|].
  - rewrite ctr_output_loop by (try assumption; lia). reflexivity.
  - apply wf_hmac in Hwf. destruct Hwf as (_ & HV & _).
    rewrite hmac_output_loop by (try assumption; lia). reflexivity.
Qed.

(** X22. The state a [generate] call leaves depends on the request only
    through the number of output blocks: on a well-formed state, two
    requests that need the same number of 16-byte blocks (CTR-DRBG) or of
    32-byte blocks (HMAC-DRBG) leave the same state, and Hash-DRBG is left
    in the same state by every request, whatever its size. *)
Theorem generate_state_by_blocks (d : DRBG) (n m : Z)
    (Hwf : wf d = true) (Hn : 0 <= n <= 2 ^ 64 - 8) (Hm : 0 <= m <= 2 ^ 64 - 8)
    (Hblocks : match d with
               | Ctr _ => ceil_div (ceil_div n 8) 16 = ceil_div (ceil_div m 8) 16
               | Hash _ => True
               | Hmac _ => ceil_div (ceil_div n 8) 32 = ceil_div (ceil_div m 8) 32
               end) :
  fst (generate d n) = fst (generate d m).
Proof.
  destruct (generate_zero_state d Hwf) as (_ & _ & H).
  rewrite (H n), (H m), !after_output_blocks by assumption.
  destruct d as [g|g|g]; [|reflexivity|]; now rewrite Hblocks.
Qed.

Lemma generate_state_by_blocks_witness :
  let d := construct CTR [1; 2; 3] in
  fst (generate d 1) = fst (generate d 128).
Proof.
  intros d.
  assert (Hwf : wf d = true) by (vm_compute; reflexivity).
  assert (Hn : 0 <= 1 <= 2 ^ 64 - 8) by (split; discriminate).
  assert (Hm : 0 <= 128 <= 2 ^ 64 - 8) by (split; discriminate).
  exact (generate_state_by_blocks d 1 128 Hwf Hn Hm eq_refl).
Defined.
